(** * tools-common: object-store clients and the retryer, embedded in Rocq

    The development follows the Go sources:
    - [retry]   : [Retryer.duration] (the back-off computation);
    - [objval], [objerr], [objcli] : the shared value types and errors;
    - [objgcp]  : the Google Storage client (multipart upload emulated by
                  object composition);
    - [objaws]  : the S3 client;
    - [Retryer] : [Do], [DoWithContext] and the functions they call;
    - [log]     : [MaskArguments] and [UserTagArguments].

    Go's [error] is [option] of an error value ([None] is [nil]); a slice
    that may be [nil] is an [option (list _)]; [int64] values are integers
    with the wrap-around written out; the order in which the goroutines
    of a worker pool run their jobs is the choice of a scheduler. *)

From Stdlib Require Import ZArith Lia.
From stdpp Require Import gmap strings list fin_maps pretty.

Local Open Scope Z_scope.

(** ** Machine integers *)

Definition MinInt64 : Z := - 2 ^ 63.
Definition MaxInt64 : Z := 2 ^ 63 - 1.

Definition in_int64 (z : Z) : Prop := MinInt64 <= z <= MaxInt64.

(** Two's complement wrap-around of a 64-bit signed integer. *)
Definition wrap64 (z : Z) : Z := (z + 2 ^ 63) mod 2 ^ 64 - 2 ^ 63.

(** Modelled from the spec: the package [maths] is not among the sources;
    [Max] and [Min] are the larger and the smaller of two values, which
    [duration] uses for the minimum and maximum delay bounds. *)
Module maths.
Definition Max (a b : Z) : Z := if a <? b then b else a.
Definition Min (a b : Z) : Z := if a <? b then a else b.
End maths.

(** ** Package [retry] *)

Module retry.

(** The algorithm is an integer-backed enumeration in Go; a value outside
    the three named ones matches no case of the switch. *)
Inductive algorithm : Type :=
| AlgorithmFibonacci
| AlgorithmExponential
| AlgorithmLinear
| AlgorithmOther (v : Z).

Record RetryerOptions : Type := {
  Algorithm : algorithm;
  MaxRetries : Z;
  MinDelay : Z;   (* time.Duration, an int64 *)
  MaxDelay : Z    (* time.Duration, an int64 *)
}.

Record Retryer : Type := { options : RetryerOptions }.

Section Duration.

(** [math.Round(math.Pow(math.Phi, float64(attempt)) / sqrt5)] is a
    floating-point expression; its value enters the computation only
    through the conversion to [time.Duration], so it is kept as a
    parameter and the conversion is the wrap to 64 bits. *)
Variable round_pow_phi : Z -> Z.

(** The value of [n] after the switch; [None] is the run-time panic of a
    shift by a negative count. *)
Definition steps (r : Retryer) (attempt : Z) : option Z :=
  match Algorithm (options r) with
  | AlgorithmLinear => Some (wrap64 attempt)
  | AlgorithmExponential =>
      if attempt <? 0 then None else Some (wrap64 (Z.shiftl 1 attempt))
  | AlgorithmFibonacci => Some (wrap64 (round_pow_phi attempt))
  | AlgorithmOther _ => Some 0
  end.

(** Go's [/] on [int64]: truncated division; a zero divisor panics. *)
Definition div64 (a b : Z) : option Z :=
  if b =? 0 then None else Some (wrap64 (Z.quot a b)).

(** [Retryer.duration]; [None] is a run-time panic. *)
Definition duration (r : Retryer) (attempt : Z) : option Z :=
  match steps r attempt with
  | None => None
  | Some n =>
      let duration := wrap64 (n * MinDelay (options r)) in
      match div64 duration (MinDelay (options r)) with
      | None => None
      | Some q =>
          (* If we overflow, just return the max delay *)
          if negb (n =? q) then Some (MaxDelay (options r))
          else
            let duration := maths.Max (MinDelay (options r)) duration in
            let duration := maths.Min (MaxDelay (options r)) duration in
            Some duration
      end
  end.

End Duration.

End retry.

Local Close Scope Z_scope.


(** ** Outcomes and the client monad

    A client call runs against the provider's service, threads its state and
    either returns, panics (a nil pointer dereference), or, for the model of
    a recursive function, runs out of fuel. *)

Inductive outcome (A : Type) : Type :=
| Ret (a : A)
| Panic
| Diverge.

Arguments Ret {A} a.
Arguments Panic {A}.
Arguments Diverge {A}.

Definition M (S A : Type) : Type := S -> outcome (A * S).

Definition ret {S A : Type} (a : A) : M S A := fun s => Ret (a, s).

Definition bind {S A B : Type} (m : M S A) (k : A -> M S B) : M S B :=
  fun s =>
    match m s with
    | Ret (a, s') => k a s'
    | Panic => Panic
    | Diverge => Diverge
    end.

Definition panic {S A : Type} : M S A := fun _ => Panic.
Definition diverge {S A : Type} : M S A := fun _ => Diverge.

Declare Scope monad_scope.
Delimit Scope monad_scope with monad.

Notation "'let*' x ':=' m 'in' k" := (bind m (fun x => k))
  (at level 10, x pattern, m at level 100, k at level 200, only parsing) : monad_scope.
Notation "m ';;' k" := (bind m (fun _ => k))
  (at level 100, k at level 200, right associativity, only parsing) : monad_scope.

Local Open Scope monad_scope.

(** Object bodies are byte strings. *)
Abbreviation bytes := (list Byte.byte).

(** ** Package [objval] *)

Module objval.

(** [ETag] and [LastModified] are carried through from the provider
    unread by every operation below; the attributes keep the key and the
    size. *)
Record ObjectAttrs : Type := {
  Key : string;
  Size : Z
}.

Record Object : Type := {
  Attrs : ObjectAttrs;
  Body : bytes
}.

Record Part : Type := {
  ID : string;
  Number : Z;
  PartSize : Z
}.

Definition zeroPart : Part := {| ID := ""; Number := 0; PartSize := 0 |}.

(** [Part.Equal] *)
Definition Equal (p o : Part) : bool :=
  bool_decide (ID p = ID o) && bool_decide (Number p = Number o)
  && bool_decide (PartSize p = PartSize o).

Record ByteRange : Type := {
  Start : Z;
  End_ : Z
}.

End objval.

(** ** Package [objerr] *)

Module objerr.

(** Errors as the SDKs report them, before normalization. *)
Inductive cause : Type :=
| ErrObjectNotExist                      (* storage.ErrObjectNotExist *)
| ErrBucketNotExist                      (* storage.ErrBucketNotExist *)
| GoogleAPIError (status : Z)            (* googleapi.Error *)
| AWSError (code message : string).      (* awserr.Error *)

Inductive error : Type :=
| NotFoundError (kind name : string)
| ErrUnauthorized
| ErrUnsupportedOperation
| ErrIncludeAndExcludeAreMutuallyExclusive
| ErrByteRangeRequired
| InvalidByteRangeError (br : objval.ByteRange)
| ProviderError (c : cause)              (* a normalized provider error *)
| SDKError (c : cause)                   (* an SDK error returned as it is *)
| Errorf (msg : string) (e : error).     (* fmt.Errorf("msg: %w", e) *)

(** Modelled from the spec: [objerr.IsNotFoundError] is not among the
    sources; an error is a NotFound error when unwrapping it reaches a
    [NotFoundError]. *)
Fixpoint unwrapsToNotFound (e : error) : bool :=
  match e with
  | NotFoundError _ _ => true
  | Errorf _ e' => unwrapsToNotFound e'
  | _ => false
  end.

Definition IsNotFoundError (err : option error) : bool :=
  match err with
  | None => false
  | Some e => unwrapsToNotFound e
  end.

End objerr.

#[global] Instance cause_eq_dec : EqDecision objerr.cause.
Proof. solve_decision. Defined.

#[global] Instance ByteRange_eq_dec : EqDecision objval.ByteRange.
Proof. solve_decision. Defined.

#[global] Instance error_eq_dec : EqDecision objerr.error.
Proof. solve_decision. Defined.

(** Modelled from the spec: [ByteRange.Valid] is not among the sources. The
    range has inclusive offsets, [Start >= 0], and an end that, when present
    (non-zero), is at least the start. The argument is read as its callers
    use it: the S3 [UploadPartCopy] dereferences the range after
    [Valid(true)], so [true] requires a range, and the reads, which accept
    nil, pass [false]. *)
Definition Valid (b : option objval.ByteRange) (required : bool) : option objerr.error :=
  match b with
  | None => if required then Some objerr.ErrByteRangeRequired else None
  | Some br =>
      if ((objval.Start br <? 0) ||
          (negb (objval.End_ br =? 0) && (objval.End_ br <? objval.Start br)))%Z
      then Some (objerr.InvalidByteRangeError br)
      else None
  end.

(** ** Package [objcli] *)

Module objcli.

(** A compiled regular expression, through its only use. *)
Record Regexp : Type := { MatchString : string -> bool }.

(** Modelled from the spec: [objcli.ShouldIgnore] is not among the
    sources; an object is skipped when an include set is given and none of
    its patterns matches, or an exclude set is given and one matches. *)
Definition ShouldIgnore (query : string) (include exclude : option (list Regexp)) : bool :=
  let ignore (regexes : list Regexp) := existsb (fun r => MatchString r query) regexes in
  match include with Some inc => negb (ignore inc) | None => false end
  || match exclude with Some exc => ignore exc | None => false end.

End objcli.

(** The package [slices]: first index of a value (or -1), and removal of the
    elements [s[i:j]]. *)
Module slices.

Fixpoint Index (s : list string) (v : string) : Z :=
  match s with
  | [] => (-1)%Z
  | x :: s' =>
      if bool_decide (x = v) then 0%Z
      else let i := Index s' v in if (i <? 0)%Z then (-1)%Z else (i + 1)%Z
  end.

Definition Delete (s : list string) (i j : nat) : list string :=
  take i s ++ drop j s.

End slices.

(** [s[lo:hi]] *)
Definition slice {A : Type} (s : list A) (lo hi : nat) : list A :=
  take (hi - lo) (drop lo s).

(** A list cut into consecutive runs of [n] elements, the last one possibly
    shorter; the fuel bounds the number of runs. *)
Fixpoint chunksFuel {A : Type} (fuel n : nat) (l : list A) : list (list A) :=
  match l, fuel with
  | [], _ => []
  | _, O => [l]
  | _, S fuel' => take n l :: chunksFuel fuel' n (drop n l)
  end.

Definition chunks {A : Type} (n : nat) (l : list A) : list (list A) :=
  chunksFuel (length l) n l.

(** ** Package [objgcp]: the Google Storage client *)

Module objgcp.

Import objval objerr.

(** MaxComposable is the hard limit imposed by Google Storage on the
    number of objects which can be composed into one. *)
Definition MaxComposable : nat := 32.

(** *** The service behind [serviceAPI]

    The client reaches the provider only through the [serviceAPI]
    interface. The service below keeps the objects of every bucket,
    answers each request from them unless a failure is injected for that
    request, and records the requests it receives with their outcome. It
    also holds the source of [uuid.NewString], the lines [cleanup] writes
    with [log.Errorf] and the scheduler of the goroutines of the worker
    pool: [schedule s n] is its choice once the service has answered [n]
    requests. *)

Inductive request : Type :=
| ReqAttrs (bucket key : string)
| ReqWrite (bucket key : string) (body : bytes)
| ReqDelete (bucket key : string)
| ReqCopy (bucket dst src : string)
| ReqCompose (bucket dst : string) (srcs : list string)
| ReqObjects (bucket prefix delimiter : string).

Record service : Type := {
  objects : gmap (string * string) bytes;
  faults : request -> option cause;
  entropy : nat -> string;
  drawn : nat;
  events : list (request * option cause);
  logged : list (list string * error);
  schedule : nat -> nat * nat
}.

Definition withObjects (m : gmap (string * string) bytes) (s : service) : service :=
  {| objects := m; faults := faults s; entropy := entropy s; drawn := drawn s;
     events := events s; logged := logged s; schedule := schedule s |}.

Definition record (r : request) (res : option cause) (s : service) : service :=
  {| objects := objects s; faults := faults s; entropy := entropy s; drawn := drawn s;
     events := events s ++ [(r, res)]; logged := logged s; schedule := schedule s |}.

(** A request: an injected failure or a failure of the operation itself
    leaves the objects as they are. *)
Definition perform (r : request)
    (sem : gmap (string * string) bytes -> cause + gmap (string * string) bytes)
    : M service (option cause) :=
  fun s =>
    match faults s r with
    | Some c => Ret (Some c, record r (Some c) s)
    | None =>
        match sem (objects s) with
        | inl c => Ret (Some c, record r (Some c) s)
        | inr m => Ret (None, record r None (withObjects m s))
        end
    end.

(** The concatenation of the named objects, when all of them exist. *)
Fixpoint gather (m : gmap (string * string) bytes) (bucket : string)
    (srcs : list string) : option bytes :=
  match srcs with
  | [] => Some []
  | k :: ks =>
      match m !! (bucket, k), gather m bucket ks with
      | Some d, Some ds => Some (d ++ ds)
      | _, _ => None
      end
  end.

(** [Object(key).Attrs]: the size of the object. *)
Definition svcAttrs (bucket key : string) : M service (option Z * option cause) :=
  fun s =>
    let r := ReqAttrs bucket key in
    match faults s r with
    | Some c => Ret ((None, Some c), record r (Some c) s)
    | None =>
        match objects s !! (bucket, key) with
        | None => Ret ((None, Some ErrObjectNotExist), record r (Some ErrObjectNotExist) s)
        | Some d => Ret ((Some (Z.of_nat (length d)), None), record r None s)
        end
    end.

(** [Object(key).NewWriter], written and closed. *)
Definition svcWrite (bucket key : string) (body : bytes) : M service (option cause) :=
  perform (ReqWrite bucket key body) (fun m => inr (<[(bucket, key) := body]> m)).

(** [Object(key).Delete] *)
Definition svcDelete (bucket key : string) : M service (option cause) :=
  perform (ReqDelete bucket key)
    (fun m => match m !! (bucket, key) with
              | None => inl ErrObjectNotExist
              | Some _ => inr (delete (bucket, key) m)
              end).

(** [Object(dst).CopierFrom(src).Run] *)
Definition svcCopy (bucket dst src : string) : M service (option cause) :=
  perform (ReqCopy bucket dst src)
    (fun m => match m !! (bucket, src) with
              | None => inl ErrObjectNotExist
              | Some d => inr (<[(bucket, dst) := d]> m)
              end).

(** [Object(dst).ComposerFrom(srcs...).Run]: between one and
    [MaxComposable] existing sources, read before the destination is
    written. *)
Definition svcCompose (bucket dst : string) (srcs : list string) : M service (option cause) :=
  perform (ReqCompose bucket dst srcs)
    (fun m =>
       if (length srcs =? 0) || (MaxComposable <? length srcs)
       then inl (GoogleAPIError 400)
       else match gather m bucket srcs with
            | None => inl ErrObjectNotExist
            | Some d => inr (<[(bucket, dst) := d]> m)
            end).

(** An entry of a listing ([storage.ObjectAttrs]): an object, or with a
    delimiter the stub of a directory, which has only [Prefix]. *)
Record remoteAttrs : Type := {
  Name : string;
  Prefix : string;
  RemoteSize : Z
}.

#[global] Instance remoteAttrs_eq_dec : EqDecision remoteAttrs.
Proof. solve_decision. Defined.

Definition listEntry (bucket prefix delimiter : string)
    (entry : string * string * bytes) : option remoteAttrs :=
  let '(b, k, d) := entry in
  if bool_decide (b = bucket) && String.prefix prefix k then
    let rest := String.substring (String.length prefix)
                  (String.length k - String.length prefix) k in
    match (if bool_decide (delimiter = "") then None
           else String.index 0 delimiter rest) with
    | Some i =>
        Some {| Name := "";
                Prefix := prefix +:+ String.substring 0 (i + String.length delimiter) rest;
                RemoteSize := 0 |}
    | None => Some {| Name := k; Prefix := ""; RemoteSize := Z.of_nat (length d) |}
    end
  else None.

(** [Bucket(bucket).Objects(query)], drained through [Next]: the entries
    and the error that ended the iteration ([None] is [iterator.Done]). *)
Definition svcObjects (bucket prefix delimiter : string)
    : M service (list remoteAttrs * option cause) :=
  fun s =>
    let r := ReqObjects bucket prefix delimiter in
    match faults s r with
    | Some c => Ret (([], Some c), record r (Some c) s)
    | None =>
        Ret ((remove_dups (omap (listEntry bucket prefix delimiter)
                             (map_to_list (objects s))), None),
             record r None s)
    end.

(** [uuid.NewString] *)
Definition NewString : M service string :=
  fun s =>
    Ret (entropy s (drawn s),
         {| objects := objects s; faults := faults s; entropy := entropy s;
            drawn := S (drawn s); events := events s; logged := logged s;
            schedule := schedule s |}).

(** [log.Errorf] of [cleanup] *)
Definition logCleanupFailure (keys : list string) (err : error) : M service unit :=
  fun s =>
    Ret (tt,
         {| objects := objects s; faults := faults s; entropy := entropy s;
            drawn := drawn s; events := events s;
            logged := logged s ++ [(keys, err)]; schedule := schedule s |}).

(** *** Helpers of the package that are not among the sources *)

(** Modelled from the spec: [handleError] is not among the sources. Every
    provider error is mapped to NotFound, Unauthorized, or a provider
    error that carries the cause; [nil] stays [nil]. *)
Definition handleError (bucket key : string) (err : option cause) : option error :=
  match err with
  | None => None
  | Some ErrObjectNotExist => Some (NotFoundError "key" key)
  | Some ErrBucketNotExist => Some (NotFoundError "bucket" bucket)
  | Some (GoogleAPIError 401) => Some ErrUnauthorized
  | Some (GoogleAPIError 403) => Some ErrUnauthorized
  | Some c => Some (ProviderError c)
  end.

(** Modelled from the spec: [partPrefix] and [partKey] are not among the
    sources. The session identifier and the key give the prefix under
    which the intermediate objects of the session live, and [partKey]
    returns a new key under that prefix. *)
Definition partPrefix (id key : string) : string := key +:+ "-mpu-" +:+ id.

Definition partKey (id key : string) : M service string :=
  let* u := NewString in
  ret (partPrefix id key +:+ "/" +:+ u).

(** Dereference of a pointer that may be nil. *)
Definition deref {A : Type} (p : option A) : M service A :=
  match p with
  | Some a => ret a
  | None => panic
  end.

(** *** The client *)

Definition GetObjectAttrs (bucket key : string)
    : M service (option ObjectAttrs * option error) :=
  let* (remote, err) := svcAttrs bucket key in
  match err with
  | Some c => ret (None, handleError bucket key (Some c))
  | None =>
      let* size := deref remote in
      ret (Some {| Key := key; Size := size |}, None)
  end.

(** The body is in memory: computing the checksums cannot fail, and the
    copy into the writer and its [Close] are the one write request. *)
Definition PutObject (bucket key : string) (body : bytes) : M service (option error) :=
  let* err := svcWrite bucket key body in
  ret (handleError bucket key err).

(** The job of one key: an object that does not exist is not an error. *)
Definition del (bucket key : string) : M service (option error) :=
  let* err := svcDelete bucket key in
  match err with
  | Some c =>
      if bool_decide (c = ErrObjectNotExist) then ret None
      else ret (handleError bucket key (Some c))
  | None => ret None
  end.

(** Modelled from the spec: the worker pool ([hofp.Pool]) is not among the
    sources. It runs the jobs queued on it on its goroutines, accepts no job
    once a job has failed, lets the jobs already queued run, and [Stop]
    waits for them and returns the first error.

    [pool] is the loop of [DeleteObjects] together with the workers:
    [queued] are the keys whose job is queued and has not run, [rest] the
    keys the loop has not reached, [err] the first error of the jobs that
    have run. The scheduler chooses, before each job, how many more keys
    the loop queues (none once a job has failed: [Queue] returns the error
    and the loop breaks) and which of the queued jobs sends its request
    next; a job and the recording of its error are one step. Every order
    the workers can run the queued jobs in is one of these choices,
    whatever the size of the pool and of its buffer. The lines the pool
    itself logs are not kept. One unit of fuel is used by each job. *)
Fixpoint pool (fuel : nat) (bucket : string) (queued rest : list string)
    (err : option error) : M service (option error) :=
  fun s =>
    let '(ahead, next) := schedule s (length (events s)) in
    let n := match err, queued with
             | Some _, _ => 0
             | None, [] => S ahead
             | None, _ :: _ => ahead
             end in
    let queued := queued ++ take n rest in
    let rest := match err with
                | Some _ => []
                | None => drop n rest
                end in
    match queued, fuel with
    | [], _ => Ret (err, s)
    | _ :: _, O => Diverge
    | _ :: _, S fuel' =>
        let i := next mod length queued in
        match queued !! i with
        | None => Panic
        | Some key =>
            (let* e := del bucket key in
             pool fuel' bucket (delete i queued) rest
               (match err with
                | Some _ => err
                | None => e
                end)) s
        end
    end.

(** The pool is stopped when the loop over the keys has ended: there are
    as many jobs as keys at most. *)
Definition DeleteObjects (bucket : string) (keys : list string) : M service (option error) :=
  pool (length keys) bucket [] keys None.

(** The loop of [IterateObjects] over the entries [Next] returns. *)
Fixpoint iterate (include exclude : option (list objcli.Regexp))
    (fn : ObjectAttrs -> M service (option error))
    (entries : list remoteAttrs) (last : option cause) : M service (option error) :=
  match entries with
  | [] =>
      match last with
      | None => ret None
      | Some c => ret (Some (Errorf "failed to get next object" (SDKError c)))
      end
  | remote :: entries' =>
      if objcli.ShouldIgnore (Name remote) include exclude
      then iterate include exclude fn entries' last
      else
        (* If "key" is empty this isn't a directory stub *)
        let attrs :=
          if bool_decide (Prefix remote = "")
          then {| Key := Name remote; Size := RemoteSize remote |}
          else {| Key := Prefix remote; Size := 0 |} in
        let* err := fn attrs in
        match err with
        | Some e => ret (Some e)
        | None => iterate include exclude fn entries' last
        end
  end.

(** [SetAttrSelection] is given four valid attribute names and does not
    fail. *)
Definition IterateObjects (bucket prefix delimiter : string)
    (include exclude : option (list objcli.Regexp))
    (fn : ObjectAttrs -> M service (option error)) : M service (option error) :=
  match include, exclude with
  | Some _, Some _ => ret (Some ErrIncludeAndExcludeAreMutuallyExclusive)
  | _, _ =>
      let* (entries, last) := svcObjects bucket prefix delimiter in
      iterate include exclude fn entries last
  end.

Definition CreateMultipartUpload (bucket key : string) : M service (string * option error) :=
  let* id := NewString in
  ret (id, None).

(** The body is in memory, so [aws.SeekerLen] does not fail. *)
Definition UploadPart (bucket id key : string) (number : Z) (body : bytes)
    : M service (Part * option error) :=
  let size := Z.of_nat (length body) in
  let* intermediate := partKey id key in
  let* err := PutObject bucket intermediate body in
  match err with
  | Some e => ret (zeroPart, Some e)
  | None => ret ({| ID := intermediate; Number := number; PartSize := size |}, None)
  end.

(** NOTE: Google storage does not support byte range copying, therefore,
    only the entire object may be copied. *)
Definition UploadPartCopy (bucket id dst src : string) (number : Z)
    (br : option ByteRange) : M service (Part * option error) :=
  match Valid br false with
  | Some e => ret (zeroPart, Some e)
  | None =>
      let* (attrs, err) := GetObjectAttrs bucket src in
      match err with
      | Some e => ret (zeroPart, Some (Errorf "failed to get object attributes" e))
      | None =>
          let* attrs := deref attrs in
          if match br with
             | Some b => negb ((Start b =? 0)%Z && (End_ b =? Size attrs - 1)%Z)
             | None => false
             end
          then ret (zeroPart, Some ErrUnsupportedOperation)
          else
            let* intermediate := partKey id dst in
            let* err := svcCopy bucket intermediate src in
            match err with
            | Some c => ret (zeroPart, handleError bucket intermediate (Some c))
            | None =>
                ret ({| ID := intermediate; Number := 0; PartSize := Size attrs |}, None)
            end
      end
  end.

(** compose the given parts into a single object. *)
Definition compose (bucket key : string) (parts : list string) : M service (option error) :=
  let* err := svcCompose bucket key parts in
  ret (handleError bucket key err).

(** cleanup attempts to remove the given keys, logging them if we receive
    an error. *)
Definition cleanup (bucket : string) (keys : list string) : M service unit :=
  let* err := DeleteObjects bucket keys in
  match err with
  | None => ret tt
  | Some e => logCleanupFailure keys e
  end.

(** complete recursively composes the object in chunks of 32. The
    recursion is on a list that is not a sub-term of the argument, so the
    function takes fuel: one unit per recursive call. The deferred cleanup
    runs when the call returns, on either path. *)
Fixpoint complete (fuel : nat) (bucket key : string) (parts : list string)
    : M service (option error) :=
  if length parts <=? MaxComposable then compose bucket key parts
  else
    match fuel with
    | O => diverge
    | S fuel' =>
        let* u := NewString in
        let* intermediate := partKey u key in
        let* err := compose bucket intermediate (take MaxComposable parts) in
        let* res :=
          match err with
          | Some e => ret (Some e)
          | None => complete fuel' bucket key (intermediate :: drop MaxComposable parts)
          end in
        cleanup bucket [intermediate] ;;
        ret res
    end.

(** The fuel given to [complete] is the number of parts, which is enough
    for every list. *)
Definition CompleteMultipartUpload (bucket id key : string) (parts : list Part)
    : M service (option error) :=
  let converted := map ID parts in
  let* err := complete (length converted) bucket key converted in
  match err with
  | Some e => ret (Some e)
  | None =>
      (* Object composition may use the source object in the output,
         ensure that we don't delete it by mistake *)
      let idx := slices.Index converted key in
      let converted :=
        if (0 <=? idx)%Z
        then slices.Delete converted (Z.to_nat idx) (Z.to_nat (idx + 1))
        else converted in
      cleanup bucket converted ;;
      ret None
  end.

Definition AppendToObject (bucket key : string) (data : bytes) : M service (option error) :=
  let* (attrs, err) := GetObjectAttrs bucket key in
  (* As defined by the 'Client' interface, if the given object does not
     exist, we create it *)
  let* create :=
    if IsNotFoundError err then ret true
    else (let* a := deref attrs in ret (Size a =? 0)%Z) in
  if create then PutObject bucket key data
  else
    match err with
    | Some e => ret (Some (Errorf "failed to get object attributes" e))
    | None =>
        let* (id, err) := CreateMultipartUpload bucket key in
        match err with
        | Some e => ret (Some (Errorf "failed to start multipart upload" e))
        | None =>
            let* (intermediate, err) := UploadPart bucket id key 2 data in
            match err with
            | Some e => ret (Some (Errorf "failed to upload part" e))
            | None =>
                let* a := deref attrs in
                let part := {| ID := key; Number := 1; PartSize := Size a |} in
                let* err := CompleteMultipartUpload bucket id key [part; intermediate] in
                match err with
                | Some e => ret (Some (Errorf "failed to complete multipart upload" e))
                | None => ret None
                end
            end
        end
    end.

(** [DeleteDirectory] iterates over the objects below the prefix, without
    a delimiter or patterns, and deletes each of them. *)
Definition DeleteDirectory (bucket prefix : string) : M service (option error) :=
  let fn := fun attrs : ObjectAttrs => DeleteObjects bucket [Key attrs] in
  IterateObjects bucket prefix "" None None fn.

Definition AbortMultipartUpload (bucket id key : string) : M service (option error) :=
  DeleteDirectory bucket (partPrefix id key).

End objgcp.

(** ** Package [objaws]: the S3 client *)

Module objaws.

Import objval objerr.

(** *** The service behind [serviceAPI]

    The S3 service keeps the objects and the open multipart uploads. As
    for Google Storage, a failure can be injected for a request; a batch
    delete also answers with one error per key it could not delete. *)

Inductive request : Type :=
| ReqHeadObject (bucket key : string)
| ReqGetObject (bucket key : string) (range : option ByteRange)
| ReqPutObject (bucket key : string) (body : bytes)
| ReqDeleteObjects (bucket : string) (keys : list string) (quiet : bool)
| ReqListObjectsV2 (bucket prefix : string) (page : nat)
| ReqCreateMultipartUpload (bucket key : string)
| ReqUploadPart (bucket key id : string) (number : Z) (body : bytes)
| ReqUploadPartCopy (bucket key id : string) (number : Z) (src : string) (range : ByteRange)
| ReqCompleteMultipartUpload (bucket key id : string) (parts : list (string * Z))
| ReqAbortMultipartUpload (bucket key id : string).

(** [s3.Error]: an entry of the response to a batch delete. *)
Record s3Error : Type := {
  ErrKey : string;
  ErrCode : string;
  ErrMessage : string
}.

(** [s3.Object]: an entry of a listing. *)
Record s3Object : Type := {
  ObjKey : string;
  ObjSize : Z
}.

(** A part of an open upload: number, entity tag, data. *)
Abbreviation uploaded := (Z * string * bytes)%type.

Record service : Type := {
  objects : gmap (string * string) bytes;
  uploads : gmap string (list uploaded);
  faults : request -> option cause;
  (* the error the batch delete reports for a key it cannot delete *)
  keyFaults : string -> string -> option (string * string);
  (* whether a batch delete reports an absent key as NoSuchKey *)
  reportMissing : bool;
  entropy : nat -> string;
  drawn : nat;
  events : list (request * option cause);
  logged : list string
}.

Definition update (m : gmap (string * string) bytes) (u : gmap string (list uploaded))
    (s : service) : service :=
  {| objects := m; uploads := u; faults := faults s; keyFaults := keyFaults s;
     reportMissing := reportMissing s; entropy := entropy s; drawn := drawn s;
     events := events s; logged := logged s |}.

Definition record (r : request) (res : option cause) (s : service) : service :=
  {| objects := objects s; uploads := uploads s; faults := faults s;
     keyFaults := keyFaults s; reportMissing := reportMissing s;
     entropy := entropy s; drawn := drawn s;
     events := events s ++ [(r, res)]; logged := logged s |}.

Definition NewString : M service string :=
  fun s =>
    Ret (entropy s (drawn s),
         {| objects := objects s; uploads := uploads s; faults := faults s;
            keyFaults := keyFaults s; reportMissing := reportMissing s;
            entropy := entropy s; drawn := S (drawn s);
            events := events s; logged := logged s |}).

Definition logErrorf (line : string) : M service unit :=
  fun s =>
    Ret (tt,
         {| objects := objects s; uploads := uploads s; faults := faults s;
            keyFaults := keyFaults s; reportMissing := reportMissing s;
            entropy := entropy s; drawn := drawn s;
            events := events s; logged := logged s ++ [line] |}).

(** A request with a result: an injected failure or a failure of the
    operation itself changes nothing. *)
Definition perform {A : Type} (r : request)
    (sem : service -> cause + (A * gmap (string * string) bytes * gmap string (list uploaded)))
    : M service (option A * option cause) :=
  fun s =>
    match faults s r with
    | Some c => Ret ((None, Some c), record r (Some c) s)
    | None =>
        match sem s with
        | inl c => Ret ((None, Some c), record r (Some c) s)
        | inr (a, m, u) => Ret ((Some a, None), record r None (update m u s))
        end
    end.

Definition NoSuchKey : cause := AWSError "NoSuchKey" "The specified key does not exist.".
Definition NotFound : cause := AWSError "NotFound" "Not Found".
Definition NoSuchUpload : cause := AWSError "NoSuchUpload" "The specified upload does not exist.".
Definition InvalidPart : cause := AWSError "InvalidPart" "One or more of the specified parts could not be found.".
Definition InvalidRange : cause := AWSError "InvalidRange" "The requested range is not satisfiable".

(** The bytes of an inclusive range; an end of zero leaves the range open. *)
Definition ranged (d : bytes) (range : option ByteRange) : bytes :=
  match range with
  | None => d
  | Some br =>
      let rest := drop (Z.to_nat (Start br)) d in
      if (End_ br =? 0)%Z then rest
      else take (Z.to_nat (End_ br - Start br + 1)) rest
  end.

(** [HeadObject]: the content length. *)
Definition svcHeadObject (bucket key : string) : M service (option Z * option cause) :=
  perform (ReqHeadObject bucket key)
    (fun s => match objects s !! (bucket, key) with
              | None => inl NotFound
              | Some d => inr (Z.of_nat (length d), objects s, uploads s)
              end).

(** [GetObject]: the body, whose length is the content length. *)
Definition svcGetObject (bucket key : string) (range : option ByteRange)
    : M service (option bytes * option cause) :=
  perform (ReqGetObject bucket key range)
    (fun s => match objects s !! (bucket, key) with
              | None => inl NoSuchKey
              | Some d => inr (ranged d range, objects s, uploads s)
              end).

Definition svcPutObject (bucket key : string) (body : bytes)
    : M service (option unit * option cause) :=
  perform (ReqPutObject bucket key body)
    (fun s => inr (tt, <[(bucket, key) := body]> (objects s), uploads s)).

(** The batch delete, key by key: the objects left and the errors
    reported. *)
Fixpoint deleteEach (s : service) (bucket : string) (keys : list string)
    (m : gmap (string * string) bytes) : list s3Error * gmap (string * string) bytes :=
  match keys with
  | [] => ([], m)
  | k :: ks =>
      match keyFaults s bucket k with
      | Some (code, message) =>
          let '(errs, m') := deleteEach s bucket ks m in
          ({| ErrKey := k; ErrCode := code; ErrMessage := message |} :: errs, m')
      | None =>
          if reportMissing s && bool_decide (m !! (bucket, k) = None) then
            let '(errs, m') := deleteEach s bucket ks m in
            ({| ErrKey := k; ErrCode := "NoSuchKey";
                ErrMessage := "The specified key does not exist." |} :: errs, m')
          else deleteEach s bucket ks (delete (bucket, k) m)
      end
  end.

(** [DeleteObjects]: in quiet mode the response lists only the errors. *)
Definition svcDeleteObjects (bucket : string) (keys : list string) (quiet : bool)
    : M service (option (list s3Error) * option cause) :=
  perform (ReqDeleteObjects bucket keys quiet)
    (fun s => let '(errs, m) := deleteEach s bucket keys (objects s) in
              inr (errs, m, uploads s)).

Definition svcCreateMultipartUpload (bucket key : string)
    : M service (option string * option cause) :=
  let* id := NewString in
  perform (ReqCreateMultipartUpload bucket key)
    (fun s => inr (id, objects s, <[id := []]> (uploads s))).

Definition putPart (number : Z) (etag : string) (d : bytes) (ps : list uploaded)
    : list uploaded :=
  filter (fun p => p.1.1 ≠ number) ps ++ [(number, etag, d)].

Definition svcUploadPart (bucket key id : string) (number : Z) (body : bytes)
    : M service (option string * option cause) :=
  let* etag := NewString in
  perform (ReqUploadPart bucket key id number body)
    (fun s => match uploads s !! id with
              | None => inl NoSuchUpload
              | Some ps => inr (etag, objects s, <[id := putPart number etag body ps]> (uploads s))
              end).

(** The copy source is looked up in the bucket of the request. *)
Definition svcUploadPartCopy (bucket key id : string) (number : Z) (src : string)
    (range : ByteRange) : M service (option string * option cause) :=
  let* etag := NewString in
  perform (ReqUploadPartCopy bucket key id number src range)
    (fun s => match uploads s !! id, objects s !! (bucket, src) with
              | None, _ => inl NoSuchUpload
              | _, None => inl NoSuchKey
              | Some ps, Some d =>
                  inr (etag, objects s,
                       <[id := putPart number etag (ranged d (Some range)) ps]> (uploads s))
              end).

(** The data of the listed parts, in the order they are listed. *)
Fixpoint assemble (ps : list uploaded) (parts : list (string * Z)) : option bytes :=
  match parts with
  | [] => Some []
  | (etag, number) :: parts' =>
      match list_find (fun p => p.1.1 = number ∧ p.1.2 = etag) ps, assemble ps parts' with
      | Some (_, (_, _, d)), Some ds => Some (d ++ ds)
      | _, _ => None
      end
  end.

Definition svcCompleteMultipartUpload (bucket key id : string) (parts : list (string * Z))
    : M service (option unit * option cause) :=
  perform (ReqCompleteMultipartUpload bucket key id parts)
    (fun s => match uploads s !! id with
              | None => inl NoSuchUpload
              | Some ps =>
                  match assemble ps parts with
                  | None => inl InvalidPart
                  | Some d => inr (tt, <[(bucket, key) := d]> (objects s), delete id (uploads s))
                  end
              end).

Definition svcAbortMultipartUpload (bucket key id : string)
    : M service (option unit * option cause) :=
  perform (ReqAbortMultipartUpload bucket key id)
    (fun s => match uploads s !! id with
              | None => inl NoSuchUpload
              | Some _ => inr (tt, objects s, delete id (uploads s))
              end).

Definition listed (bucket prefix : string) (entry : string * string * bytes)
    : option s3Object :=
  let '(b, k, d) := entry in
  if bool_decide (b = bucket) && String.prefix prefix k
  then Some {| ObjKey := k; ObjSize := Z.of_nat (length d) |}
  else None.

(** *** Helpers of the package that are not among the sources *)

(** Modelled from the spec: [handleError] is not among the sources. Every
    provider error is mapped to NotFound, Unauthorized, or a provider
    error that carries the cause; [nil] stays [nil]. *)
Definition handleError (bucket : string) (key : option string) (err : option cause)
    : option error :=
  match err with
  | None => None
  | Some (AWSError code message) =>
      if bool_decide (code = "NoSuchKey") || bool_decide (code = "NotFound")
      then Some (NotFoundError "key" (default "" key))
      else if bool_decide (code = "NoSuchBucket")
      then Some (NotFoundError "bucket" bucket)
      else if bool_decide (code = "AccessDenied")
      then Some ErrUnauthorized
      else Some (ProviderError (AWSError code message))
  | Some c => Some (ProviderError c)
  end.

(** Modelled from the spec: [isKeyNotFound] is not among the sources; it
    recognizes the "key not found" failure of a batch delete. *)
Definition isKeyNotFound (awsErr : cause) : bool :=
  match awsErr with
  | AWSError code _ => bool_decide (code = "NoSuchKey")
  | _ => false
  end.

Definition deref {A : Type} (p : option A) : M service A :=
  match p with
  | Some a => ret a
  | None => panic
  end.

Section Client.

(** [PageSize] (the keys of one batch delete) and [MinUploadSize] (the
    least size of a part of a multipart upload) are constants declared
    outside the sources; [deleteObjects] documents a page as at most
    1000 keys. *)
Variable PageSize : nat.
Variable MinUploadSize : Z.

(** [ListObjectsV2Pages]: one request per page, the callback run on each
    page until it returns false. Both callbacks of the client assign
    their error to a captured variable and return whether it is nil; the
    function returns the error of the call and that variable. *)
Fixpoint pagesLoop (bucket prefix : string)
    (callback : list s3Object -> M service (option error))
    (pages : list (list s3Object)) (n : nat) : M service (option cause * option error) :=
  match pages with
  | [] => ret (None, None)
  | page :: pages' =>
      let* (_, err) := perform (ReqListObjectsV2 bucket prefix n)
                         (fun s => inr (tt, objects s, uploads s)) in
      match err with
      | Some c => ret (Some c, None)
      | None =>
          let* cbErr := callback page in
          match cbErr with
          | Some e => ret (None, Some e)
          | None => pagesLoop bucket prefix callback pages' (S n)
          end
      end
  end.

Definition svcListObjectsV2Pages (bucket prefix : string)
    (callback : list s3Object -> M service (option error))
    : M service (option cause * option error) :=
  fun s =>
    let entries := omap (listed bucket prefix) (map_to_list (objects s)) in
    let pages := match chunks PageSize entries with [] => [[]] | ps => ps end in
    pagesLoop bucket prefix callback pages 0 s.

(** *** The client *)

Definition GetObject (bucket key : string) (br : option ByteRange)
    : M service (option Object * option error) :=
  match Valid br false with
  | Some e => ret (None, Some e)
  | None =>
      let* (resp, err) := svcGetObject bucket key br in
      match err with
      | Some c => ret (None, handleError bucket (Some key) (Some c))
      | None =>
          let* body := deref resp in
          ret (Some {| Attrs := {| Key := key; Size := Z.of_nat (length body) |};
                       Body := body |}, None)
      end
  end.

Definition GetObjectAttrs (bucket key : string)
    : M service (option ObjectAttrs * option error) :=
  let* (resp, err) := svcHeadObject bucket key in
  match err with
  | Some c => ret (None, handleError bucket (Some key) (Some c))
  | None =>
      let* size := deref resp in
      ret (Some {| Key := key; Size := size |}, None)
  end.

Definition PutObject (bucket key : string) (body : bytes) : M service (option error) :=
  let* (_, err) := svcPutObject bucket key body in
  ret (handleError bucket (Some key) err).

Definition CreateMultipartUpload (bucket key : string) : M service (string * option error) :=
  let* (resp, err) := svcCreateMultipartUpload bucket key in
  match err with
  | Some c => ret ("", handleError bucket (Some key) (Some c))
  | None => let* id := deref resp in ret (id, None)
  end.

Definition UploadPart (bucket id key : string) (number : Z) (body : bytes)
    : M service (Part * option error) :=
  let* (output, err) := svcUploadPart bucket key id number body in
  match err with
  | Some c => ret (zeroPart, handleError bucket (Some key) (Some c))
  | None =>
      let* etag := deref output in
      ret ({| ID := etag; Number := number; PartSize := 0 |}, None)
  end.

Definition UploadPartCopy (bucket id dst src : string) (number : Z)
    (br : option ByteRange) : M service (Part * option error) :=
  match Valid br true with
  | Some e => ret (zeroPart, Some e)
  | None =>
      let* range := deref br in
      let* (output, err) := svcUploadPartCopy bucket dst id number src range in
      match err with
      | Some c => ret (zeroPart, handleError bucket (Some dst) (Some c))
      | None =>
          let* etag := deref output in
          ret ({| ID := etag; Number := number; PartSize := 0 |}, None)
      end
  end.

Definition CompleteMultipartUpload (bucket id key : string) (parts : list Part)
    : M service (option error) :=
  let converted := map (fun part => (ID part, Number part)) parts in
  let* (_, err) := svcCompleteMultipartUpload bucket key id converted in
  ret (SDKError <$> err).

Definition AbortMultipartUpload (bucket id key : string) : M service (option error) :=
  let* (_, err) := svcAbortMultipartUpload bucket key id in
  ret (SDKError <$> err).

(** downloadAndAppend downloads an object, and appends the given data to
    it before uploading it back to S3. *)
Definition downloadAndAppend (bucket : string) (attrs : ObjectAttrs) (data : bytes)
    : M service (option error) :=
  let* (object, err) := GetObject bucket (Key attrs) None in
  match err with
  | Some e => ret (Some (Errorf "failed to get object" e))
  | None =>
      let* object := deref object in
      let buffer := Body object ++ data in
      let* err := PutObject bucket (Key attrs) buffer in
      match err with
      | Some e => ret (Some (Errorf "failed to upload updated object" e))
      | None => ret None
      end
  end.

(** copyAndAppend copies all the data from the source object, then
    uploads a new part and completes the multipart upload. *)
Definition copyAndAppend (bucket id : string) (attrs : ObjectAttrs) (data : bytes)
    : M service (option error) :=
  let* (copied, err) :=
    UploadPartCopy bucket id (Key attrs) (Key attrs) 1
      (Some {| Start := 0; End_ := Size attrs - 1 |}) in
  match err with
  | Some e => ret (Some (Errorf "failed to copy source object" e))
  | None =>
      let* (appended, err) := UploadPart bucket id (Key attrs) 2 data in
      match err with
      | Some e => ret (Some (Errorf "failed to upload part" e))
      | None =>
          let* err := CompleteMultipartUpload bucket id (Key attrs) [copied; appended] in
          match err with
          | Some e => ret (Some (Errorf "failed to complete multipart upload" e))
          | None => ret None
          end
      end
  end.

(** createMPUThenCopyAndAppend creates a multipart upload, then kicks off
    the copy and append operation. *)
Definition createMPUThenCopyAndAppend (bucket : string) (attrs : ObjectAttrs)
    (data : bytes) : M service (option error) :=
  let* (id, err) := CreateMultipartUpload bucket (Key attrs) in
  match err with
  | Some e => ret (Some (Errorf "failed to create multipart upload" e))
  | None =>
      let* err := copyAndAppend bucket id attrs data in
      match err with
      | None => ret None
      | Some e =>
          let* abortErr := AbortMultipartUpload bucket id (Key attrs) in
          match abortErr with
          | Some _ =>
              logErrorf "(Objaws) Failed to abort multipart upload, it should be aborted manually"
          | None => ret tt
          end ;;
          ret (Some e)
      end
  end.

Definition AppendToObject (bucket key : string) (data : bytes) : M service (option error) :=
  let* (attrs, err) := GetObjectAttrs bucket key in
  (* As defined by the 'Client' interface, if the given object does not
     exist, we create it *)
  if IsNotFoundError err then PutObject bucket key data
  else
    match err with
    | Some e => ret (Some (Errorf "failed to get object attributes" e))
    | None =>
        let* attrs := deref attrs in
        if (Size attrs <? MinUploadSize)%Z
        then downloadAndAppend bucket attrs data
        else createMPUThenCopyAndAppend bucket attrs data
    end.

(** The first per-key failure of a response that is not "key not
    found". *)
Fixpoint firstFailure (bucket : string) (errs : list s3Error) : option error :=
  match errs with
  | [] => None
  | err :: errs' =>
      let awsErr := AWSError (ErrCode err) (ErrMessage err) in
      if negb (isKeyNotFound awsErr)
      then handleError bucket (Some (ErrKey err)) (Some awsErr)
      else firstFailure bucket errs'
  end.

(** deleteObjects performs a batched delete operation for a single page
    (<=1000) of keys. *)
Definition deleteObjects (bucket : string) (keys : list string) : M service (option error) :=
  let* (resp, err) := svcDeleteObjects bucket keys true in
  match err with
  | Some c => ret (handleError bucket None (Some c))
  | None =>
      let* errs := deref resp in
      ret (firstFailure bucket errs)
  end.

(** [DeleteDirectory]: the callback deletes the keys of each page and
    stops the listing at the first failure. The error it assigns to the
    captured variable is not read again: after the listing the function
    returns the error of the listing, or nil. *)
Definition DeleteDirectory (bucket prefix : string) : M service (option error) :=
  let callback := fun page : list s3Object => deleteObjects bucket (map ObjKey page) in
  let* (apiErr, _) := svcListObjectsV2Pages bucket prefix callback in
  match apiErr with
  | Some c => ret (handleError bucket None (Some c))
  | None => ret None
  end.

(** The loop of [DeleteObjects]; it has no structural argument, so it
    takes fuel: one unit per iteration. *)
Fixpoint deleteLoop (fuel : nat) (bucket : string) (keys : list string)
    (start end_ : nat) : M service (option error) :=
  if start <? length keys then
    match fuel with
    | O => diverge
    | S fuel' =>
        let* err := deleteObjects bucket (slice keys start (Nat.min end_ (length keys))) in
        match err with
        | Some e => ret (Some e)
        | None => deleteLoop fuel' bucket keys (start + PageSize) (end_ + PageSize)
        end
    end
  else ret None.

(** One iteration per key is enough fuel when [PageSize] is positive;
    with a page size of zero the loop does not end. *)
Definition DeleteObjects (bucket : string) (keys : list string) : M service (option error) :=
  deleteLoop (length keys) bucket keys 0 PageSize.

(** iterateObjects iterates over the given page (<=1000) of objects
    executing the given function for each object which has not been
    explicitly ignored by the user. *)
Fixpoint iterateObjects (objs : list s3Object)
    (include exclude : option (list objcli.Regexp))
    (fn : ObjectAttrs -> M service (option error)) : M service (option error) :=
  match objs with
  | [] => ret None
  | object :: objs' =>
      if objcli.ShouldIgnore (ObjKey object) include exclude
      then iterateObjects objs' include exclude fn
      else
        let* err := fn {| Key := ObjKey object; Size := ObjSize object |} in
        match err with
        | Some e => ret (Some e)
        | None => iterateObjects objs' include exclude fn
        end
  end.

Definition IterateObjects (bucket prefix : string)
    (include exclude : option (list objcli.Regexp))
    (fn : ObjectAttrs -> M service (option error)) : M service (option error) :=
  match include, exclude with
  | Some _, Some _ => ret (Some ErrIncludeAndExcludeAreMutuallyExclusive)
  | _, _ =>
      let* (apiErr, err) :=
        svcListObjectsV2Pages bucket prefix
          (fun page => iterateObjects page include exclude fn) in
      match apiErr with
      | Some c => ret (handleError bucket None (Some c))
      | None => ret err
      end
  end.

End Client.

End objaws.

(** ** Package [retry]: running a function until it succeeds *)

Module Retryer.

Import retry.

Local Open Scope Z_scope.

#[local] Unset Elimination Schemes.

(** The errors of the wrapped function and of the context are values of
    [E]; the retryer wraps the last error when it gives up. *)
Inductive error (E : Type) : Type :=
| Inner (e : E)
| RetriesExhaustedError (attempts : Z) (err : option (error E))
| RetriesAbortedError (attempts : Z) (err : option (error E)).

#[local] Set Elimination Schemes.

Arguments Inner {E} e.
Arguments RetriesExhaustedError {E} attempts err.
Arguments RetriesAbortedError {E} attempts err.

Section Do.

Variable round_pow_phi : Z -> Z.

(** The world the function runs in, the payloads ([any], which may be
    nil) and the errors. *)
Variables W P E : Type.

(** The [context.Context] behind the retry context: [Err], and the
    [select] of [sleep] on the timer and on [Done], which answers whether
    the timer fired first. *)
Record Context : Type := {
  Err : W -> option (error E);
  wait : Z -> W -> bool * W
}.

(** The function-valued options; [None] is nil. *)
Record Hooks : Type := {
  ShouldRetry : option (Z -> option P -> option (error E) -> M W bool);
  Log : option (Z -> option P -> option (error E) -> M W unit);
  Cleanup : option (option P -> M W unit)
}.

(** A function which is retryable; it reads the attempt from its
    context. *)
Definition RetryableFunc : Type := Z -> M W (option P * option (error E)).

Variable r : Retryer.
Variable h : Hooks.

(** retry returns a boolean indicating whether the function should be
    executed again. *)
Definition retry (attempt : Z) (payload : option P) (err : option (error E)) : M W bool :=
  match ShouldRetry h with
  | Some shouldRetry => shouldRetry attempt payload err
  | None => ret (match err with Some _ => true | None => false end)
  end.

(** sleep until the next retry attempt, or the given context is
    cancelled. A panic of [duration] is a panic of the call. *)
Definition sleep (ctx : Context) (attempt : Z) : M W (option (error E)) :=
  fun w =>
    match duration round_pow_phi r attempt with
    | None => Panic
    | Some d =>
        let '(fired, w') := wait ctx d w in
        if fired then Ret (None, w')
        else Ret (Some (RetriesAbortedError attempt (Err ctx w')), w')
    end.

(** do executes the given function, returning the payload error and
    whether retries should stop. *)
Definition do (ctx : Context) (attempt : Z) (fn : RetryableFunc)
    : M W (option P * bool * option (error E)) :=
  fun w =>
    match Err ctx w with
    | Some err =>
        Ret ((None, true, Some (RetriesAbortedError (wrap64 (attempt - 1)) (Some err))), w)
    | None =>
        (let* (payload, err) := fn attempt in
         let* again := retry attempt payload err in
         if negb again then ret (payload, true, err)
         else
           (* Run cleanup for all but the last attempt *)
           match Cleanup h with
           | Some cleanup =>
               if attempt <? MaxRetries (options r) then cleanup payload else ret tt
           | None => ret tt
           end ;;
           let* err' := sleep ctx attempt in
           match err' with
           | Some e => ret (None, true, Some e)
           | None => ret (payload, false, err)
           end) w
    end.

(** The loop of [DoWithContext]. It has no structural argument, so it
    takes fuel: one unit per iteration. *)
Fixpoint attempts (fuel : nat) (ctx : Context) (fn : RetryableFunc) (attempt : Z)
    (payload : option P) (err : option (error E))
    : M W (option P * option (error E)) :=
  if attempt <=? MaxRetries (options r) then
    match fuel with
    | O => diverge
    | S fuel' =>
        let* (payload, done, err) := do ctx attempt fn in
        if done then ret (payload, err)
        else
          (* Log all but the last failure *)
          match Log h with
          | Some log =>
              if negb (attempt =? MaxRetries (options r)) then log attempt payload err
              else ret tt
          | None => ret tt
          end ;;
          attempts fuel' ctx fn (wrap64 (attempt + 1)) payload err
    end
  else ret (payload, Some (RetriesExhaustedError (MaxRetries (options r)) err)).

(** Modelled from the spec: [NewContext] is not among the sources. The
    first attempt has number 1: [do] counts [attempt - 1] attempts made
    before the current one. One iteration per attempt up to [MaxRetries] is
    the fuel. *)
Definition DoWithContext (ctx : Context) (fn : RetryableFunc)
    : M W (option P * option (error E)) :=
  attempts (Z.to_nat (MaxRetries (options r))) ctx fn 1 None None.

(** [context.Background] is never cancelled and has no [Done] channel:
    the timer of [sleep] always fires, after the world has moved on by the
    delay. *)
Definition Background (elapse : Z -> W -> W) : Context :=
  {| Err := fun _ => None; wait := fun d w => (true, elapse d w) |}.

Definition Do (elapse : Z -> W -> W) (fn : RetryableFunc)
    : M W (option P * option (error E)) :=
  DoWithContext (Background elapse) fn.

End Do.

End Retryer.

(** ** Package [log]: masking and tagging of command line arguments *)

Module log.

(** [strings.HasPrefix(flag, prefix)] for one of the given prefixes. *)
Fixpoint flagMatches (flag : string) (flags : list string) : bool :=
  match flags with
  | [] => false
  | prefix :: flags' =>
      if String.prefix prefix flag then true else flagMatches flag flags'
  end.

(** The loop of [UserTagArguments] from index [i] on. It moves its index
    in its body, so it takes fuel: one unit per iteration. An index out of
    range is a run-time panic. *)
Fixpoint tagLoop (fuel : nat) (flagsToTag : list string) (ret : list string) (i : nat)
    : outcome (list string) :=
  if i <? length ret then
    match fuel with
    | O => Diverge
    | S fuel' =>
        match ret !! i with
        | None => Panic
        | Some arg =>
            if flagMatches arg flagsToTag then
              let i := S i in
              match ret !! i with
              | None => Panic
              | Some value =>
                  tagLoop fuel' flagsToTag (<[i := "<ud>" +:+ value +:+ "</ud>"]> ret) (S i)
              end
            else tagLoop fuel' flagsToTag ret (S i)
        end
    end
  else Ret ret.

(** UserTagArguments returns a new slice with the values for the flags
    given in flagsToTag surrounded by the <ud></ud> tags. *)
Definition UserTagArguments (args flagsToTag : list string) : outcome (list string) :=
  tagLoop (length args) flagsToTag args 0.

(** The loop of [MaskArguments]; the three conditions are evaluated from
    left to right, the later ones only when the earlier ones hold. *)
Fixpoint maskLoop (fuel : nat) (flagsToMask : list string) (ret : list string) (i : nat)
    : outcome (list string) :=
  if i <? length ret then
    match fuel with
    | O => Diverge
    | S fuel' =>
        match ret !! i with
        | None => Panic
        | Some arg =>
            if flagMatches arg flagsToMask && (i + 1 <? length ret) then
              match ret !! (i + 1) with
              | None => Panic
              | Some value =>
                  if negb (String.prefix "-" value) then
                    (* Mask with fix length to avoid revealing any details
                       about the string. *)
                    let i := S i in
                    maskLoop fuel' flagsToMask (<[i := "*****"]> ret) (S i)
                  else maskLoop fuel' flagsToMask ret (S i)
              end
            else maskLoop fuel' flagsToMask ret (S i)
        end
    end
  else Ret ret.

(** MaskArguments returns a new slice with the values of the flags given
    in flagsToMask replaced by a fix number of *. *)
Definition MaskArguments (args flagsToMask : list string) : outcome (list string) :=
  maskLoop (length args) flagsToMask args 0.

End log.
(** ** Lemmas on machine integers *)

Local Open Scope Z_scope.

Lemma wrap64_range (z : Z) : in_int64 (wrap64 z).
Proof.
  unfold in_int64, wrap64, MinInt64, MaxInt64.
  pose proof (Z.mod_pos_bound (z + 2 ^ 63) (2 ^ 64) ltac:(lia)). lia.
Qed.

Lemma wrap64_id (z : Z) : in_int64 z -> wrap64 z = z.
Proof.
  unfold in_int64, wrap64, MinInt64, MaxInt64. intros H.
  rewrite Z.mod_small by lia. lia.
Qed.

Lemma wrap64_multiple (z : Z) : exists k, wrap64 z = z + k * 2 ^ 64.
Proof.
  exists (- ((z + 2 ^ 63) / 2 ^ 64)). unfold wrap64.
  rewrite Z.mod_eq by lia.
  set (q := (z + 2 ^ 63) / 2 ^ 64). clearbody q. lia.
Qed.

Lemma quot_between (a b : Z) :
  0 < b -> Z.min 0 a <= Z.quot a b <= Z.max 0 a.
Proof.
  intros Hb.
  assert (Hpos : forall x, 0 <= x -> 0 <= Z.quot x b <= x).
  { intros x Hx. rewrite Z.quot_div_nonneg by lia.
    split; [apply Z.div_pos; lia|].
    apply Z.div_le_upper_bound; nia. }
  destruct (Z.le_gt_cases 0 a) as [Ha|Ha].
  - specialize (Hpos a Ha). lia.
  - specialize (Hpos (- a) ltac:(lia)).
    rewrite Z.quot_opp_l in Hpos by lia. lia.
Qed.

(** The overflow test of [duration] is exact for a positive delay. *)
Lemma overflow_detected (n m : Z) :
  0 < m <= MaxInt64 ->
  Z.quot (wrap64 (n * m)) m = n -> in_int64 (n * m).
Proof.
  intros Hm Hq.
  destruct (wrap64_multiple (n * m)) as [k Hk].
  pose proof (wrap64_range (n * m)) as Hr.
  pose proof (Z.quot_rem' (wrap64 (n * m)) m) as Hqr.
  assert (Hrem : Z.abs (Z.rem (wrap64 (n * m)) m) < m).
  { pose proof (Z.rem_bound_abs (wrap64 (n * m)) m ltac:(lia)).
    rewrite (Z.abs_eq m) in * by lia. lia. }
  rewrite Hq in Hqr.
  assert (k = 0) by (unfold in_int64, MinInt64, MaxInt64 in *; lia).
  subst k. rewrite Hk in Hr. now rewrite Z.add_0_r in Hr.
Qed.

Section DurationBounds.

Import retry.
Variable round_pow_phi : Z -> Z.

Lemma steps_defined (r : Retryer) (attempt : Z) :
  0 <= attempt -> exists n, steps round_pow_phi r attempt = Some n /\ in_int64 n.
Proof.
  intros Ha. unfold steps.
  destruct (Algorithm (options r)).
  - eexists; split; [reflexivity | apply wrap64_range].
  - destruct (Z.ltb_spec attempt 0); [lia|].
    eexists; split; [reflexivity | apply wrap64_range].
  - eexists; split; [reflexivity | apply wrap64_range].
  - exists 0. split; [reflexivity|]. unfold in_int64, MinInt64, MaxInt64. lia.
Qed.

(** C8: for an attempt number at least 0, any algorithm, and delays with
    0 < MinDelay <= MaxDelay, [duration] returns a delay in
    [MinDelay, MaxDelay]; and when the product of the step count and
    MinDelay does not fit in 64 bits the result is exactly MaxDelay. *)
Theorem duration_within_bounds (r : Retryer) (attempt : Z) :
  0 <= attempt ->
  0 < MinDelay (options r) <= MaxDelay (options r) ->
  MaxDelay (options r) <= MaxInt64 ->
  exists n d,
    steps round_pow_phi r attempt = Some n /\
    duration round_pow_phi r attempt = Some d /\
    MinDelay (options r) <= d <= MaxDelay (options r) /\
    (~ in_int64 (n * MinDelay (options r)) -> d = MaxDelay (options r)).
Proof.
  intros Ha Hd Hmax.
  destruct (steps_defined r attempt Ha) as (n & Hn & Hrange).
  unfold duration. rewrite Hn. unfold div64.
  destruct (Z.eqb_spec (MinDelay (options r)) 0) as [|_]; [lia|].
  set (m := MinDelay (options r)) in *.
  set (dur := wrap64 (n * m)).
  assert (Hq : wrap64 (Z.quot dur m) = Z.quot dur m).
  { apply wrap64_id. pose proof (quot_between dur m ltac:(lia)).
    pose proof (wrap64_range (n * m)). fold dur in H0.
    unfold in_int64, MinInt64, MaxInt64 in *. lia. }
  rewrite Hq.
  destruct (Z.eqb_spec n (Z.quot dur m)) as [Heq|Hne]; cbn [negb].
  - exists n. eexists. split; [reflexivity|]. split; [reflexivity|].
    split.
    + unfold maths.Min, maths.Max.
      repeat match goal with |- context [?a <? ?b] => destruct (Z.ltb_spec a b) end; lia.
    + intros Hov. exfalso. apply Hov.
      apply overflow_detected; [lia | now symmetry].
  - exists n, (MaxDelay (options r)). repeat split; try reflexivity; lia.
Qed.

End DurationBounds.

(** The exact Fibonacci numbers stand for the rounded closed form. *)
Fixpoint fib (k : nat) : Z * Z :=
  match k with
  | O => (0, 1)
  | S k' => let '(a, b) := fib k' in (b, a + b)
  end.

Definition fibN (attempt : Z) : Z := fst (fib (Z.to_nat attempt)).

Definition second : Z := 1000000000.

Definition sample_retryer : retry.Retryer :=
  {| retry.options :=
       {| retry.Algorithm := retry.AlgorithmExponential;
          retry.MaxRetries := 70;
          retry.MinDelay := second;
          retry.MaxDelay := 60 * second |} |}.

Lemma duration_within_bounds_witness :
  exists n d,
    retry.steps fibN sample_retryer 40 = Some n /\
    retry.duration fibN sample_retryer 40 = Some d /\
    second <= d <= 60 * second /\
    (~ in_int64 (n * second) -> d = 60 * second).
Proof.
  apply (duration_within_bounds fibN sample_retryer 40); cbn; unfold second, MaxInt64; lia.
Defined.

Local Close Scope Z_scope.

(** * Properties *)

(** ** The monad *)

Lemma bind_Ret {S A B : Type} (m : M S A) (k : A -> M S B) (s s' : S) (a : A) :
  m s = Ret (a, s') -> bind m k s = k a s'.
Proof. intros H. unfold bind. now rewrite H. Qed.

Lemma bind_Panic {S A B : Type} (m : M S A) (k : A -> M S B) (s : S) :
  m s = Panic -> bind m k s = Panic.
Proof. intros H. unfold bind. now rewrite H. Qed.

Lemma bind_Diverge {S A B : Type} (m : M S A) (k : A -> M S B) (s : S) :
  m s = Diverge -> bind m k s = Diverge.
Proof. intros H. unfold bind. now rewrite H. Qed.

Lemma bind_same {S A B : Type} (m1 m2 : M S A) (k : A -> M S B) (s : S) :
  m1 s = m2 s -> bind m1 k s = bind m2 k s.
Proof. intros H. unfold bind. now rewrite H. Qed.

(** The length of a slice that may be nil. *)
Definition len {A : Type} (s : option (list A)) : nat :=
  match s with
  | None => 0
  | Some l => length l
  end.

(** ** IterateObjects: include and exclude are mutually exclusive *)

(** C6: on either provider, when both the include and the exclude patterns
    are non-empty, IterateObjects returns the mutual-exclusion error and
    leaves the service as it was: no request is recorded, so no listing call
    was made. *)
Theorem IterateObjects_include_and_exclude (PageSize : nat)
    (bucket prefix delimiter : string) (include exclude : option (list objcli.Regexp))
    (fnGCP : objval.ObjectAttrs -> M objgcp.service (option objerr.error))
    (fnAWS : objval.ObjectAttrs -> M objaws.service (option objerr.error))
    (g : objgcp.service) (a : objaws.service) :
  0 < len include -> 0 < len exclude ->
  objgcp.IterateObjects bucket prefix delimiter include exclude fnGCP g
    = Ret (Some objerr.ErrIncludeAndExcludeAreMutuallyExclusive, g)
  /\ objaws.IterateObjects PageSize bucket prefix include exclude fnAWS a
    = Ret (Some objerr.ErrIncludeAndExcludeAreMutuallyExclusive, a).
Proof.
  intros Hi He.
  destruct include as [inc|]; [|inversion Hi].
  destruct exclude as [exc|]; [|inversion He].
  split; reflexivity.
Qed.

(** C10: the guard of IterateObjects tests the two slices for nil: when both
    are present, with any number of patterns and also with none, the
    mutual-exclusion error is returned, on either provider, and no request
    is made. *)
Theorem IterateObjects_guard_is_on_presence (PageSize : nat)
    (bucket prefix delimiter : string) (inc exc : list objcli.Regexp)
    (fnGCP : objval.ObjectAttrs -> M objgcp.service (option objerr.error))
    (fnAWS : objval.ObjectAttrs -> M objaws.service (option objerr.error))
    (g : objgcp.service) (a : objaws.service) :
  (objgcp.IterateObjects bucket prefix delimiter (Some inc) (Some exc) fnGCP g
     = Ret (Some objerr.ErrIncludeAndExcludeAreMutuallyExclusive, g)
   /\ objaws.IterateObjects PageSize bucket prefix (Some inc) (Some exc) fnAWS a
     = Ret (Some objerr.ErrIncludeAndExcludeAreMutuallyExclusive, a))
  /\ (objgcp.IterateObjects bucket prefix delimiter (Some []) (Some []) fnGCP g
     = Ret (Some objerr.ErrIncludeAndExcludeAreMutuallyExclusive, g)
   /\ objaws.IterateObjects PageSize bucket prefix (Some []) (Some []) fnAWS a
     = Ret (Some objerr.ErrIncludeAndExcludeAreMutuallyExclusive, a)).
Proof. repeat split. Qed.

(** ** AppendToObject on Google Storage when the attributes cannot be read *)

(** The attributes request of [GetObjectAttrs], when a failure is injected:
    the client gets no attributes and the normalized error. *)
Lemma GetObjectAttrs_failure (g : objgcp.service) (bucket key : string) (c : objerr.cause) :
  objgcp.faults g (objgcp.ReqAttrs bucket key) = Some c ->
  objgcp.GetObjectAttrs bucket key g
    = Ret ((None, objgcp.handleError bucket key (Some c)),
           objgcp.record (objgcp.ReqAttrs bucket key) (Some c) g).
Proof.
  intros Hf. unfold objgcp.GetObjectAttrs, objgcp.svcAttrs, bind. now rewrite Hf.
Qed.

(** C9 fails on the code: when GetObjectAttrs returns an error that is not
    a NotFound error, the guard of AppendToObject reads [attrs.Size] through
    the nil pointer and the call panics; the wrapped error is never
    returned. *)
Theorem AppendToObject_panics_on_other_error (g : objgcp.service)
    (bucket key : string) (data : bytes) (c : objerr.cause) :
  objgcp.faults g (objgcp.ReqAttrs bucket key) = Some c ->
  objerr.IsNotFoundError (objgcp.handleError bucket key (Some c)) = false ->
  objgcp.GetObjectAttrs bucket key g
    = Ret ((None, objgcp.handleError bucket key (Some c)),
           objgcp.record (objgcp.ReqAttrs bucket key) (Some c) g)
  /\ objgcp.handleError bucket key (Some c) <> None
  /\ objgcp.AppendToObject bucket key data g = Panic.
Proof.
  intros Hf Hnf. split; [now apply GetObjectAttrs_failure|]. split.
  - unfold objgcp.handleError. repeat case_match; congruence.
  - unfold objgcp.AppendToObject.
    rewrite (bind_Ret _ _ _ _ _ (GetObjectAttrs_failure g bucket key c Hf)).
    now rewrite Hnf.
Qed.

(** ** AppendToObject on a missing object *)


Lemma gcp_PutObject_run (g : objgcp.service) (bucket key : string) (data : bytes) :
  objgcp.PutObject bucket key data g =
    match objgcp.faults g (objgcp.ReqWrite bucket key data) with
    | Some c =>
        Ret (objgcp.handleError bucket key (Some c),
             objgcp.record (objgcp.ReqWrite bucket key data) (Some c) g)
    | None =>
        Ret (None,
             objgcp.record (objgcp.ReqWrite bucket key data) None
               (objgcp.withObjects (<[(bucket, key) := data]> (objgcp.objects g)) g))
    end.
Proof.
  unfold objgcp.PutObject, objgcp.svcWrite, objgcp.perform, bind.
  now destruct (objgcp.faults g _).
Qed.

Lemma aws_PutObject_run (a : objaws.service) (bucket key : string) (data : bytes) :
  objaws.PutObject bucket key data a =
    match objaws.faults a (objaws.ReqPutObject bucket key data) with
    | Some c =>
        Ret (objaws.handleError bucket (Some key) (Some c),
             objaws.record (objaws.ReqPutObject bucket key data) (Some c) a)
    | None =>
        Ret (None,
             objaws.record (objaws.ReqPutObject bucket key data) None
               (objaws.update (<[(bucket, key) := data]> (objaws.objects a))
                  (objaws.uploads a) a))
    end.
Proof.
  unfold objaws.PutObject, objaws.svcPutObject, objaws.perform, bind.
  now destruct (objaws.faults a _).
Qed.




(** ** UploadPartCopy on Google Storage *)

(** The range, when given, is the whole of an object of the given size. *)
Definition coversObject (br : option objval.ByteRange) (size : Z) : Prop :=
  match br with
  | None => True
  | Some b => objval.Start b = 0%Z /\ objval.End_ b = (size - 1)%Z
  end.

Lemma gcp_GetObjectAttrs_found (g : objgcp.service) (bucket key : string) (d : bytes) :
  objgcp.objects g !! (bucket, key) = Some d ->
  objgcp.faults g (objgcp.ReqAttrs bucket key) = None ->
  objgcp.GetObjectAttrs bucket key g
    = Ret ((Some {| objval.Key := key; objval.Size := Z.of_nat (length d) |}, None),
           objgcp.record (objgcp.ReqAttrs bucket key) None g).
Proof.
  intros Hd Hf. unfold objgcp.GetObjectAttrs, objgcp.svcAttrs, bind.
  now rewrite Hf, Hd.
Qed.

(** The key [partKey] returns next and the service after it. *)
Definition nextPartKey (g : objgcp.service) (id key : string) : string :=
  objgcp.partPrefix id key +:+ "/" +:+ objgcp.entropy g (objgcp.drawn g).

Definition afterDraw (g : objgcp.service) : objgcp.service :=
  {| objgcp.objects := objgcp.objects g; objgcp.faults := objgcp.faults g;
     objgcp.entropy := objgcp.entropy g; objgcp.drawn := S (objgcp.drawn g);
     objgcp.events := objgcp.events g; objgcp.logged := objgcp.logged g;
     objgcp.schedule := objgcp.schedule g |}.

Lemma partKey_run (g : objgcp.service) (id key : string) :
  objgcp.partKey id key g = Ret (nextPartKey g id key, afterDraw g).
Proof. reflexivity. Qed.

Lemma prefix_app (p s : string) : String.prefix p (p +:+ s) = true.
Proof.
  induction p as [|c p IH]; [now destruct s|].
  change (String c p +:+ s) with (String c (p +:+ s)). cbn.
  destruct (Ascii.ascii_dec c c); [apply IH | congruence].
Qed.

(** C4, as the code has it: given a source object whose attributes are
    returned, (1) a range that fails validation is rejected with the
    validation error before any request; (2) a valid range that does not
    cover the whole object is rejected as an unsupported operation, with
    only the attributes request made, no key generated and no object
    written; (3) no range, or a valid range that covers the whole object,
    copies the object to a new key under the prefix of the session, when the
    copy request succeeds, and returns the part whose ID is that key. *)
Theorem UploadPartCopy_whole_object_only (g : objgcp.service)
    (bucket id dst src : string) (number : Z) (br : option objval.ByteRange) (d : bytes) :
  objgcp.objects g !! (bucket, src) = Some d ->
  objgcp.faults g (objgcp.ReqAttrs bucket src) = None ->
  (forall e, Valid br false = Some e ->
     objgcp.UploadPartCopy bucket id dst src number br g = Ret ((objval.zeroPart, Some e), g))
  /\ (Valid br false = None -> ~ coversObject br (Z.of_nat (length d)) ->
      objgcp.UploadPartCopy bucket id dst src number br g
        = Ret ((objval.zeroPart, Some objerr.ErrUnsupportedOperation),
               objgcp.record (objgcp.ReqAttrs bucket src) None g))
  /\ (Valid br false = None -> coversObject br (Z.of_nat (length d)) ->
      let g1 := afterDraw (objgcp.record (objgcp.ReqAttrs bucket src) None g) in
      let intermediate := nextPartKey g id dst in
      objgcp.faults g (objgcp.ReqCopy bucket intermediate src) = None ->
      String.prefix (objgcp.partPrefix id dst) intermediate = true
      /\ objgcp.UploadPartCopy bucket id dst src number br g
         = Ret (({| objval.ID := intermediate; objval.Number := 0;
                    objval.PartSize := Z.of_nat (length d) |}, None),
                objgcp.record (objgcp.ReqCopy bucket intermediate src) None
                  (objgcp.withObjects (<[(bucket, intermediate) := d]> (objgcp.objects g)) g1))).
Proof.
  intros Hd Hf. unfold objgcp.UploadPartCopy. repeat split.
  - intros e ->. reflexivity.
  - intros -> Hnc.
    rewrite (bind_Ret _ _ _ _ _ (gcp_GetObjectAttrs_found g bucket src d Hd Hf)).
    cbn. destruct br as [b|]; [|now destruct Hnc].
    cbn in *. destruct (Z.eqb_spec (objval.Start b) 0) as [Hs|]; [|reflexivity].
    destruct (Z.eqb_spec (objval.End_ b) (Z.of_nat (length d) - 1)) as [He|]; [|reflexivity].
    now destruct Hnc.
  - apply prefix_app.
  - rewrite H.
    rewrite (bind_Ret _ _ _ _ _ (gcp_GetObjectAttrs_found g bucket src d Hd Hf)).
    cbn.
    assert (Hguard : match br with
                     | Some b => negb ((objval.Start b =? 0)%Z
                                       && (objval.End_ b =? Z.of_nat (length d) - 1)%Z)
                     | None => false
                     end = false).
    { destruct br as [b|]; [|reflexivity]. destruct H0 as [-> ->].
      now rewrite !Z.eqb_refl. }
    rewrite Hguard. unfold bind. rewrite partKey_run.
    unfold objgcp.svcCopy, objgcp.perform. cbn.
    change (nextPartKey (objgcp.record (objgcp.ReqAttrs bucket src) None g) id dst)
      with (nextPartKey g id dst).
    rewrite H1, Hd. reflexivity.
Qed.

(** ** The requests of the Google Storage client *)

Section GcpRuns.

Import objval objerr objgcp.

Lemma withObjects_id (g : service) : withObjects (objects g) g = g.
Proof. now destruct g. Qed.

(** Every request returns, records itself with its outcome, and touches
    nothing but the objects. *)
Lemma perform_run (r : request)
    (sem : gmap (string * string) bytes -> cause + gmap (string * string) bytes)
    (g : service) :
  exists res m, perform r sem g = Ret (res, record r res (withObjects m g)).
Proof.
  unfold perform. destruct (faults g r) as [c|].
  - exists (Some c), (objects g). now rewrite withObjects_id.
  - destruct (sem (objects g)) as [c|m].
    + exists (Some c), (objects g). now rewrite withObjects_id.
    + now exists None, m.
Qed.

Lemma compose_run (bucket key : string) (srcs : list string) (g : service) :
  exists res m,
    compose bucket key srcs g
      = Ret (handleError bucket key res,
             record (ReqCompose bucket key srcs) res (withObjects m g)).
Proof.
  unfold compose, svcCompose.
  destruct (perform_run (ReqCompose bucket key srcs)
              (fun m => if (length srcs =? 0) || (MaxComposable <? length srcs)
                        then inl (GoogleAPIError 400)
                        else match gather m bucket srcs with
                             | Some d => inr (<[(bucket, key):=d]> m)
                             | None => inl ErrObjectNotExist
                             end) g) as (res & m & H).
  exists res, m. now rewrite (bind_Ret _ _ _ _ _ H).
Qed.

Lemma handleError_None (bucket key : string) (res : option cause) :
  handleError bucket key res = None <-> res = None.
Proof.
  split; [|now intros ->].
  unfold handleError. repeat case_match; congruence.
Qed.

(** A delete request failed when it reports anything but a missing
    object. *)
Definition failedDelete (res : option cause) : bool :=
  match res with
  | Some c => negb (bool_decide (c = ErrObjectNotExist))
  | None => false
  end.

Definition delError (bucket key : string) (res : option cause) : option error :=
  if failedDelete res then handleError bucket key res else None.

Lemma delError_None (bucket key : string) (res : option cause) :
  delError bucket key res = None <-> failedDelete res = false.
Proof.
  unfold delError. destruct (failedDelete res) eqn:Hf; [|tauto].
  split; [|discriminate]. intros H%handleError_None. now subst res.
Qed.

Lemma del_run (bucket key : string) (g : service) :
  exists res m,
    del bucket key g
      = Ret (delError bucket key res, record (ReqDelete bucket key) res (withObjects m g)).
Proof.
  unfold del, svcDelete.
  destruct (perform_run (ReqDelete bucket key)
              (fun m => match m !! (bucket, key) with
                        | Some _ => inr (delete (bucket, key) m)
                        | None => inl ErrObjectNotExist
                        end) g) as (res & m & H).
  exists res, m. rewrite (bind_Ret _ _ _ _ _ H).
  unfold delError, failedDelete. destruct res as [c|]; [|reflexivity].
  now destruct (bool_decide (c = ErrObjectNotExist)).
Qed.

(** The events of the two kinds of request the completion makes. *)
Definition deleteEv (bucket : string) (d : string * option cause)
    : request * option cause :=
  (ReqDelete bucket d.1, d.2).

Definition composeEv (bucket : string) (c : string * list string * option cause)
    : request * option cause :=
  (ReqCompose bucket c.1.1 c.1.2, c.2).

Definition failedDeletes (ds : list (string * option cause)) : nat :=
  length (List.filter (fun d => failedDelete d.2) ds).

Lemma failedDeletes_app (ds1 ds2 : list (string * option cause)) :
  failedDeletes (ds1 ++ ds2) = failedDeletes ds1 + failedDeletes ds2.
Proof. unfold failedDeletes. now rewrite List.filter_app, length_app. Qed.

(** The error the pool reports for the jobs [ds], in the order they ran. *)
Fixpoint firstError (bucket : string) (ds : list (string * option cause)) : option error :=
  match ds with
  | [] => None
  | d :: ds' =>
      match delError bucket d.1 d.2 with
      | Some e => Some e
      | None => firstError bucket ds'
      end
  end.

Lemma firstError_None (bucket : string) (ds : list (string * option cause)) :
  firstError bucket ds = None <-> failedDeletes ds = 0.
Proof.
  unfold failedDeletes. induction ds as [|[k res] ds IH]; [easy|]. cbn.
  destruct (delError bucket k res) as [e|] eqn:He.
  - destruct (failedDelete res) eqn:Hf; [easy|].
    apply (proj2 (delError_None bucket k res)) in Hf. congruence.
  - apply delError_None in He. now rewrite He.
Qed.

Lemma firstError_In (bucket : string) (ds : list (string * option cause)) (e : error) :
  firstError bucket ds = Some e ->
  exists k res, In (k, res) ds /\ delError bucket k res = Some e.
Proof.
  induction ds as [|[k res] ds IH]; [discriminate|]. cbn.
  destruct (delError bucket k res) as [e'|] eqn:He.
  - intros [= ->]. exists k, res. split; [now left | exact He].
  - intros (k' & res' & Hin & H)%IH. exists k', res'. split; [now right | exact H].
Qed.

(** One step of the pool: the keys that are queued when the next job
    runs, and the keys left to the loop. *)
Lemma pool_step (fuel : nat) (bucket : string) (queued rest : list string)
    (err : option error) (g : service) :
  exists n,
    let queued' := queued ++ take n rest in
    let rest' := match err with Some _ => [] | None => drop n rest end in
    (err <> None -> n = 0) /\
    (queued' = [] -> err = None -> rest = []) /\
    pool (S fuel) bucket queued rest err g =
      match queued' with
      | [] => Ret (err, g)
      | _ :: _ =>
          match queued' !! ((schedule g (length (events g))).2 mod length queued') with
          | None => Panic
          | Some key =>
              bind (del bucket key)
                (fun e => pool fuel bucket
                            (delete ((schedule g (length (events g))).2 mod length queued') queued')
                            rest' (match err with Some _ => err | None => e end)) g
          end
      end.
Proof.
  cbn [pool]. destruct (schedule g (length (events g))) as [ahead next]. cbn [snd].
  exists (match err, queued with
          | Some _, _ => 0
          | None, [] => S ahead
          | None, _ :: _ => ahead
          end).
  cbn zeta. split; [|split; [|reflexivity]].
  - destruct err; [reflexivity | congruence].
  - intros Hq Herr. subst err. destruct queued; [|discriminate].
    now destruct rest.
Qed.

Lemma pool_done (bucket : string) (err : option error) (fuel : nat) (rest : list string)
    (g : service) :
  (err = None -> rest = []) ->
  pool fuel bucket [] rest err g = Ret (err, g).
Proof.
  intros H. destruct fuel; cbn [pool];
    destruct (schedule g (length (events g))) as [ahead next];
    (destruct err; [reflexivity|]); now rewrite (H eq_refl).
Qed.

(** The pool returns: every queued job runs once, in some order; the keys
    that were queued are the first keys of the loop, all of them when no
    job failed; the error is the first one among the jobs run. *)
Lemma pool_events (bucket : string) (fuel : nat) :
  forall (queued rest : list string) (err : option error) (g : service),
    length queued + length rest <= fuel ->
    exists g' ds,
      pool fuel bucket queued rest err g
        = Ret (match err with Some _ => err | None => firstError bucket ds end, g') /\
      events g' = events g ++ map (deleteEv bucket) ds /\
      faults g' = faults g /\ entropy g' = entropy g /\ drawn g' = drawn g /\
      logged g' = logged g /\
      (exists n, map fst ds ≡ₚ queued ++ take n rest) /\
      (err = None -> firstError bucket ds = None -> map fst ds ≡ₚ queued ++ rest) /\
      (err <> None -> map fst ds ≡ₚ queued).
Proof.
  induction fuel as [|fuel IH]; intros queued rest err g Hlen.
  - destruct queued; [|cbn in Hlen; lia]. destruct rest; [|cbn in Hlen; lia].
    exists g, []. rewrite pool_done by reflexivity. cbn. rewrite app_nil_r.
    split; [now destruct err|]. repeat split; try reflexivity. now exists 0.
  - destruct (pool_step fuel bucket queued rest err g) as (n & Hn & Hempty & ->).
    cbn zeta in Hn, Hempty.
    destruct (queued ++ take n rest) as [|q0 qs] eqn:Hq.
    + apply app_eq_nil in Hq as [-> Htake].
      exists g, []. cbn. rewrite app_nil_r.
      split; [now destruct err|]. repeat split; try reflexivity.
      * now exists 0.
      * intros Herr _. now rewrite (Hempty eq_refl Herr).
    + rewrite <- Hq. set (queued' := queued ++ take n rest) in *.
      set (i := (schedule g (length (events g))).2 mod length queued').
      assert (Hi : i < length queued').
      { apply Nat.mod_upper_bound. rewrite Hq. discriminate. }
      destruct (lookup_lt_is_Some_2 queued' i Hi) as [key Hkey].
      rewrite Hkey.
      destruct (del_run bucket key g) as (res & m & Hdel).
      rewrite (bind_Ret _ _ _ _ _ Hdel).
      set (g1 := record (ReqDelete bucket key) res (withObjects m g)) in *.
      set (rest' := match err with Some _ => [] | None => drop n rest end).
      assert (Hperm : queued' ≡ₚ key :: delete i queued') by now apply delete_Permutation.
      assert (Hlen' : length (delete i queued') + length rest' <= fuel).
      { apply Permutation_length in Hperm. cbn in Hperm.
        assert (length queued' + length rest' <= length queued + length rest); [|lia].
        subst queued' rest'. rewrite length_app, length_take.
        destruct err; [rewrite (Hn ltac:(discriminate)); cbn; lia|].
        rewrite length_drop. lia. }
      destruct (IH (delete i queued') rest'
                  (match err with Some _ => err | None => delError bucket key res end)
                  g1 Hlen')
        as (g' & ds & Hrun & Hev & Hfa & Hen & Hdr & Hlog & [n' Hn'] & Hall & Hsome).
      exists g', ((key, res) :: ds). rewrite Hrun.
      split.
      { destruct err as [e|]; [reflexivity|]. cbn.
        now destruct (delError bucket key res). }
      split; [rewrite Hev; cbn; now rewrite <- app_assoc|].
      repeat split; try assumption.
      * destruct err as [e|].
        -- exists 0. cbn. rewrite Hsome by discriminate.
           rewrite take_0, app_nil_r. rewrite <- Hperm.
           subst queued'. now rewrite (Hn ltac:(discriminate)), take_0, app_nil_r.
        -- exists (n + n'). cbn. rewrite Hn'. subst rest'.
           rewrite <- take_take_drop, app_assoc.
           change (key :: delete i queued' ++ take n' (drop n rest))
             with ((key :: delete i queued') ++ take n' (drop n rest)).
           now rewrite <- Hperm.
      * intros -> Hfirst. cbn in Hfirst. cbn.
        destruct (delError bucket key res) as [e|] eqn:He; [discriminate|].
        rewrite (Hall eq_refl Hfirst). subst rest'.
        change (key :: delete i queued' ++ drop n rest)
          with ((key :: delete i queued') ++ drop n rest).
        rewrite <- Hperm. subst queued'. now rewrite <- app_assoc, take_drop.
      * intros Herr. destruct err as [e|]; [|congruence]. cbn.
        rewrite Hsome by discriminate. rewrite <- Hperm. subst queued'.
        now rewrite (Hn ltac:(discriminate)), take_0, app_nil_r.
Qed.

(** [DeleteObjects] requests some of the first keys, each once, in some
    order, and all the keys when no delete fails; it changes neither the
    log nor the source of identifiers. *)
Lemma DeleteObjects_events (bucket : string) (keys : list string) (g : service) :
  exists g' ds,
    DeleteObjects bucket keys g = Ret (firstError bucket ds, g') /\
    events g' = events g ++ map (deleteEv bucket) ds /\
    faults g' = faults g /\ entropy g' = entropy g /\ drawn g' = drawn g /\
    logged g' = logged g /\
    (exists n, map fst ds ≡ₚ take n keys) /\
    (firstError bucket ds = None -> map fst ds ≡ₚ keys).
Proof.
  destruct (pool_events bucket (length keys) [] keys None g (le_n _))
    as (g' & ds & Hrun & Hev & Hfa & Hen & Hdr & Hlog & Hn & Hall & _).
  exists g', ds. split; [exact Hrun|].
  repeat split; try assumption. now apply Hall.
Qed.

(** A single key is one job: [DeleteObjects] is its delete. *)
Lemma DeleteObjects_one (bucket key : string) (g : service) :
  DeleteObjects bucket [key] g = del bucket key g.
Proof.
  unfold DeleteObjects. cbn [length].
  destruct (pool_step 0 bucket [] [key] None g) as (n & _ & Hempty & ->).
  cbn zeta in *. rewrite app_nil_l in *.
  destruct n as [|n]; [now specialize (Hempty eq_refl eq_refl)|].
  cbn [take]. rewrite take_nil. cbn [length lookup]. rewrite Nat.mod_1_r. cbn.
  destruct (del_run bucket key g) as (res & m & Hdel).
  rewrite (bind_Ret _ _ _ _ _ Hdel), Hdel.
  destruct (schedule _ _) as [ahead next].
  rewrite drop_nil. now destruct (delError bucket key res).
Qed.

(** [cleanup] returns, and logs one line when a delete failed. *)
Lemma cleanup_events (bucket : string) (keys : list string) (g : service) :
  exists g' ds,
    cleanup bucket keys g = Ret (tt, g') /\
    events g' = events g ++ map (deleteEv bucket) ds /\
    faults g' = faults g /\ entropy g' = entropy g /\ drawn g' = drawn g /\
    length (logged g') = length (logged g) + Nat.min 1 (failedDeletes ds) /\
    (exists n, map fst ds ≡ₚ take n keys) /\
    (failedDeletes ds = 0 -> map fst ds ≡ₚ keys).
Proof.
  destruct (DeleteObjects_events bucket keys g)
    as (g' & ds & Hrun & Hev & Hfa & Hen & Hdr & Hlog & Hn & Hall).
  unfold cleanup. rewrite (bind_Ret _ _ _ _ _ Hrun).
  pose proof (firstError_None bucket ds) as Hnone.
  destruct (firstError bucket ds) as [e|].
  - eexists _, ds. split; [reflexivity|]. cbn.
    repeat split; try assumption.
    + rewrite length_app, Hlog. cbn.
      destruct (failedDeletes ds); [pose proof (proj2 Hnone eq_refl); discriminate|].
      cbn. lia.
    + intros H0. apply Hnone in H0. discriminate.
  - exists g', ds. split; [reflexivity|].
    repeat split; try assumption.
    + rewrite Hlog, (proj1 Hnone eq_refl). cbn. lia.
    + intros _. now apply Hall.
Qed.

Lemma MaxComposable_eq : MaxComposable = 32.
Proof. reflexivity. Qed.

(** The intermediate key a level of [complete] generates: two identifiers
    are drawn, one as the session and one by [partKey]. *)
Definition intermediateKey (g : service) (key : string) : string :=
  partPrefix (entropy g (drawn g)) key +:+ "/" +:+ entropy g (S (drawn g)).

Lemma complete_small (fuel : nat) (bucket key : string) (parts : list string) :
  length parts <= MaxComposable ->
  complete fuel bucket key parts = compose bucket key parts.
Proof.
  intros H. destruct fuel; cbn [complete];
    now destruct (Nat.leb_spec (length parts) MaxComposable); [|lia].
Qed.

Lemma complete_step (fuel : nat) (bucket key : string) (parts : list string) (g : service) :
  MaxComposable < length parts ->
  complete (S fuel) bucket key parts g =
    bind (compose bucket (intermediateKey g key) (take MaxComposable parts))
      (fun err =>
         bind (match err with
               | Some e => ret (Some e)
               | None => complete fuel bucket key
                           (intermediateKey g key :: drop MaxComposable parts)
               end)
           (fun res => bind (cleanup bucket [intermediateKey g key]) (fun _ => ret res)))
      (afterDraw (afterDraw g)).
Proof.
  intros H. cbn [complete].
  destruct (Nat.leb_spec (length parts) MaxComposable); [lia|]. reflexivity.
Qed.

(** With enough fuel the result of [complete] does not depend on the
    fuel. *)
Lemma complete_fuel (bucket key : string) (f1 : nat) :
  forall (f2 : nat) (parts : list string) (g : service),
    length parts <= f1 -> length parts <= f2 ->
    complete f1 bucket key parts g = complete f2 bucket key parts g.
Proof.
  induction f1 as [|f1 IH]; intros f2 parts g H1 H2.
  - now rewrite !complete_small by lia.
  - destruct (Nat.le_gt_cases (length parts) MaxComposable) as [Hs|Hl].
    + now rewrite !complete_small by exact Hs.
    + destruct f2 as [|f2]; [lia|].
      rewrite !complete_step by exact Hl.
      destruct (compose bucket (intermediateKey g key) (take MaxComposable parts)
                  (afterDraw (afterDraw g))) as [[[e|] g2]| |] eqn:Hc.
      * now rewrite !(bind_Ret _ _ _ _ _ Hc).
      * rewrite !(bind_Ret _ _ _ _ _ Hc).
        apply bind_same, IH; cbn; rewrite length_drop;
          rewrite MaxComposable_eq in *; lia.
      * now rewrite !(bind_Panic _ _ _ Hc).
      * now rewrite !(bind_Diverge _ _ _ Hc).
Qed.

Lemma string_length_app (s1 s2 : string) :
  String.length (s1 +:+ s2) = String.length s1 + String.length s2.
Proof.
  induction s1 as [|c s1 IH]; [reflexivity|].
  change (String c s1 +:+ s2) with (String c (s1 +:+ s2)). cbn. now rewrite IH.
Qed.

(** A generated key is never the destination key. *)
Lemma partPrefix_longer (id key u : string) : partPrefix id key +:+ "/" +:+ u <> key.
Proof.
  intros H. apply (f_equal String.length) in H.
  unfold partPrefix in H. rewrite !string_length_app in H. cbn in H. lia.
Qed.

Lemma intermediateKey_ne (g : service) (key : string) : intermediateKey g key <> key.
Proof. apply partPrefix_longer. Qed.


Lemma cleanup_one (bucket key : string) (g : service) :
  exists g' res,
    cleanup bucket [key] g = Ret (tt, g') /\
    events g' = events g ++ [(ReqDelete bucket key, res)] /\
    faults g' = faults g /\ entropy g' = entropy g /\ drawn g' = drawn g /\
    length (logged g') = length (logged g) + failedDeletes [(key, res)].
Proof.
  unfold cleanup, bind. rewrite DeleteObjects_one.
  destruct (del_run bucket key g) as (res & m & ->).
  unfold failedDeletes, delError. cbn.
  destruct (failedDelete res) eqn:Hf.
  - destruct (handleError bucket key res) as [e|] eqn:He;
      [|apply handleError_None in He; now subst res].
    eexists _, res. split; [reflexivity|]. cbn.
    repeat split. rewrite length_app, Hf. reflexivity.
  - eexists _, res. split; [reflexivity|]. cbn. repeat split. rewrite Hf. cbn. lia.
Qed.

Definition composed (c : string * list string * option cause) : string := c.1.1.

Definition notKey (key k : string) : bool := negb (bool_decide (k = key)).

(** The requests of [complete], for enough fuel: the merges [cs], in
    order, then the deletions [ds] of the intermediate keys the merges
    wrote, last written first. The error is that of the merges. *)
Lemma complete_events (bucket key : string) (fuel : nat) :
  forall (parts : list string) (g : service),
    length parts <= fuel ->
    exists err g' cs ds,
      complete fuel bucket key parts g = Ret (err, g') /\
      events g' = events g ++ map (composeEv bucket) cs ++ map (deleteEv bucket) ds /\
      faults g' = faults g /\ entropy g' = entropy g /\
      length (logged g') = length (logged g) + failedDeletes ds /\
      map fst ds = rev (List.filter (notKey key) (map composed cs)) /\
      (err = None <-> Forall (fun c => c.2 = None) cs) /\
      (exists c, c ∈ cs /\ err = handleError bucket (composed c) c.2).
Proof.
  induction fuel as [|fuel IH]; intros parts g Hlen.
  - destruct (compose_run bucket key parts g) as (res & m & Hc).
    exists (handleError bucket key res), (record (ReqCompose bucket key parts) res (withObjects m g)),
      [(key, parts, res)], [].
    rewrite complete_small by lia. split; [exact Hc|].
    cbn. unfold notKey. rewrite bool_decide_eq_true_2 by reflexivity. cbn.
    repeat split; try lia.
    + intros H%handleError_None. now constructor.
    + intros H. inversion H; subst. now apply handleError_None.
    + exists (key, parts, res). split; [apply list_elem_of_here | reflexivity].
  - destruct (Nat.le_gt_cases (length parts) MaxComposable) as [Hs|Hl].
    + destruct (compose_run bucket key parts g) as (res & m & Hc).
      exists (handleError bucket key res), (record (ReqCompose bucket key parts) res (withObjects m g)),
        [(key, parts, res)], [].
      rewrite complete_small by lia. split; [exact Hc|].
      cbn. unfold notKey. rewrite bool_decide_eq_true_2 by reflexivity. cbn.
      repeat split; try lia.
      * intros H%handleError_None. now constructor.
      * intros H. inversion H; subst. now apply handleError_None.
      * exists (key, parts, res). split; [apply list_elem_of_here | reflexivity].
    + rewrite complete_step by exact Hl.
      set (I := intermediateKey g key).
      assert (HI : notKey key I = true).
      { unfold notKey. rewrite bool_decide_eq_false_2; [reflexivity|].
        apply intermediateKey_ne. }
      destruct (compose_run bucket I (take MaxComposable parts) (afterDraw (afterDraw g)))
        as (res & m & Hc).
      rewrite (bind_Ret _ _ _ _ _ Hc).
      set (g2 := record (ReqCompose bucket I (take MaxComposable parts)) res
                   (withObjects m (afterDraw (afterDraw g)))) in *.
      destruct res as [c|].
      * (* the merge into the intermediate key failed *)
        assert (exists e, handleError bucket I (Some c) = Some e) as [e He].
        { destruct (handleError bucket I (Some c)) eqn:E; [eauto|].
          now apply handleError_None in E. }
        rewrite He.
        destruct (cleanup_one bucket I g2) as (g3 & r & Hcl & Hev & Hfa & Hen & Hdr & Hlog).
        unfold bind at 1. cbn [ret].
        rewrite (bind_Ret _ _ _ _ _ Hcl).
        exists (Some e), g3, [(I, take MaxComposable parts, Some c)], [(I, r)].
        split; [reflexivity|]. cbn. rewrite HI. cbn.
        repeat split; try assumption.
        -- rewrite Hev. cbn. now rewrite <- app_assoc.
        -- discriminate.
        -- intros H. now inversion H.
        -- exists (I, take MaxComposable parts, Some c).
           split; [apply list_elem_of_here | now rewrite <- He].
      * (* the merge succeeded: recurse on the shorter list *)
        cbn [handleError].
        assert (Hlen' : length (I :: drop MaxComposable parts) <= fuel).
        { cbn. rewrite length_drop. rewrite MaxComposable_eq in *. lia. }
        destruct (IH (I :: drop MaxComposable parts) g2 Hlen')
          as (err & g3 & cs & ds & Hrun & Hev & Hfa & Hen & Hlog & Hds & Herr & Hlast).
        unfold bind at 1. rewrite Hrun.
        destruct (cleanup_one bucket I g3) as (g4 & r & Hcl & Hev4 & Hfa4 & Hen4 & Hdr4 & Hlog4).
        rewrite (bind_Ret _ _ _ _ _ Hcl).
        exists err, g4, ((I, take MaxComposable parts, None) :: cs), (ds ++ [(I, r)]).
        split; [reflexivity|].
        split.
        { rewrite Hev4, Hev. cbn. rewrite map_app. cbn.
          rewrite <- !app_assoc. reflexivity. }
        split; [now rewrite Hfa4, Hfa|]. split; [now rewrite Hen4, Hen|].
        split.
        { rewrite Hlog4, Hlog, failedDeletes_app. cbn. lia. }
        split.
        { rewrite map_app. cbn. rewrite HI. cbn. now rewrite Hds. }
        split.
        { rewrite Herr. split; intros H; [now constructor | now inversion H]. }
        destruct Hlast as (c0 & Hin & Hc0). exists c0.
        split; [now apply list_elem_of_further | exact Hc0].
Qed.

End GcpRuns.

(** ** Removing the destination key from the keys to delete *)

Fixpoint removeFirst (key : string) (l : list string) : list string :=
  match l with
  | [] => []
  | x :: l' => if bool_decide (x = key) then l' else x :: removeFirst key l'
  end.

Definition occurrences (key : string) (l : list string) : nat :=
  length (List.filter (fun k => bool_decide (k = key)) l).

Lemma Index_ge (l : list string) (key : string) : (-1 <= slices.Index l key)%Z.
Proof.
  induction l as [|x l IH]; cbn; [lia|].
  destruct (bool_decide (x = key)); [lia|].
  destruct (Z.ltb_spec (slices.Index l key) 0); lia.
Qed.

(** [slices.Index] followed by [slices.Delete] removes the first occurrence
    only. *)
Lemma Index_Delete (l : list string) (key : string) :
  (if (0 <=? slices.Index l key)%Z
   then slices.Delete l (Z.to_nat (slices.Index l key)) (Z.to_nat (slices.Index l key + 1))
   else l) = removeFirst key l.
Proof.
  induction l as [|x l IH]; [reflexivity|]. cbn [slices.Index removeFirst].
  destruct (bool_decide (x = key)); [reflexivity|].
  pose proof (Index_ge l key) as Hge.
  destruct (Z.ltb_spec (slices.Index l key) 0) as [Hneg|Hpos].
  - cbn. destruct (Z.leb_spec 0 (slices.Index l key)); [lia|]. now rewrite <- IH.
  - destruct (Z.leb_spec 0 (slices.Index l key)) as [_|]; [|lia].
    destruct (Z.leb_spec 0 (slices.Index l key + 1)) as [_|]; [|lia].
    rewrite <- IH. unfold slices.Delete.
    replace (Z.to_nat (slices.Index l key + 1 + 1)) with (S (Z.to_nat (slices.Index l key + 1))) by lia.
    replace (Z.to_nat (slices.Index l key + 1)) with (S (Z.to_nat (slices.Index l key))) by lia.
    reflexivity.
Qed.

Lemma removeFirst_other (key p : string) (l : list string) :
  p <> key -> (In p (removeFirst key l) <-> In p l).
Proof.
  intros Hne. induction l as [|x l IH]; [reflexivity|]. cbn.
  destruct (bool_decide_reflect (x = key)) as [->|Hx].
  - split; [now right | intros [Heq|Hin]; [now subst | assumption]].
  - cbn. now rewrite IH.
Qed.

Lemma occurrences_0 (key : string) (l : list string) :
  occurrences key l = 0 -> ~ In key l.
Proof.
  unfold occurrences. induction l as [|x l IH]; cbn; [tauto|].
  destruct (bool_decide_reflect (x = key)) as [->|Hx]; cbn; [discriminate|].
  intros H [Hin|Hin]; [congruence | now apply IH].
Qed.

Lemma removeFirst_once (key : string) (l : list string) :
  occurrences key l <= 1 -> ~ In key (removeFirst key l).
Proof.
  unfold occurrences. induction l as [|x l IH]; cbn; [tauto|].
  destruct (bool_decide_reflect (x = key)) as [->|Hx]; cbn.
  - intros H. apply occurrences_0. unfold occurrences. lia.
  - intros H [Hin|Hin]; [congruence | now apply IH].
Qed.

Lemma removeFirst_twice (key : string) (l : list string) :
  2 <= occurrences key l -> In key (removeFirst key l).
Proof.
  unfold occurrences. induction l as [|x l IH]; cbn; [lia|].
  destruct (bool_decide_reflect (x = key)) as [->|Hx]; cbn.
  - intros H. destruct (in_dec String.string_dec key l) as [|Hn]; [assumption|].
    exfalso. assert (length (List.filter (fun k => bool_decide (k = key)) l) = 0); [|lia].
    clear -Hn. induction l as [|y l IH]; [reflexivity|]. cbn.
    destruct (bool_decide_reflect (y = key)) as [->|Hy]; [now destruct Hn; left|].
    apply IH. intros Hin. apply Hn. now right.
  - intros H. right. now apply IH.
Qed.

(** ** The requests of CompleteMultipartUpload on Google Storage *)

Section CompleteMultipartUploadEvents.

Import objval objerr objgcp.

(** A delete request that failed, among the recorded requests. *)
Definition failedDeleteEv (ev : request * option cause) : bool :=
  match ev.1 with
  | ReqDelete _ _ => failedDelete ev.2
  | _ => false
  end.

Lemma filter_composeEv (bucket : string) (cs : list (string * list string * option cause)) :
  List.filter failedDeleteEv (map (composeEv bucket) cs) = [].
Proof. induction cs as [|c cs IH]; [reflexivity | exact IH]. Qed.

Lemma filter_deleteEv (bucket : string) (ds : list (string * option cause)) :
  length (List.filter failedDeleteEv (map (deleteEv bucket) ds)) = failedDeletes ds.
Proof.
  unfold failedDeletes. induction ds as [|d ds IH]; [reflexivity|]. cbn.
  unfold failedDeleteEv at 1. cbn. destruct (failedDelete d.2); cbn;
    [f_equal|]; exact IH.
Qed.

Lemma In_composeEv (bucket dst : string) (srcs : list string) (res : option cause)
    (cs : list (string * list string * option cause)) :
  In (ReqCompose bucket dst srcs, res) (map (composeEv bucket) cs) <-> In (dst, srcs, res) cs.
Proof.
  rewrite in_map_iff. split.
  - intros ([[d s] r] & Heq & Hin). unfold composeEv in Heq. cbn in Heq. congruence.
  - intros Hin. now exists (dst, srcs, res).
Qed.

Lemma In_deleteEv (bucket k : string) (res : option cause) (ds : list (string * option cause)) :
  In (ReqDelete bucket k, res) (map (deleteEv bucket) ds) <-> In (k, res) ds.
Proof.
  rewrite in_map_iff. split.
  - intros ([d r] & Heq & Hin). unfold deleteEv in Heq. cbn in Heq. congruence.
  - intros Hin. now exists (k, res).
Qed.

Lemma not_In_compose_deleteEv (bucket dst : string) (srcs : list string) (res : option cause)
    (ds : list (string * option cause)) :
  ~ In (ReqCompose bucket dst srcs, res) (map (deleteEv bucket) ds).
Proof. rewrite in_map_iff. intros ([d r] & Heq & _). discriminate. Qed.

Lemma not_In_delete_composeEv (bucket k : string) (res : option cause)
    (cs : list (string * list string * option cause)) :
  ~ In (ReqDelete bucket k, res) (map (composeEv bucket) cs).
Proof. rewrite in_map_iff. intros ([[d s] r] & Heq & _). discriminate. Qed.

Lemma In_fst {A B : Type} (a : A) (l : list (A * B)) :
  In a (map fst l) <-> exists b, In (a, b) l.
Proof.
  rewrite in_map_iff. split.
  - intros ([a' b] & <- & Hin). now exists b.
  - intros [b Hin]. now exists (a, b).
Qed.

(** The deletions [complete] makes are those of the intermediate keys it
    merged into. *)
Lemma deleted_iff_composed (key k : string)
    (cs : list (string * list string * option cause)) (ds : list (string * option cause)) :
  map fst ds = rev (List.filter (notKey key) (map composed cs)) ->
  (exists res, In (k, res) ds) <-> (k <> key /\ exists srcs res, In (k, srcs, res) cs).
Proof.
  intros Hds. rewrite <- In_fst, Hds, <- in_rev, filter_In, in_map_iff.
  unfold notKey, composed. split.
  - intros (([[d s] r] & Heq & Hin) & Hk). cbn in Heq. subst d.
    split; [|now exists s, r].
    destruct (bool_decide_reflect (k = key)); [discriminate | assumption].
  - intros (Hk & s & r & Hin). split; [now exists (k, s, r)|].
    now rewrite bool_decide_eq_false_2.
Qed.

(** C3, as the code has it. The requests of CompleteMultipartUpload are
    the merges [cs], then the deletions [ds] of the intermediate keys the
    merges wrote, one cleanup for each key, the last written first, then
    the deletions [ps] of the one cleanup of the parts of the caller,
    whose jobs run on the worker pool. The error returned is that of the
    merge steps: it is nil exactly when no merge failed, whatever the
    deletions did. A cleanup with a failed deletion logs one line: one for
    each intermediate key whose deletion failed, and one for the parts
    when the deletion of any of them failed. Every intermediate key a
    merge wrote is requested for deletion, also when a later merge failed.
    The parts of the caller are requested for deletion once all the merges
    have succeeded, and then all of them other than the destination key
    unless a deletion failed; when a merge failed the cleanup of the parts
    makes no request, and only keys written by this call are deleted. A
    destination key listed at most once among the parts is never
    deleted. *)
Theorem CompleteMultipartUpload_cleanup (g : service) (bucket id key : string)
    (parts : list Part) :
  exists err g' cs ds ps evs,
    CompleteMultipartUpload bucket id key parts g = Ret (err, g') /\
    events g' = events g ++ evs /\
    evs = map (composeEv bucket) cs ++ map (deleteEv bucket) ds ++ map (deleteEv bucket) ps /\
    (err = None <-> forall dst srcs c, ~ In (ReqCompose bucket dst srcs, Some c) evs) /\
    map fst ds = rev (List.filter (notKey key) (map composed cs)) /\
    (forall k, In k (map fst ps) -> In k (map ID parts)) /\
    length ps <= length parts /\
    (err <> None -> ps = []) /\
    length (logged g') = length (logged g) + failedDeletes ds + Nat.min 1 (failedDeletes ps) /\
    (forall dst srcs res,
       In (ReqCompose bucket dst srcs, res) evs -> dst <> key ->
       exists res', In (ReqDelete bucket dst, res') evs) /\
    (err = None -> List.filter failedDeleteEv evs = [] ->
     forall p, In p (map ID parts) -> p <> key ->
       exists res, In (ReqDelete bucket p, res) evs) /\
    (err <> None ->
     forall k res, In (ReqDelete bucket k, res) evs ->
       exists srcs res', In (ReqCompose bucket k srcs, res') evs) /\
    (occurrences key (map ID parts) <= 1 ->
     forall res, ~ In (ReqDelete bucket key, res) evs).
Proof.
  unfold CompleteMultipartUpload.
  destruct (complete_events bucket key (length (map ID parts)) (map ID parts) g (le_n _))
    as (err & g1 & cs & ds & Hrun & Hev & Hfa & Hen & Hlog & Hds & Herr & Hlast).
  rewrite (bind_Ret _ _ _ _ _ Hrun).
  assert (Hfailed : forall dst srcs c,
            In (dst, srcs, Some c) cs -> err <> None).
  { intros dst srcs c Hin Hnone. apply Herr in Hnone.
    rewrite Forall_forall in Hnone.
    apply list_elem_of_In, Hnone in Hin. discriminate. }
  (* what the parts of the caller add to the requests of [complete] *)
  assert (Hps : exists g' ps,
            (match err with
             | Some e => ret (Some e)
             | None =>
                 bind (cleanup bucket
                         (if (0 <=? slices.Index (map ID parts) key)%Z
                          then slices.Delete (map ID parts)
                                 (Z.to_nat (slices.Index (map ID parts) key))
                                 (Z.to_nat (slices.Index (map ID parts) key + 1))
                          else map ID parts))
                   (fun _ => ret None)
             end) g1 = Ret (err, g') /\
            events g' = events g1 ++ map (deleteEv bucket) ps /\
            length (logged g') = length (logged g1) + Nat.min 1 (failedDeletes ps) /\
            (exists n, map fst ps ≡ₚ take n (removeFirst key (map ID parts))) /\
            (err <> None -> ps = []) /\
            (err = None -> failedDeletes ps = 0 ->
             map fst ps ≡ₚ removeFirst key (map ID parts))).
  { destruct err as [e|].
    - exists g1, []. cbn. rewrite app_nil_r.
      split; [reflexivity|]. split; [reflexivity|]. split; [lia|].
      split; [now exists 0|]. split; [reflexivity | congruence].
    - rewrite Index_Delete.
      destruct (cleanup_events bucket (removeFirst key (map ID parts)) g1)
        as (g2 & ps & Hcl & Hev2 & _ & _ & _ & Hlog2 & Hn & Hall).
      exists g2, ps. rewrite (bind_Ret _ _ _ _ _ Hcl).
      split; [reflexivity|]. split; [exact Hev2|]. split; [exact Hlog2|].
      split; [exact Hn|]. split; [congruence|]. intros _. exact Hall. }
  destruct Hps as (g' & ps & Hrun' & Hev' & Hlog' & [n Hn] & Hnops & Hall).
  assert (Hsub : forall k, In k (map fst ps) -> In k (removeFirst key (map ID parts))).
  { intros k Hk. apply (Permutation_in _ Hn) in Hk.
    rewrite <- (take_drop n (removeFirst key (map ID parts))).
    apply in_or_app. now left. }
  assert (HinParts : forall k, In k (removeFirst key (map ID parts)) -> In k (map ID parts)).
  { intros k. generalize (map ID parts). intros l. induction l as [|x l IH]; [easy|]. cbn.
    destruct (bool_decide (x = key)); [now right|].
    intros [Hx|Hk]; [now left | right; now apply IH]. }
  assert (HlenRemove : length (removeFirst key (map ID parts)) <= length parts).
  { rewrite <- (length_map ID parts). generalize (map ID parts). intros l.
    induction l as [|x l IH]; [easy|]. cbn.
    destruct (bool_decide (x = key)); cbn; lia. }
  exists err, g', cs, ds, ps,
    (map (composeEv bucket) cs ++ map (deleteEv bucket) ds ++ map (deleteEv bucket) ps).
  split; [exact Hrun'|].
  split; [rewrite Hev', Hev, <- !app_assoc; reflexivity|].
  split; [reflexivity|].
  split.
  { split.
    - intros Hnone dst srcs c [Hin|[Hin|Hin]%in_app_or]%in_app_or.
      + apply In_composeEv in Hin. now apply (Hfailed dst srcs c Hin).
      + now apply not_In_compose_deleteEv in Hin.
      + now apply not_In_compose_deleteEv in Hin.
    - intros Hno. destruct err as [e|]; [exfalso | reflexivity].
      destruct Hlast as ([[dst srcs] [c|]] & Hin & Hc); cbn in Hc; [|discriminate].
      apply (Hno dst srcs c), in_or_app. left.
      now apply In_composeEv, list_elem_of_In. }
  split; [exact Hds|].
  split; [intros k Hk; now apply HinParts, Hsub|].
  split.
  { apply Permutation_length in Hn. rewrite length_map, length_take in Hn. lia. }
  split; [exact Hnops|].
  split; [rewrite Hlog', Hlog; lia|].
  split.
  { intros dst srcs res [Hin|[Hin|Hin]%in_app_or]%in_app_or Hne;
      [|now apply not_In_compose_deleteEv in Hin ..].
    apply In_composeEv in Hin.
    destruct (proj2 (deleted_iff_composed key dst cs ds Hds)) as [res' Hres'];
      [split; [assumption | now exists srcs, res]|].
    exists res'. apply in_or_app. right. apply in_or_app. left.
    now apply In_deleteEv. }
  split.
  { intros Hnone Hnofail p Hp Hne.
    assert (Hzero : failedDeletes ps = 0).
    { rewrite !List.filter_app in Hnofail.
      apply (f_equal (@length _)) in Hnofail.
      rewrite !length_app, !filter_deleteEv in Hnofail. cbn in Hnofail. lia. }
    assert (Hin : In p (map fst ps)).
    { apply (Permutation_in _ (Permutation_sym (Hall Hnone Hzero))).
      now apply removeFirst_other. }
    apply In_fst in Hin as [res Hin]. exists res.
    apply in_or_app. right. apply in_or_app. right. now apply In_deleteEv. }
  split.
  { intros Hsome k res Hin. rewrite (Hnops Hsome) in Hin. cbn in Hin.
    rewrite app_nil_r in Hin. apply in_app_or in Hin as [Hin|Hin];
      [now apply not_In_delete_composeEv in Hin|].
    apply In_deleteEv in Hin.
    destruct (proj1 (deleted_iff_composed key k cs ds Hds)) as (_ & srcs & res' & Hc);
      [now exists res|].
    exists srcs, res'. apply in_or_app. left. now apply In_composeEv. }
  intros Honce res [Hin|[Hin|Hin]%in_app_or]%in_app_or.
  - now apply not_In_delete_composeEv in Hin.
  - apply In_deleteEv in Hin.
    destruct (proj1 (deleted_iff_composed key key cs ds Hds)) as (Hne & _);
      [now exists res | now apply Hne].
  - apply In_deleteEv in Hin.
    apply (removeFirst_once key (map ID parts) Honce), Hsub, In_fst.
    now exists res.
Qed.

(** C7: [complete] returns for every list of parts when its fuel is at
    least their number, one unit being used by each recursive call, so the
    depth of the recursion is at most the length of the list, and more fuel
    changes nothing; and when more than MaxComposable parts remain, the list
    of the recursive call, the intermediate key followed by the parts after
    the first MaxComposable, is strictly shorter. *)
Theorem complete_terminates (fuel : nat) (bucket key : string) (parts : list string)
    (g : service) :
  length parts <= fuel ->
  (exists err g',
     complete fuel bucket key parts g = Ret (err, g')
     /\ complete (length parts) bucket key parts g = Ret (err, g'))
  /\ (MaxComposable < length parts ->
      forall intermediate : string,
        length (intermediate :: drop MaxComposable parts) < length parts).
Proof.
  intros Hlen. split.
  - destruct (complete_events bucket key fuel parts g Hlen) as (err & g' & _ & _ & Hrun & _).
    exists err, g'. split; [exact Hrun|].
    now rewrite (complete_fuel bucket key (length parts) fuel parts g) by lia.
  - intros Hl intermediate. cbn. rewrite length_drop, MaxComposable_eq in *. lia.
Qed.

End CompleteMultipartUploadEvents.

(** ** Cutting a list into batches *)

Lemma chunksFuel_enough {A : Type} (n : nat) :
  0 < n -> forall (f1 f2 : nat) (l : list A),
    length l <= f1 -> length l <= f2 -> chunksFuel f1 n l = chunksFuel f2 n l.
Proof.
  intros Hn. induction f1 as [|f1 IH]; intros f2 l H1 H2.
  - destruct l; [now destruct f2 | cbn in H1; lia].
  - destruct l as [|x l]; [now destruct f2|].
    destruct f2 as [|f2]; [cbn in H2; lia|].
    cbn [chunksFuel]. f_equal. apply IH; rewrite length_drop; cbn in *; lia.
Qed.

Lemma chunks_cons {A : Type} (n : nat) (l : list A) :
  0 < n -> l <> [] -> chunks n l = take n l :: chunks n (drop n l).
Proof.
  intros Hn Hl. unfold chunks. destruct l as [|x l]; [congruence|].
  cbn [length chunksFuel]. f_equal.
  apply chunksFuel_enough; [assumption | rewrite length_drop; cbn; lia | lia].
Qed.

(** The batches are the list, in order, each with between one and [n]
    elements. *)
Lemma chunks_spec {A : Type} (n : nat) (l : list A) :
  0 < n ->
  concat (chunks n l) = l /\ Forall (fun b => 0 < length b <= n) (chunks n l).
Proof.
  intros Hn. remember (length l) as k eqn:Hk.
  revert l Hk. induction k as [k IH] using lt_wf_ind. intros l Hk.
  destruct l as [|x l]; [split; [reflexivity | constructor]|].
  rewrite chunks_cons by (assumption || discriminate).
  destruct (IH (length (drop n (x :: l)))) with (l := drop n (x :: l)) as [Hc Hf];
    [rewrite length_drop; subst k; cbn; lia | reflexivity |].
  split.
  - cbn [concat]. rewrite Hc. apply take_drop.
  - constructor; [|exact Hf]. rewrite length_take. cbn [length]. lia.
Qed.

(** ** DeleteObjects on S3 *)

Section AwsDelete.

Import objval objerr objaws.

Variable PageSize : nat.
Hypothesis PageSize_pos : 0 < PageSize.

(** The batches, deleted one after the other up to the first error. *)
Fixpoint deleteBatches (bucket : string) (batches : list (list string))
    : M service (option error) :=
  match batches with
  | [] => ret None
  | b :: bs =>
      bind (deleteObjects bucket b)
        (fun err => match err with
                    | Some e => ret (Some e)
                    | None => deleteBatches bucket bs
                    end)
  end.

Lemma slice_take (keys : list string) (start : nat) :
  slice keys start (Nat.min (start + PageSize) (length keys))
    = take PageSize (drop start keys).
Proof.
  unfold slice.
  destruct (Nat.le_gt_cases (start + PageSize) (length keys)) as [Hle|Hgt].
  - f_equal. lia.
  - rewrite Nat.min_r by lia.
    rewrite !take_ge; [reflexivity | | ]; rewrite length_drop; lia.
Qed.

(** The loop of [DeleteObjects] sends the batches of [chunks]. *)
Lemma deleteLoop_batches (bucket : string) (keys : list string) (fuel : nat) :
  forall (start : nat) (a : service),
    length keys - start <= fuel ->
    deleteLoop PageSize fuel bucket keys start (start + PageSize) a
      = deleteBatches bucket (chunks PageSize (drop start keys)) a.
Proof.
  induction fuel as [|fuel IH]; intros start a Hfuel.
  - cbn [deleteLoop]. destruct (Nat.ltb_spec start (length keys)); [lia|].
    now rewrite drop_ge by lia.
  - cbn [deleteLoop]. destruct (Nat.ltb_spec start (length keys)) as [Hlt|Hge].
    + rewrite chunks_cons; [|assumption|].
      2:{ intros Hnil. apply (f_equal (@length _)) in Hnil.
          rewrite length_drop in Hnil. cbn in Hnil. lia. }
      cbn [deleteBatches]. rewrite slice_take, drop_drop.
      unfold bind. destruct (deleteObjects bucket _ a) as [[[e|] a']| |]; try reflexivity.
      apply IH. lia.
    + now rewrite drop_ge by lia.
Qed.

(** A batch fails when the request fails as a whole, or the response
    reports, for one of its keys, a failure other than key-not-found. *)
Definition keyFails (a : service) (bucket key : string) : Prop :=
  exists code message,
    keyFaults a bucket key = Some (code, message)
    /\ isKeyNotFound (AWSError code message) = false.

Definition batchFails (a : service) (bucket : string) (batch : list string) : Prop :=
  faults a (ReqDeleteObjects bucket batch true) <> None
  \/ exists key, In key batch /\ keyFails a bucket key.

Lemma handleError_Some (bucket : string) (key : option string) (c : cause) :
  handleError bucket key (Some c) <> None.
Proof. unfold handleError. repeat case_match; congruence. Qed.

Lemma firstFailure_deleteEach (a : service) (bucket : string) (keys : list string) :
  forall m : gmap (string * string) bytes,
    firstFailure bucket (deleteEach a bucket keys m).1 <> None
    <-> exists key, In key keys /\ keyFails a bucket key.
Proof.
  induction keys as [|k keys IH]; intros m.
  - cbn. split; [congruence | now intros (? & [] & _)].
  - cbn [deleteEach]. destruct (keyFaults a bucket k) as [[code message]|] eqn:Hk.
    + specialize (IH m). destruct (deleteEach a bucket keys m) as [errs m'] eqn:Hd.
      cbn [fst firstFailure ErrCode ErrMessage ErrKey] in *.
      destruct (isKeyNotFound (AWSError code message)) eqn:Hnf; cbn [negb].
      * rewrite IH. split.
        -- intros (key & Hin & Hf). exists key. split; [now right | assumption].
        -- intros (key & [<-|Hin] & Hf); [|now exists key].
           destruct Hf as (c' & m'' & Hk' & Hnf'). congruence.
      * split; [|intros _; apply handleError_Some].
        intros _. exists k. split; [now left|]. now exists code, message.
    + assert (Hskip : forall key, In key (k :: keys) /\ keyFails a bucket key
                        <-> In key keys /\ keyFails a bucket key).
      { intros key. split; [|intros [? ?]; split; [now right | assumption]].
        intros [[<-|Hin] Hf]; [|now split].
        destruct Hf as (c' & m'' & Hk' & _). congruence. }
      destruct (reportMissing a && bool_decide (m !! (bucket, k) = None)).
      * specialize (IH m). destruct (deleteEach a bucket keys m) as [errs m'] eqn:Hd.
        cbn [fst firstFailure ErrCode ErrMessage ErrKey isKeyNotFound negb] in *.
        rewrite bool_decide_eq_true_2 by reflexivity. cbn [negb].
        rewrite IH. split; intros (key & H); exists key; now apply Hskip.
      * rewrite IH. split; intros (key & H); exists key; now apply Hskip.
Qed.

(** One batch: one quiet request; an error exactly when the batch
    fails. *)
Lemma deleteObjects_run (bucket : string) (batch : list string) (a : service) :
  exists err a' res,
    deleteObjects bucket batch a = Ret (err, a') /\
    events a' = events a ++ [(ReqDeleteObjects bucket batch true, res)] /\
    faults a' = faults a /\ keyFaults a' = keyFaults a /\
    (err <> None <-> batchFails a bucket batch).
Proof.
  unfold deleteObjects, svcDeleteObjects, perform, bind, batchFails.
  destruct (faults a (ReqDeleteObjects bucket batch true)) as [c|] eqn:Hf.
  - eexists _, _, (Some c). split; [reflexivity|]. repeat split.
    + intros _. now left.
    + intros _. apply handleError_Some.
  - pose proof (firstFailure_deleteEach a bucket batch (objects a)) as Hff.
    destruct (deleteEach a bucket batch (objects a)) as [errs m].
    eexists _, _, None. split; [reflexivity|]. repeat split.
    + intros H. right. now apply Hff.
    + intros [H|H]; [congruence | now apply Hff].
Qed.

Lemma batchFails_same (a a' : service) (bucket : string) (batch : list string) :
  faults a' = faults a -> keyFaults a' = keyFaults a ->
  batchFails a' bucket batch <-> batchFails a bucket batch.
Proof. intros Hf Hk. unfold batchFails, keyFails. now rewrite Hf, Hk. Qed.

Definition batchRequest (bucket : string) (batch : list string) : request :=
  ReqDeleteObjects bucket batch true.

Lemma deleteBatches_run (bucket : string) (batches : list (list string)) :
  forall a : service,
    exists err a' evs n,
      deleteBatches bucket batches a = Ret (err, a') /\
      events a' = events a ++ evs /\
      map fst evs = map (batchRequest bucket) (take n batches) /\
      (err = None -> n = length batches) /\
      faults a' = faults a /\ keyFaults a' = keyFaults a /\
      (err <> None <-> Exists (batchFails a bucket) batches).
Proof.
  induction batches as [|b bs IH]; intros a.
  - exists None, a, [], 0. cbn. rewrite app_nil_r. repeat split; try congruence.
    intros H. inversion H.
  - cbn [deleteBatches].
    destruct (deleteObjects_run bucket b a) as (err & a1 & res & Hrun & Hev & Hfa & Hkf & Herr).
    rewrite (bind_Ret _ _ _ _ _ Hrun).
    destruct err as [e|].
    + exists (Some e), a1, [(ReqDeleteObjects bucket b true, res)], 1.
      cbn. rewrite take_0. repeat split; try assumption; try congruence.
      intros _. constructor. now apply Herr.
    + destruct (IH a1) as (err & a2 & evs & n & Hrun2 & Hev2 & Hreq & Hn & Hfa2 & Hkf2 & Herr2).
      exists err, a2, ((ReqDeleteObjects bucket b true, res) :: evs), (S n).
      split; [exact Hrun2|].
      split; [rewrite Hev2, Hev, <- app_assoc; reflexivity|].
      split; [cbn; now rewrite Hreq|].
      split; [intros H; cbn; now rewrite (Hn H)|].
      split; [congruence|]. split; [congruence|].
      rewrite Herr2. split.
      * intros H. apply Exists_cons_tl.
        eapply Exists_impl; [exact H|]. intros x Hx.
        now apply (batchFails_same a a1).
      * intros H. inversion H as [? ? Hb|? ? Hbs]; subst.
        -- exfalso. apply Herr in Hb. congruence.
        -- eapply Exists_impl; [exact Hbs|]. intros x Hx.
           now apply (batchFails_same a a1).
Qed.

(** When the provider fails no key, a batch delete leaves none of its
    keys, and creates nothing. *)
Lemma deleteEach_absent (a : service) (bucket : string) (keys : list string) :
  (forall k, keyFaults a bucket k = None) ->
  forall m : gmap (string * string) bytes,
    (forall k, In k keys -> (deleteEach a bucket keys m).2 !! (bucket, k) = None) /\
    (forall x, m !! x = None -> (deleteEach a bucket keys m).2 !! x = None).
Proof.
  intros Hnk. induction keys as [|k keys IH]; intros m.
  - cbn. split; [now intros ? []|auto].
  - cbn [deleteEach]. rewrite Hnk.
    destruct (reportMissing a && bool_decide (m !! (bucket, k) = None)) eqn:Hrep.
    + destruct (IH m) as (Hin & Hmono).
      destruct (deleteEach a bucket keys m) as [errs m'] eqn:Hd. cbn [fst snd] in *.
      split; [|exact Hmono].
      intros k' [<-|Hk']; [|now apply Hin].
      apply Hmono. apply andb_prop in Hrep as [_ Habs].
      now apply bool_decide_eq_true in Habs.
    + destruct (IH (delete (bucket, k) m)) as (Hin & Hmono).
      split.
      * intros k' [<-|Hk']; [|now apply Hin].
        apply Hmono, lookup_delete_eq.
      * intros x Hx. apply Hmono.
        destruct (decide ((bucket, k) = x)) as [<-|Hne];
          [apply lookup_delete_eq | now rewrite lookup_delete_ne].
Qed.

Definition awsHealthy (a : service) (bucket : string) : Prop :=
  (forall r, faults a r = None) /\ (forall k, keyFaults a bucket k = None).

Lemma deleteObjects_healthy (bucket : string) (batch : list string) (a : service) :
  awsHealthy a bucket ->
  exists a',
    deleteObjects bucket batch a = Ret (None, a') /\
    awsHealthy a' bucket /\
    (forall k, In k batch -> objects a' !! (bucket, k) = None) /\
    (forall x, objects a !! x = None -> objects a' !! x = None).
Proof.
  intros [Hnf Hnk].
  destruct (deleteObjects_run bucket batch a) as (err & a' & res & Hrun & _ & Hfa & Hkf & Herr).
  assert (err = None) as ->.
  { destruct err as [e|]; [|reflexivity]. exfalso.
    assert (H : Some e <> None) by discriminate.
    apply Herr in H as [H|(k & _ & c & m & Hk & _)]; [now apply H|].
    rewrite Hnk in Hk. discriminate. }
  exists a'. split; [exact Hrun|]. split; [split; congruence|].
  revert Hrun. unfold deleteObjects, svcDeleteObjects, perform, bind. rewrite Hnf.
  destruct (deleteEach_absent a bucket batch Hnk (objects a)) as (Hin & Hmono).
  destruct (deleteEach a bucket batch (objects a)) as [errs m]. cbn [fst snd] in *.
  cbn. intros [= _ <-]. cbn. now split.
Qed.

Lemma deleteBatches_healthy (bucket : string) (batches : list (list string)) :
  forall a : service,
    awsHealthy a bucket ->
    exists a',
      deleteBatches bucket batches a = Ret (None, a') /\
      (forall k, In k (concat batches) -> objects a' !! (bucket, k) = None) /\
      (forall x, objects a !! x = None -> objects a' !! x = None).
Proof.
  induction batches as [|b bs IH]; intros a Ha.
  - exists a. cbn. repeat split; [now intros ? []|auto].
  - destruct (deleteObjects_healthy bucket b a Ha) as (a1 & Hrun & Ha1 & Hin & Hmono).
    destruct (IH a1 Ha1) as (a2 & Hrun2 & Hin2 & Hmono2).
    exists a2. cbn [deleteBatches]. rewrite (bind_Ret _ _ _ _ _ Hrun).
    split; [exact Hrun2|]. split; [|auto].
    cbn [concat]. intros k [Hk|Hk]%in_app_or; [apply Hmono2, Hin, Hk | now apply Hin2].
Qed.

(** C5: DeleteObjects cuts the keys into consecutive batches of at most
    PageSize keys and sends them in order, each in one quiet request, up
    to the first batch that fails; it returns an error exactly when some
    batch fails as a whole or reports a per-key failure other than
    key-not-found. In particular, when no request and no key is failed by
    the provider, the call succeeds, whether the keys exist or not and
    whether or not the provider reports the absent ones as not found,
    and none of the keys is left in the bucket. *)
Theorem DeleteObjects_batches (bucket : string) (keys : list string) (a : service) :
  concat (chunks PageSize keys) = keys
  /\ Forall (fun b => 0 < length b <= PageSize) (chunks PageSize keys)
  /\ exists err a' evs n,
       DeleteObjects PageSize bucket keys a = Ret (err, a') /\
       events a' = events a ++ evs /\
       map fst evs = map (batchRequest bucket) (take n (chunks PageSize keys)) /\
       (err = None -> n = length (chunks PageSize keys)) /\
       (err <> None <-> Exists (batchFails a bucket) (chunks PageSize keys)) /\
       ((forall r, faults a r = None) -> (forall k, keyFaults a bucket k = None) ->
        err = None /\ forall k, In k keys -> objects a' !! (bucket, k) = None).
Proof.
  destruct (chunks_spec PageSize keys PageSize_pos) as [Hc Hf].
  split; [exact Hc|]. split; [exact Hf|].
  unfold DeleteObjects.
  change (deleteLoop PageSize (length keys) bucket keys 0 PageSize a)
    with (deleteLoop PageSize (length keys) bucket keys 0 (0 + PageSize) a).
  rewrite (deleteLoop_batches bucket keys (length keys) 0 a) by lia.
  rewrite drop_0.
  destruct (deleteBatches_run bucket (chunks PageSize keys) a)
    as (err & a' & evs & n & Hrun & Hev & Hreq & Hn & _ & _ & Herr).
  exists err, a', evs, n.
  split; [exact Hrun|]. split; [exact Hev|]. split; [exact Hreq|].
  split; [exact Hn|]. split; [exact Herr|].
  intros Hnf Hnk.
  destruct (deleteBatches_healthy bucket (chunks PageSize keys) a (conj Hnf Hnk))
    as (a2 & Hrun2 & Hin & _).
  rewrite Hrun in Hrun2. injection Hrun2 as -> ->.
  split; [reflexivity|]. now rewrite Hc in Hin.
Qed.

End AwsDelete.

(** ** CompleteMultipartUpload on a service that fails no request *)

Section CompleteMultipartUploadCorrect.

Import objval objerr objgcp.

Definition gcpHealthy (g : service) : Prop := forall r, faults g r = None.

(** The key a level of [complete] generates from the identifiers [i] and
    [i + 1] of the source. *)
Definition generatedKey (g : service) (key : string) (i : nat) : string :=
  partPrefix (entropy g i) key +:+ "/" +:+ entropy g (S i).

Lemma gather_app (m : gmap (string * string) bytes) (bucket : string) (l1 l2 : list string) :
  gather m bucket (l1 ++ l2) =
    match gather m bucket l1, gather m bucket l2 with
    | Some d1, Some d2 => Some (d1 ++ d2)
    | _, _ => None
    end.
Proof.
  induction l1 as [|k l1 IH]; cbn.
  - now destruct (gather m bucket l2).
  - rewrite IH. destruct (m !! (bucket, k)); [|reflexivity].
    destruct (gather m bucket l1), (gather m bucket l2); try reflexivity.
    now rewrite app_assoc.
Qed.

Lemma gather_insert (m : gmap (string * string) bytes) (bucket k : string) (x : bytes)
    (l : list string) :
  ~ In k l -> gather (<[(bucket, k) := x]> m) bucket l = gather m bucket l.
Proof.
  induction l as [|y l IH]; [reflexivity|]. intros Hn. cbn.
  rewrite lookup_insert_ne by (intros [= ?]; apply Hn; now left).
  rewrite IH; [reflexivity|]. intros Hin. apply Hn. now right.
Qed.

Lemma In_drop_tail {A : Type} (n : nat) (x : A) (l : list A) :
  0 < n -> In x (drop n l) -> In x (tail l).
Proof.
  intros Hn. destruct n as [|n]; [lia|]. destruct l as [|y l]; [now cbn|].
  cbn. intros Hin. rewrite <- (take_drop n l). apply in_or_app. now right.
Qed.

Lemma compose_healthy (bucket key : string) (srcs : list string) (d : bytes) (g : service) :
  gcpHealthy g -> srcs <> [] -> length srcs <= MaxComposable ->
  gather (objects g) bucket srcs = Some d ->
  compose bucket key srcs g
    = Ret (None, record (ReqCompose bucket key srcs) None
                   (withObjects (<[(bucket, key) := d]> (objects g)) g)).
Proof.
  intros Hh Hne Hlen Hg. unfold compose, svcCompose, perform, bind.
  rewrite Hh, Hg.
  destruct (Nat.eqb_spec (length srcs) 0) as [H0|_];
    [destruct srcs; [congruence | discriminate]|].
  destruct (Nat.ltb_spec MaxComposable (length srcs)); [lia|]. reflexivity.
Qed.

(** What a call leaves of the service besides the objects and the
    requests. *)
Definition sameSettings (g g' : service) : Prop :=
  faults g' = faults g /\ entropy g' = entropy g /\ logged g' = logged g.

Lemma del_healthy (bucket key : string) (g : service) :
  gcpHealthy g ->
  exists g',
    del bucket key g = Ret (None, g') /\ sameSettings g g' /\ drawn g' = drawn g /\
    objects g' = delete (bucket, key) (objects g).
Proof.
  intros Hh. unfold del, svcDelete, perform, bind. rewrite Hh.
  destruct (objects g !! (bucket, key)) as [d|] eqn:Hd.
  - eexists. split; [reflexivity|]. now repeat split.
  - eexists. split; [reflexivity|]. repeat split. cbn. now rewrite delete_id.
Qed.

(** On a service that fails no request every job of the pool succeeds, so
    every key is queued and deleted, whatever the order. *)
Lemma pool_healthy (bucket : string) (fuel : nat) :
  forall (queued rest : list string) (g : service),
    length queued + length rest <= fuel ->
    gcpHealthy g ->
    exists g',
      pool fuel bucket queued rest None g = Ret (None, g') /\ sameSettings g g' /\
      drawn g' = drawn g /\
      (forall k, In k (queued ++ rest) -> objects g' !! (bucket, k) = None) /\
      (forall x, objects g !! x = None -> objects g' !! x = None) /\
      (forall b k, ~ (b = bucket /\ In k (queued ++ rest)) ->
         objects g' !! (b, k) = objects g !! (b, k)).
Proof.
  induction fuel as [|fuel IH]; intros queued rest g Hlen Hh.
  - destruct queued; [|cbn in Hlen; lia]. destruct rest; [|cbn in Hlen; lia].
    exists g. rewrite pool_done by reflexivity.
    repeat split; [now intros ? [] | auto].
  - destruct (pool_step fuel bucket queued rest None g) as (n & _ & Hempty & ->).
    cbn zeta in Hempty.
    assert (Hsame : (queued ++ take n rest) ++ drop n rest = queued ++ rest)
      by now rewrite <- app_assoc, take_drop.
    destruct (queued ++ take n rest) as [|q0 qs] eqn:Hq.
    + apply app_eq_nil in Hq as [-> _]. rewrite (Hempty eq_refl eq_refl).
      exists g. repeat split; [now intros ? [] | auto].
    + rewrite <- Hq in *. set (queued' := queued ++ take n rest) in *.
      set (i := (schedule g (length (events g))).2 mod length queued').
      assert (Hi : i < length queued').
      { apply Nat.mod_upper_bound. rewrite Hq. discriminate. }
      destruct (lookup_lt_is_Some_2 queued' i Hi) as [key Hkey].
      rewrite Hkey.
      destruct (del_healthy bucket key g Hh) as (g1 & Hdel & (Hfa & Hen & Hlog) & Hdr & Hobj).
      rewrite (bind_Ret _ _ _ _ _ Hdel).
      assert (Hh1 : gcpHealthy g1) by (intros r; now rewrite Hfa).
      assert (Hperm : queued' ≡ₚ key :: delete i queued') by now apply delete_Permutation.
      assert (Hlen' : length (delete i queued') + length (drop n rest) <= fuel).
      { apply Permutation_length in Hperm. cbn in Hperm.
        apply (f_equal (@length _)) in Hsame. rewrite !length_app in Hsame. lia. }
      assert (Hkeys : forall k, In k (queued ++ rest) <->
                                k = key \/ In k (delete i queued' ++ drop n rest)).
      { intros k. rewrite <- Hsame, !in_app_iff.
        split.
        - intros [Hk|Hk]; [|tauto].
          apply (Permutation_in _ Hperm) in Hk as [Hk|Hk]; [now left | tauto].
        - intros [->|[Hk|Hk]]; [| |tauto].
          + left. apply (Permutation_in _ (Permutation_sym Hperm)). now left.
          + left. apply (Permutation_in _ (Permutation_sym Hperm)). now right. }
      destruct (IH (delete i queued') (drop n rest) g1 Hlen' Hh1)
        as (g2 & Hrun & (Hfa2 & Hen2 & Hlog2) & Hdr2 & Hin & Hmono & Hframe).
      exists g2. split; [exact Hrun|].
      split; [repeat split; congruence|]. split; [congruence|].
      split; [|split].
      * intros k [->|Hk]%Hkeys; [|now apply Hin].
        apply Hmono. rewrite Hobj. apply lookup_delete_eq.
      * intros x Hx. apply Hmono. rewrite Hobj.
        destruct (decide ((bucket, key) = x)) as [<-|Hne];
          [apply lookup_delete_eq | now rewrite lookup_delete_ne].
      * intros b k Hn.
        rewrite Hframe
          by (intros [? ?]; apply Hn; split; [assumption | apply Hkeys; now right]).
        rewrite Hobj. apply lookup_delete_ne. intros [= <- <-]. apply Hn.
        split; [reflexivity | apply Hkeys; now left].
Qed.

Lemma DeleteObjects_healthy (bucket : string) (keys : list string) :
  forall g : service,
    gcpHealthy g ->
    exists g',
      DeleteObjects bucket keys g = Ret (None, g') /\ sameSettings g g' /\
      drawn g' = drawn g /\
      (forall k, In k keys -> objects g' !! (bucket, k) = None) /\
      (forall x, objects g !! x = None -> objects g' !! x = None) /\
      (forall b k, ~ (b = bucket /\ In k keys) ->
         objects g' !! (b, k) = objects g !! (b, k)).
Proof.
  intros g Hh. exact (pool_healthy bucket (length keys) [] keys g (le_n _) Hh).
Qed.

Lemma cleanup_healthy (bucket : string) (keys : list string) (g : service) :
  gcpHealthy g ->
  exists g',
    cleanup bucket keys g = Ret (tt, g') /\ sameSettings g g' /\ drawn g' = drawn g /\
    (forall k, In k keys -> objects g' !! (bucket, k) = None) /\
    (forall x, objects g !! x = None -> objects g' !! x = None) /\
    (forall b k, ~ (b = bucket /\ In k keys) ->
       objects g' !! (b, k) = objects g !! (b, k)).
Proof.
  intros Hh. destruct (DeleteObjects_healthy bucket keys g Hh) as (g' & Hrun & H).
  exists g'. unfold cleanup. now rewrite (bind_Ret _ _ _ _ _ Hrun).
Qed.

(** [complete] on a service that fails no request: the destination holds the
    concatenation of the parts, every intermediate key it generated is
    gone, and no other object is touched. *)
Lemma complete_healthy (bucket key : string) (fuel : nat) :
  forall (parts : list string) (g : service) (d : bytes),
    length parts <= fuel -> gcpHealthy g -> parts <> [] ->
    gather (objects g) bucket parts = Some d ->
    (MaxComposable < length parts ->
     forall i, drawn g <= i -> ~ In (generatedKey g key i) (tail parts)) ->
    exists g' gen,
      complete fuel bucket key parts g = Ret (None, g') /\
      sameSettings g g' /\ drawn g <= drawn g' /\
      objects g' !! (bucket, key) = Some d /\
      (forall k, In k gen -> exists i, drawn g <= i /\ k = generatedKey g key i) /\
      (forall k, In k gen -> objects g' !! (bucket, k) = None) /\
      (forall b k, ~ (b = bucket /\ (k = key \/ In k gen)) ->
         objects g' !! (b, k) = objects g !! (b, k)) /\
      (length parts <= MaxComposable -> gen = []).
Proof.
  assert (Hbase : forall (parts : list string) (g : service) (d : bytes) (f : nat),
            length parts <= MaxComposable -> gcpHealthy g -> parts <> [] ->
            gather (objects g) bucket parts = Some d ->
            exists g' gen,
              complete f bucket key parts g = Ret (None, g') /\
              sameSettings g g' /\ drawn g <= drawn g' /\
              objects g' !! (bucket, key) = Some d /\
              (forall k, In k gen -> exists i, drawn g <= i /\ k = generatedKey g key i) /\
              (forall k, In k gen -> objects g' !! (bucket, k) = None) /\
              (forall b k, ~ (b = bucket /\ (k = key \/ In k gen)) ->
                 objects g' !! (b, k) = objects g !! (b, k)) /\
              (length parts <= MaxComposable -> gen = [])).
  { intros parts g d f Hs Hh Hne Hg.
    eexists _, []. rewrite complete_small by exact Hs.
    split; [apply (compose_healthy bucket key parts d g); assumption|]. cbn.
    split; [now repeat split|]. split; [lia|].
    split; [apply lookup_insert_eq|].
    split; [now intros ? []|]. split; [now intros ? []|].
    split; [|reflexivity].
    intros b k Hn. apply lookup_insert_ne. intros [= <- <-]. apply Hn. now split; [|left]. }
  induction fuel as [|fuel IH]; intros parts g d Hlen Hh Hne Hg Hfresh.
  - apply Hbase; try assumption. lia.
  - destruct (Nat.le_gt_cases (length parts) MaxComposable) as [Hs|Hl];
      [now apply Hbase|].
    rewrite complete_step by exact Hl.
    specialize (Hfresh Hl).
    set (I := intermediateKey g key).
    assert (HIgen : I = generatedKey g key (drawn g)) by reflexivity.
    assert (HIkey : I <> key) by apply intermediateKey_ne.
    (* the first MaxComposable parts, and the rest *)
    rewrite <- (take_drop MaxComposable parts), gather_app in Hg.
    destruct (gather (objects g) bucket (take MaxComposable parts)) as [d1|] eqn:Hg1;
      [|discriminate].
    destruct (gather (objects g) bucket (drop MaxComposable parts)) as [d2|] eqn:Hg2;
      [|discriminate].
    injection Hg as <-.
    assert (Htake : compose bucket I (take MaxComposable parts) (afterDraw (afterDraw g))
              = Ret (None, record (ReqCompose bucket I (take MaxComposable parts)) None
                             (withObjects (<[(bucket, I) := d1]> (objects g))
                                (afterDraw (afterDraw g))))).
    { apply (compose_healthy bucket I (take MaxComposable parts) d1 (afterDraw (afterDraw g)));
        [exact Hh | | | exact Hg1].
      - intros Hnil.
        assert (H0 : length (take MaxComposable parts) = 0) by now rewrite Hnil.
        rewrite length_take in H0. rewrite MaxComposable_eq in *. lia.
      - rewrite length_take. lia. }
    rewrite (bind_Ret _ _ _ _ _ Htake).
    set (g2 := record (ReqCompose bucket I (take MaxComposable parts)) None
                 (withObjects (<[(bucket, I) := d1]> (objects g)) (afterDraw (afterDraw g)))).
    assert (HIrest : ~ In I (drop MaxComposable parts)).
    { intros Hin. apply (Hfresh (drawn g) (le_n _)). rewrite <- HIgen.
      apply (In_drop_tail MaxComposable); [rewrite MaxComposable_eq; lia | exact Hin]. }
    destruct (IH (I :: drop MaxComposable parts) g2 (d1 ++ d2)) as
      (g3 & gen & Hrun & (Hfa & Hen & Hlog) & Hdr & Hkey & Hgen & Hgone & Hframe & _).
    { cbn. rewrite length_drop. rewrite MaxComposable_eq in *. lia. }
    { exact Hh. }
    { discriminate. }
    { cbn [gather]. change (objects g2) with (<[(bucket, I) := d1]> (objects g)).
      rewrite lookup_insert_eq, gather_insert by exact HIrest. now rewrite Hg2. }
    { intros _ i Hi Hin. cbn [tail] in Hin.
      apply (Hfresh i); [cbn in Hi; lia|].
      apply (In_drop_tail MaxComposable); [rewrite MaxComposable_eq; lia | exact Hin]. }
    unfold bind at 1. rewrite Hrun.
    assert (Hh3 : gcpHealthy g3) by (intros r; rewrite Hfa; apply Hh).
    destruct (cleanup_healthy bucket [I] g3 Hh3)
      as (g4 & Hcl & (Hfa4 & Hen4 & Hlog4) & Hdr4 & Hin4 & Hmono4 & Hframe4).
    rewrite (bind_Ret _ _ _ _ _ Hcl).
    exists g4, (I :: gen). split; [reflexivity|].
    subst g2. cbn in Hfa, Hen, Hlog, Hdr.
    split; [repeat split; congruence|].
    split; [lia|].
    split.
    { rewrite Hframe4; [exact Hkey|]. intros [_ [Hk|[]]]. now apply HIkey. }
    split.
    { intros k [<-|Hk]; [now exists (drawn g)|].
      destruct (Hgen k Hk) as (i & Hi & ->). exists i. split; [cbn in Hi; lia | reflexivity]. }
    split.
    { intros k [<-|Hk]; [apply Hin4; now left | apply Hmono4, Hgone, Hk]. }
    split; [|lia].
    intros b k Hn.
    rewrite Hframe4 by (intros [-> [<-|[]]]; apply Hn; split; [|right; left]; reflexivity).
    rewrite Hframe by (intros [-> [->|Hk]]; apply Hn; split;
                         [|left| |right; right]; (reflexivity || assumption)).
    cbn. apply lookup_insert_ne. intros [= <- <-]. apply Hn. split; [|right; left]; reflexivity.
Qed.

(** X1: The functional correctness of CompleteMultipartUpload, for any number
    of parts: on a service that fails no request, given parts that exist,
    a destination key listed at most once among them, and, when there are
    more than MaxComposable parts, generated keys that are not among the
    parts, the call succeeds; the destination holds
    the concatenation of the parts in the given order; the parts (other
    than the destination) and every intermediate key are gone; no other
    object is touched; and no key is generated for at most MaxComposable
    parts. *)
Theorem CompleteMultipartUpload_concatenates (g : service) (bucket id key : string)
    (parts : list Part) (d : bytes) :
  gcpHealthy g -> parts <> [] ->
  gather (objects g) bucket (map ID parts) = Some d ->
  occurrences key (map ID parts) <= 1 ->
  (MaxComposable < length parts ->
   forall i, drawn g <= i -> ~ In (generatedKey g key i) (map ID parts)) ->
  exists g' gen,
    CompleteMultipartUpload bucket id key parts g = Ret (None, g') /\
    logged g' = logged g /\
    objects g' !! (bucket, key) = Some d /\
    (forall k, In k gen -> exists i, drawn g <= i /\ k = generatedKey g key i) /\
    (forall k, k <> key -> In k (map ID parts) \/ In k gen ->
       objects g' !! (bucket, k) = None) /\
    (forall b k, ~ (b = bucket /\ (k = key \/ In k (map ID parts) \/ In k gen)) ->
       objects g' !! (b, k) = objects g !! (b, k)) /\
    (length parts <= MaxComposable -> gen = []).
Proof.
  intros Hh Hne Hg Honce Hfresh.
  destruct (complete_healthy bucket key (length (map ID parts)) (map ID parts) g d)
    as (g1 & gen & Hrun & (Hfa & Hen & Hlog) & Hdr & Hkey & Hgen & Hgone & Hframe & Hnone);
    try assumption; try reflexivity.
  { destruct parts; [congruence | discriminate]. }
  { rewrite length_map. intros Hl i Hi Hin. apply (Hfresh Hl i Hi).
    destruct (map ID parts); [assumption | now right]. }
  unfold CompleteMultipartUpload. rewrite (bind_Ret _ _ _ _ _ Hrun), Index_Delete.
  assert (Hh1 : gcpHealthy g1) by (intros r; rewrite Hfa; apply Hh).
  destruct (cleanup_healthy bucket (removeFirst key (map ID parts)) g1 Hh1)
    as (g2 & Hcl & (Hfa2 & Hen2 & Hlog2) & Hdr2 & Hin2 & Hmono2 & Hframe2).
  rewrite (bind_Ret _ _ _ _ _ Hcl).
  exists g2, gen. split; [reflexivity|]. split; [congruence|].
  split.
  { rewrite Hframe2; [exact Hkey|]. intros [_ Hin].
    now apply (removeFirst_once key (map ID parts) Honce). }
  split; [exact Hgen|].
  split.
  { intros k Hk [Hin|Hin].
    - apply Hin2. now apply removeFirst_other.
    - apply Hmono2, Hgone, Hin. }
  split; [|now rewrite length_map in Hnone].
  intros b k Hn.
  rewrite Hframe2.
  - apply Hframe. intros [-> [->|Hk]]; apply Hn; split; auto.
  - intros [-> Hin]. apply Hn. split; [reflexivity|].
    destruct (String.string_dec k key) as [->|Hk]; [now left|].
    right; left. now apply (removeFirst_other key k).
Qed.

(** The destination key listed twice or more: under the same conditions
    the call returns nil and leaves no object at the destination, as only
    the first occurrence is kept out of the cleanup. *)
Lemma CompleteMultipartUpload_deletes_repeated_destination (g : service)
    (bucket id key : string) (parts : list Part) (d : bytes) :
  gcpHealthy g -> parts <> [] ->
  gather (objects g) bucket (map ID parts) = Some d ->
  2 <= occurrences key (map ID parts) ->
  (MaxComposable < length parts ->
   forall i, drawn g <= i -> ~ In (generatedKey g key i) (map ID parts)) ->
  exists g',
    CompleteMultipartUpload bucket id key parts g = Ret (None, g') /\
    objects g' !! (bucket, key) = None.
Proof.
  intros Hh Hne Hg Htwice Hfresh.
  destruct (complete_healthy bucket key (length (map ID parts)) (map ID parts) g d)
    as (g1 & gen & Hrun & (Hfa & Hen & Hlog) & _);
    try assumption; try reflexivity.
  { destruct parts; [congruence | discriminate]. }
  { rewrite length_map. intros Hl i Hi Hin. apply (Hfresh Hl i Hi).
    destruct (map ID parts); [assumption | now right]. }
  unfold CompleteMultipartUpload. rewrite (bind_Ret _ _ _ _ _ Hrun), Index_Delete.
  assert (Hh1 : gcpHealthy g1) by (intros r; rewrite Hfa; apply Hh).
  destruct (cleanup_healthy bucket (removeFirst key (map ID parts)) g1 Hh1)
    as (g2 & Hcl & _ & _ & Hin2 & _).
  rewrite (bind_Ret _ _ _ _ _ Hcl).
  exists g2. split; [reflexivity|]. now apply Hin2, removeFirst_twice.
Qed.

End CompleteMultipartUploadCorrect.

(** ** AppendToObject on an existing object, on Google Storage *)

Section GcpAppend.

Import objval objerr objgcp.

Lemma UploadPart_healthy (bucket id key : string) (number : Z) (data : bytes) (g : service) :
  gcpHealthy g ->
  UploadPart bucket id key number data g
    = Ret (({| ID := nextPartKey g id key; Number := number;
               PartSize := Z.of_nat (length data) |}, None),
           record (ReqWrite bucket (nextPartKey g id key) data) None
             (withObjects (<[(bucket, nextPartKey g id key) := data]> (objects g))
                (afterDraw g))).
Proof.
  intros Hh. unfold UploadPart.
  rewrite (bind_Ret _ _ _ _ _ (partKey_run g id key)).
  assert (Hput : PutObject bucket (nextPartKey g id key) data (afterDraw g)
            = Ret (None,
                   record (ReqWrite bucket (nextPartKey g id key) data) None
                     (withObjects (<[(bucket, nextPartKey g id key) := data]> (objects g))
                        (afterDraw g)))).
  { rewrite gcp_PutObject_run. cbn. now rewrite Hh. }
  now rewrite (bind_Ret _ _ _ _ _ Hput).
Qed.

(** X2: The existing object is part 1 itself, the new data part 2: on a service
    that fails no request the object ends as its old content followed by
    the data, the intermediate object of the new data is gone, and no other
    object is touched. *)
Theorem gcp_AppendToObject_appends (g : service) (bucket key : string) (old data : bytes) :
  gcpHealthy g ->
  objects g !! (bucket, key) = Some old -> old <> [] ->
  exists g',
    AppendToObject bucket key data g = Ret (None, g') /\
    logged g' = logged g /\
    objects g' !! (bucket, key) = Some (old ++ data) /\
    objects g' !! (bucket, generatedKey g key (drawn g)) = None /\
    (forall b k, (b, k) <> (bucket, key) -> (b, k) <> (bucket, generatedKey g key (drawn g)) ->
       objects g' !! (b, k) = objects g !! (b, k)).
Proof.
  intros Hh Hold Hne.
  set (I := generatedKey g key (drawn g)).
  assert (HI : I <> key) by apply partPrefix_longer.
  unfold AppendToObject.
  rewrite (bind_Ret _ _ _ _ _ (gcp_GetObjectAttrs_found g bucket key old Hold (Hh _))).
  set (g1 := record (ReqAttrs bucket key) None g).
  assert (Hsize : (Z.of_nat (length old) =? 0)%Z = false).
  { destruct old; [congruence|]. cbn [length]. apply Z.eqb_neq. lia. }
  cbn [IsNotFoundError deref]. unfold bind at 1. unfold bind at 1. cbn [ret Size].
  rewrite Hsize.
  assert (Hcreate : CreateMultipartUpload bucket key g1
            = Ret ((entropy g (drawn g), None), afterDraw g1)) by reflexivity.
  rewrite (bind_Ret _ _ _ _ _ Hcreate).
  assert (Hh2 : gcpHealthy (afterDraw g1)) by exact Hh.
  rewrite (bind_Ret _ _ _ _ _
             (UploadPart_healthy bucket (entropy g (drawn g)) key 2 data (afterDraw g1) Hh2)).
  change (nextPartKey (afterDraw g1) (entropy g (drawn g)) key) with I.
  set (g3 := record (ReqWrite bucket I data) None
               (withObjects (<[(bucket, I) := data]> (objects g)) (afterDraw (afterDraw g1)))).
  cbn [deref]. unfold bind at 1. cbn [ret].
  (* two parts: one merge into the key, then the cleanup of the new part *)
  unfold CompleteMultipartUpload. cbn [map ID].
  assert (Hmerge : complete (length [key; I]) bucket key [key; I] g3
            = Ret (None, record (ReqCompose bucket key [key; I]) None
                           (withObjects (<[(bucket, key) := old ++ data]> (objects g3)) g3))).
  { rewrite complete_small by (cbn [length]; rewrite MaxComposable_eq; lia).
    apply compose_healthy; [exact Hh | discriminate | cbn [length]; rewrite MaxComposable_eq; lia|].
    cbn. rewrite lookup_insert_ne by congruence. rewrite Hold, lookup_insert_eq.
    now rewrite app_nil_r. }
  match goal with
  | |- exists g', bind _ _ ?s = _ /\ _ => change s with g3
  end.
  unfold bind at 1.
  rewrite (bind_Ret _ _ _ _ _ Hmerge), Index_Delete.
  set (g4 := record (ReqCompose bucket key [key; I]) None
               (withObjects (<[(bucket, key) := old ++ data]> (objects g3)) g3)).
  assert (Hrest : removeFirst key [key; I] = [I]).
  { cbn. now rewrite bool_decide_eq_true_2. }
  rewrite Hrest.
  destruct (cleanup_healthy bucket [I] g4) as (g5 & Hcl & (_ & _ & Hlog) & _ & Hin & _ & Hframe);
    [exact Hh|].
  rewrite (bind_Ret _ _ _ _ _ Hcl).
  exists g5. split; [reflexivity|]. split; [exact Hlog|].
  split.
  { rewrite Hframe by (intros [_ [H|[]]]; now apply HI).
    cbn. apply lookup_insert_eq. }
  split; [apply Hin; now left|].
  intros b k Hk HkI.
  rewrite Hframe by (intros [-> [<-|[]]]; now apply HkI).
  cbn. rewrite !lookup_insert_ne by congruence. reflexivity.
Qed.

End GcpAppend.

(** ** AppendToObject on an existing object, on S3 *)

Section AwsAppend.

Import objval objerr objaws.

Definition neverFails (a : service) : Prop := forall r, faults a r = None.

(** A request that succeeds on a service that fails none. *)
Lemma perform_ok {A : Type} (r : request)
    (sem : service -> cause + (A * gmap (string * string) bytes * gmap string (list uploaded)))
    (a : service) (x : A) (m : gmap (string * string) bytes) (u : gmap string (list uploaded)) :
  neverFails a -> sem a = inr (x, m, u) ->
  perform r sem a = Ret ((Some x, None), record r None (update m u a)).
Proof. intros Hh Hs. unfold perform. now rewrite Hh, Hs. Qed.

(** What the steps of an append keep of the service. *)
Definition advances (a a' : service) (n : nat) : Prop :=
  neverFails a' /\ entropy a' = entropy a /\ drawn a' = n + drawn a.

Lemma aws_GetObjectAttrs_found (bucket key : string) (d : bytes) (a : service) :
  neverFails a -> objects a !! (bucket, key) = Some d ->
  exists a',
    GetObjectAttrs bucket key a
      = Ret ((Some {| Key := key; Size := Z.of_nat (length d) |}, None), a') /\
    objects a' = objects a /\ uploads a' = uploads a /\ advances a a' 0.
Proof.
  intros Hh Hd. unfold GetObjectAttrs, svcHeadObject.
  erewrite bind_Ret; [|apply perform_ok; [exact Hh | now rewrite Hd]].
  eexists. split; [reflexivity|]. now repeat split.
Qed.

Lemma aws_GetObject_found (bucket key : string) (d : bytes) (a : service) :
  neverFails a -> objects a !! (bucket, key) = Some d ->
  exists a',
    GetObject bucket key None a
      = Ret ((Some {| Attrs := {| Key := key; Size := Z.of_nat (length d) |};
                      Body := d |}, None), a') /\
    objects a' = objects a /\ uploads a' = uploads a /\ advances a a' 0.
Proof.
  intros Hh Hd. unfold GetObject, svcGetObject. cbn [Valid].
  erewrite bind_Ret; [|apply perform_ok; [exact Hh | now rewrite Hd]].
  eexists. split; [reflexivity|]. now repeat split.
Qed.

Lemma aws_PutObject_ok (bucket key : string) (d : bytes) (a : service) :
  neverFails a ->
  exists a',
    PutObject bucket key d a = Ret (None, a') /\
    objects a' = <[(bucket, key) := d]> (objects a) /\ uploads a' = uploads a /\
    advances a a' 0.
Proof.
  intros Hh. rewrite aws_PutObject_run, Hh.
  eexists. split; [reflexivity|]. now repeat split.
Qed.

Lemma aws_CreateMultipartUpload_ok (bucket key : string) (a : service) :
  neverFails a ->
  exists a',
    CreateMultipartUpload bucket key a = Ret ((entropy a (drawn a), None), a') /\
    objects a' = objects a /\
    uploads a' = <[entropy a (drawn a) := []]> (uploads a) /\
    advances a a' 1.
Proof.
  intros Hh. unfold CreateMultipartUpload, svcCreateMultipartUpload.
  unfold bind at 2. cbn [NewString].
  erewrite bind_Ret; [|apply perform_ok; [exact Hh | reflexivity]].
  eexists. split; [reflexivity|]. now repeat split.
Qed.

Lemma ranged_whole (d : bytes) :
  ranged d (Some {| Start := 0; End_ := Z.of_nat (length d) - 1 |}) = d.
Proof.
  unfold ranged. cbn. destruct (Z.eqb_spec (Z.of_nat (length d) - 1) 0); [reflexivity|].
  apply take_ge. lia.
Qed.

Lemma aws_UploadPartCopy_ok (bucket id key : string) (number : Z) (d : bytes)
    (ps : list uploaded) (a : service) :
  neverFails a -> d <> [] ->
  objects a !! (bucket, key) = Some d -> uploads a !! id = Some ps ->
  exists a',
    UploadPartCopy bucket id key key number
      (Some {| Start := 0; End_ := Z.of_nat (length d) - 1 |}) a
      = Ret (({| ID := entropy a (drawn a); Number := number; PartSize := 0 |}, None), a') /\
    objects a' = objects a /\
    uploads a' = <[id := putPart number (entropy a (drawn a)) d ps]> (uploads a) /\
    advances a a' 1.
Proof.
  intros Hh Hne Hd Hu. unfold UploadPartCopy.
  assert (Hvalid : Valid (Some {| Start := 0; End_ := Z.of_nat (length d) - 1 |}) true = None).
  { unfold Valid. cbn [Start End_].
    destruct d; [congruence|]. cbn [length].
    destruct (Z.ltb_spec (Z.of_nat (S (length d)) - 1) 0); [lia|].
    now rewrite andb_false_r. }
  rewrite Hvalid. cbn [deref]. unfold bind at 1. cbn [ret].
  unfold svcUploadPartCopy. unfold bind at 2. cbn [NewString].
  erewrite bind_Ret;
    [|apply perform_ok; [exact Hh | cbn [uploads objects]; now rewrite Hu, Hd]].
  eexists. split; [reflexivity|].
  split; [reflexivity|]. split; [|now repeat split].
  cbn [uploads update record]. now rewrite ranged_whole.
Qed.

Lemma aws_UploadPart_ok (bucket id key : string) (number : Z) (d : bytes)
    (ps : list uploaded) (a : service) :
  neverFails a -> uploads a !! id = Some ps ->
  exists a',
    UploadPart bucket id key number d a
      = Ret (({| ID := entropy a (drawn a); Number := number; PartSize := 0 |}, None), a') /\
    objects a' = objects a /\
    uploads a' = <[id := putPart number (entropy a (drawn a)) d ps]> (uploads a) /\
    advances a a' 1.
Proof.
  intros Hh Hu. unfold UploadPart, svcUploadPart.
  unfold bind at 2. cbn [NewString].
  erewrite bind_Ret; [|apply perform_ok; [exact Hh | cbn [uploads]; now rewrite Hu]].
  eexists. split; [reflexivity|]. now repeat split.
Qed.

Lemma aws_CompleteMultipartUpload_ok (bucket id key : string) (e1 e2 : string)
    (d1 d2 : bytes) (a : service) :
  neverFails a ->
  uploads a !! id = Some [(1%Z, e1, d1); (2%Z, e2, d2)] ->
  exists a',
    CompleteMultipartUpload bucket id key
      [{| ID := e1; Number := 1; PartSize := 0 |}; {| ID := e2; Number := 2; PartSize := 0 |}] a
      = Ret (None, a') /\
    objects a' = <[(bucket, key) := d1 ++ d2]> (objects a).
Proof.
  intros Hh Hu. unfold CompleteMultipartUpload, svcCompleteMultipartUpload.
  erewrite bind_Ret.
  2:{ apply perform_ok; [exact Hh|]. cbn beta. rewrite Hu. cbn.
      destruct (decide (1%Z = 1%Z /\ e1 = e1)) as [_|H]; [|now destruct H].
      destruct (decide (1%Z = 2%Z /\ e1 = e2)) as [[H _]|_]; [discriminate|].
      destruct (decide (2%Z = 2%Z /\ e2 = e2)) as [_|H]; [|now destruct H].
      cbn. rewrite app_nil_r. reflexivity. }
  eexists. split; [reflexivity|]. reflexivity.
Qed.

(** X3: On S3, with either strategy: the object ends as its old content
    followed by the data, and no other object is touched. *)
Theorem aws_AppendToObject_appends (MinUploadSize : Z) (a : service) (bucket key : string)
    (old data : bytes) :
  (0 < MinUploadSize)%Z ->
  neverFails a ->
  objects a !! (bucket, key) = Some old ->
  exists a',
    AppendToObject MinUploadSize bucket key data a = Ret (None, a') /\
    objects a' = <[(bucket, key) := old ++ data]> (objects a).
Proof.
  intros Hmin Hh Hold. unfold AppendToObject.
  destruct (aws_GetObjectAttrs_found bucket key old a Hh Hold)
    as (a1 & Hattrs & Hobj1 & Hup1 & Hh1 & Hen1 & Hdr1).
  rewrite (bind_Ret _ _ _ _ _ Hattrs). cbn [IsNotFoundError deref].
  unfold bind at 1. cbn [ret Size].
  destruct (Z.ltb_spec (Z.of_nat (length old)) MinUploadSize) as [Hsmall|Hlarge].
  - (* below the threshold: download, append, upload *)
    unfold downloadAndAppend. cbn [Key].
    destruct (aws_GetObject_found bucket key old a1 Hh1) as (a2 & Hget & Hobj2 & Hup2 & Hh2 & _);
      [now rewrite Hobj1|].
    rewrite (bind_Ret _ _ _ _ _ Hget). cbn [deref]. unfold bind at 1. cbn [ret Body].
    destruct (aws_PutObject_ok bucket key (old ++ data) a2 Hh2) as (a3 & Hput & Hobj3 & _).
    rewrite (bind_Ret _ _ _ _ _ Hput).
    exists a3. split; [reflexivity|]. now rewrite Hobj3, Hobj2, Hobj1.
  - (* at or above it: copy as part 1, upload part 2, complete *)
    assert (Hne : old <> []) by (intros ->; cbn in Hlarge; lia).
    unfold createMPUThenCopyAndAppend. cbn [Key].
    destruct (aws_CreateMultipartUpload_ok bucket key a1 Hh1)
      as (a2 & Hcreate & Hobj2 & Hup2 & Hh2 & Hen2 & Hdr2).
    rewrite (bind_Ret _ _ _ _ _ Hcreate).
    set (id := entropy a1 (drawn a1)) in *.
    unfold copyAndAppend. cbn [Key Size].
    destruct (aws_UploadPartCopy_ok bucket id key 1 old [] a2 Hh2 Hne)
      as (a3 & Hcopy & Hobj3 & Hup3 & Hh3 & Hen3 & Hdr3).
    { now rewrite Hobj2, Hobj1. }
    { rewrite Hup2. apply lookup_insert_eq. }
    unfold bind at 1. rewrite (bind_Ret _ _ _ _ _ Hcopy).
    destruct (aws_UploadPart_ok bucket id key 2 data
                (putPart 1 (entropy a2 (drawn a2)) old []) a3 Hh3)
      as (a4 & Hpart & Hobj4 & Hup4 & Hh4 & _).
    { rewrite Hup3. apply lookup_insert_eq. }
    rewrite (bind_Ret _ _ _ _ _ Hpart).
    destruct (aws_CompleteMultipartUpload_ok bucket id key
                (entropy a2 (drawn a2)) (entropy a3 (drawn a3)) old data a4 Hh4)
      as (a5 & Hdone & Hobj5).
    { rewrite Hup4. rewrite lookup_insert_eq. reflexivity. }
    rewrite (bind_Ret _ _ _ _ _ Hdone). cbn [ret].
    exists a5. split; [reflexivity|]. now rewrite Hobj5, Hobj4, Hobj3, Hobj2, Hobj1.
Qed.

End AwsAppend.

(** ** Deleting by key and by prefix, on Google Storage *)

Section GcpDelete.

Import objval objerr objgcp.

(** The keys of a bucket below a prefix. *)
Definition below (bucket prefix b k : string) : bool :=
  bool_decide (b = bucket) && String.prefix prefix k.

Lemma listEntry_flat (bucket prefix b k : string) (d : bytes) :
  listEntry bucket prefix "" (b, k, d)
    = if below bucket prefix b k
      then Some {| Name := k; Prefix := ""; RemoteSize := Z.of_nat (length d) |}
      else None.
Proof. reflexivity. Qed.

(** Without a delimiter the listing has the objects below the prefix, and
    nothing else. *)
Lemma listing_flat (g : service) (bucket prefix : string) (r : remoteAttrs) :
  r ∈ remove_dups (omap (listEntry bucket prefix "") (map_to_list (objects g))) <->
  exists k d, objects g !! (bucket, k) = Some d /\ String.prefix prefix k = true /\
              r = {| Name := k; Prefix := ""; RemoteSize := Z.of_nat (length d) |}.
Proof.
  rewrite elem_of_remove_dups, list_elem_of_omap. split.
  - intros ([[b k] d] & Hin & Hr). apply elem_of_map_to_list in Hin.
    rewrite listEntry_flat in Hr. unfold below in Hr.
    destruct (bool_decide_reflect (b = bucket)) as [->|]; [|discriminate]. cbn in Hr.
    destruct (String.prefix prefix k) eqn:Hp; [|discriminate].
    injection Hr as <-. now exists k, d.
  - intros (k & d & Hd & Hp & ->). exists (bucket, k, d). split.
    + now apply elem_of_map_to_list.
    + rewrite listEntry_flat. unfold below. rewrite bool_decide_eq_true_2 by reflexivity.
      cbn. now rewrite Hp.
Qed.

(** The loop of [DeleteDirectory] over entries that are objects. *)
Lemma iterate_delete (bucket : string) (entries : list remoteAttrs) :
  forall g : service,
    gcpHealthy g ->
    (forall r, In r entries -> Prefix r = "") ->
    exists g',
      iterate None None (fun attrs => DeleteObjects bucket [Key attrs]) entries None g
        = Ret (None, g') /\
      sameSettings g g' /\ drawn g' = drawn g /\
      (forall k, In k (map Name entries) -> objects g' !! (bucket, k) = None) /\
      (forall x, objects g !! x = None -> objects g' !! x = None) /\
      (forall b k, ~ (b = bucket /\ In k (map Name entries)) ->
         objects g' !! (b, k) = objects g !! (b, k)).
Proof.
  induction entries as [|r entries IH]; intros g Hh Hobj.
  - exists g. cbn. repeat split; [now intros ? [] | auto].
  - cbn [iterate]. change (objcli.ShouldIgnore (Name r) None None) with false. cbn iota.
    rewrite (Hobj r) by now left. rewrite bool_decide_eq_true_2 by reflexivity.
    cbn [Key].
    destruct (DeleteObjects_healthy bucket [Name r] g Hh)
      as (g1 & Hdel & (Hfa & Hen & Hlog) & Hdr & Hin & Hmono & Hframe).
    rewrite (bind_Ret _ _ _ _ _ Hdel).
    assert (Hh1 : gcpHealthy g1) by (intros q; now rewrite Hfa).
    destruct (IH g1 Hh1) as (g2 & Hrun & (Hfa2 & Hen2 & Hlog2) & Hdr2 & Hin2 & Hmono2 & Hframe2).
    { intros r' Hr'. apply Hobj. now right. }
    exists g2. split; [exact Hrun|].
    split; [repeat split; congruence|]. split; [congruence|].
    split; [|split].
    + intros k [<-|Hk]; [|now apply Hin2].
      apply Hmono2, Hin. now left.
    + intros x Hx. now apply Hmono2, Hmono.
    + intros b k Hn.
      rewrite Hframe2 by (intros [? ?]; apply Hn; split; [|right]; assumption).
      apply Hframe. intros [-> [<-|[]]]. apply Hn. split; [|left]; reflexivity.
Qed.

Lemma DeleteDirectory_healthy (g : service) (bucket prefix : string) :
  gcpHealthy g ->
  exists g',
    DeleteDirectory bucket prefix g = Ret (None, g') /\
    sameSettings g g' /\ drawn g' = drawn g /\
    (forall b k, below bucket prefix b k = true -> objects g' !! (b, k) = None) /\
    (forall b k, below bucket prefix b k = false ->
       objects g' !! (b, k) = objects g !! (b, k)).
Proof.
  intros Hh. unfold DeleteDirectory, IterateObjects.
  set (entries := remove_dups (omap (listEntry bucket prefix "") (map_to_list (objects g)))).
  set (g0 := record (ReqObjects bucket prefix "") None g).
  assert (Hlist : svcObjects bucket prefix "" g = Ret ((entries, None), g0)).
  { unfold svcObjects. now rewrite Hh. }
  rewrite (bind_Ret _ _ _ _ _ Hlist).
  assert (Hh0 : gcpHealthy g0) by exact Hh.
  destruct (iterate_delete bucket entries g0 Hh0)
    as (g' & Hrun & Hset & Hdr & Hin & Hmono & Hframe).
  { intros r Hr. apply list_elem_of_In, listing_flat in Hr.
    destruct Hr as (k & d & _ & _ & ->). reflexivity. }
  exists g'. split; [exact Hrun|]. split; [exact Hset|]. split; [exact Hdr|].
  split.
  - intros b k Hb. unfold below in Hb. apply andb_true_iff in Hb as [Hb Hp].
    apply bool_decide_eq_true in Hb. subst b.
    destruct (objects g !! (bucket, k)) as [d|] eqn:Hd.
    + apply Hin. apply in_map_iff.
      exists {| Name := k; Prefix := ""; RemoteSize := Z.of_nat (length d) |}.
      split; [reflexivity|]. apply list_elem_of_In, listing_flat. now exists k, d.
    + now apply Hmono.
  - intros b k Hb. apply Hframe. intros [-> Hk].
    apply in_map_iff in Hk as (r & <- & Hr).
    apply list_elem_of_In, listing_flat in Hr. destruct Hr as (k & d & _ & Hp & ->).
    unfold below in Hb. rewrite bool_decide_eq_true_2 in Hb by reflexivity.
    cbn in Hb. congruence.
Qed.

(** X4: [DeleteObjects] on a service that fails no request: every key is
    requested for deletion, once for each time it is given, keys that do
    not exist included, in the order the worker pool runs the jobs in; it
    returns nil, the keys are gone and no other object is touched. *)
Theorem gcp_DeleteObjects_removes_keys (g : service) (bucket : string) (keys : list string) :
  gcpHealthy g ->
  exists g',
    DeleteObjects bucket keys g = Ret (None, g') /\
    logged g' = logged g /\
    map fst (drop (length (events g)) (events g')) ≡ₚ map (ReqDelete bucket) keys /\
    (forall k, In k keys -> objects g' !! (bucket, k) = None) /\
    (forall b k, ~ (b = bucket /\ In k keys) -> objects g' !! (b, k) = objects g !! (b, k)).
Proof.
  intros Hh.
  destruct (DeleteObjects_healthy bucket keys g Hh)
    as (g' & Hrun & (_ & _ & Hlog) & _ & Hin & _ & Hframe).
  destruct (DeleteObjects_events bucket keys g)
    as (g'' & ds & Hrun' & Hev & _ & _ & _ & _ & _ & Hall).
  rewrite Hrun in Hrun'. injection Hrun' as Hnone <-.
  exists g'. split; [exact Hrun|]. split; [exact Hlog|]. split; [|split; assumption].
  rewrite Hev, drop_app_length, <- (Hall (eq_sym Hnone)), !map_map. reflexivity.
Qed.

(** X25: [DeleteObjects] on any service: it returns, and the requests it
    makes are deletions of some of the first keys, one for each, in the
    order the worker pool runs the jobs in. It returns nil exactly when
    none of them failed, a missing object not being a failure, and then
    every key was requested; otherwise it returns the normalized error of
    one of the failed requests. *)
Theorem gcp_DeleteObjects_reports_failure (g : service) (bucket : string)
    (keys : list string) :
  exists err g' ds,
    DeleteObjects bucket keys g = Ret (err, g') /\
    events g' = events g ++ map (deleteEv bucket) ds /\
    (exists n, map fst ds ≡ₚ take n keys) /\
    (err = None <-> forall k res, In (k, res) ds -> failedDelete res = false) /\
    (err = None -> map fst ds ≡ₚ keys) /\
    (forall e, err = Some e ->
       exists k res,
         In (k, res) ds /\ failedDelete res = true /\ handleError bucket k res = Some e).
Proof.
  destruct (DeleteObjects_events bucket keys g)
    as (g' & ds & Hrun & Hev & _ & _ & _ & _ & Hn & Hall).
  exists (firstError bucket ds), g', ds.
  split; [exact Hrun|]. split; [exact Hev|]. split; [exact Hn|].
  split; [|split; [exact Hall|]].
  - rewrite firstError_None. unfold failedDeletes. split.
    + intros H0 k res Hin.
      destruct (failedDelete res) eqn:Hf; [exfalso | reflexivity].
      assert (Hin' : In (k, res) (List.filter (fun d => failedDelete d.2) ds))
        by (apply filter_In; split; [exact Hin | exact Hf]).
      destruct (List.filter (fun d => failedDelete d.2) ds); [destruct Hin' | discriminate].
    + intros Hno.
      destruct (List.filter (fun d => failedDelete d.2) ds) as [|[k res] l] eqn:Hl;
        [reflexivity | exfalso].
      assert (Hin : In (k, res) (List.filter (fun d => failedDelete d.2) ds))
        by (rewrite Hl; now left).
      apply filter_In in Hin as [Hin Hf]. cbn in Hf.
      rewrite (Hno k res Hin) in Hf. discriminate.
  - intros e (k & res & Hin & He)%firstError_In. exists k, res.
    split; [exact Hin|]. unfold delError in He.
    destruct (failedDelete res); [now split | discriminate].
Qed.

(** X5: [DeleteDirectory] on a service that fails no request returns nil,
    leaves no object of the bucket whose key starts with the prefix, and
    touches no other object. *)
Theorem gcp_DeleteDirectory_removes_prefix (g : service) (bucket prefix : string) :
  gcpHealthy g ->
  exists g',
    DeleteDirectory bucket prefix g = Ret (None, g') /\
    logged g' = logged g /\
    forall b k,
      objects g' !! (b, k)
        = if bool_decide (b = bucket) && String.prefix prefix k
          then None else objects g !! (b, k).
Proof.
  intros Hh.
  destruct (DeleteDirectory_healthy g bucket prefix Hh)
    as (g' & Hrun & (_ & _ & Hlog) & _ & Hin & Hout).
  exists g'. split; [exact Hrun|]. split; [exact Hlog|].
  intros b k. specialize (Hin b k). specialize (Hout b k). unfold below in *.
  destruct (bool_decide (b = bucket) && String.prefix prefix k); auto.
Qed.

(** X6: A part uploaded in a session is removed when the session is aborted:
    the abort deletes the part and every other object of the bucket under
    the prefix of the session, and leaves the objects that are not under
    it as they were before the upload, so a bucket that had nothing under
    the prefix is as it was before the upload. *)
Theorem gcp_AbortMultipartUpload_removes_parts (g : service)
    (bucket id key : string) (number : Z) (body : bytes) :
  gcpHealthy g ->
  exists part g1 g2,
    UploadPart bucket id key number body g = Ret ((part, None), g1) /\
    objects g1 !! (bucket, ID part) = Some body /\
    AbortMultipartUpload bucket id key g1 = Ret (None, g2) /\
    objects g2 !! (bucket, ID part) = None /\
    (forall b k, below bucket (partPrefix id key) b k = true -> objects g2 !! (b, k) = None) /\
    (forall b k, below bucket (partPrefix id key) b k = false ->
       objects g2 !! (b, k) = objects g !! (b, k)) /\
    ((forall k, String.prefix (partPrefix id key) k = true -> objects g !! (bucket, k) = None) ->
     objects g2 = objects g).
Proof.
  intros Hh.
  pose proof (UploadPart_healthy bucket id key number body g Hh) as Hup.
  set (g1 := record (ReqWrite bucket (nextPartKey g id key) body) None
               (withObjects (<[(bucket, nextPartKey g id key) := body]> (objects g))
                  (afterDraw g))) in *.
  assert (Hh1 : gcpHealthy g1) by exact Hh.
  destruct (DeleteDirectory_healthy g1 bucket (partPrefix id key) Hh1)
    as (g2 & Hrun & _ & _ & Hin & Hout).
  assert (Hp : below bucket (partPrefix id key) bucket (nextPartKey g id key) = true).
  { unfold below, nextPartKey. rewrite bool_decide_eq_true_2 by reflexivity.
    cbn. apply prefix_app. }
  assert (Hframe : forall b k, below bucket (partPrefix id key) b k = false ->
            objects g2 !! (b, k) = objects g !! (b, k)).
  { intros b k Hb. rewrite (Hout b k Hb). subst g1. cbn.
    apply lookup_insert_ne. intros [= <- <-]. congruence. }
  eexists _, g1, g2. split; [exact Hup|]. cbn [ID].
  split; [subst g1; cbn; apply lookup_insert_eq|].
  split; [exact Hrun|]. split; [now apply Hin|]. split; [exact Hin|].
  split; [exact Hframe|].
  intros Hfresh. apply map_eq. intros [b k].
  destruct (below bucket (partPrefix id key) b k) eqn:Hb.
  - rewrite (Hin b k Hb). unfold below in Hb. apply andb_true_iff in Hb as [Hb Hk].
    apply bool_decide_eq_true in Hb. subst b. symmetry. now apply Hfresh.
  - now apply Hframe.
Qed.

End GcpDelete.

(** ** AppendToObject when the completion fails, on Google Storage *)

Section GcpAppendFailure.

Import objval objerr objgcp.

Lemma UploadPart_written (bucket id key : string) (number : Z) (data : bytes) (g : service) :
  faults g (ReqWrite bucket (nextPartKey g id key) data) = None ->
  UploadPart bucket id key number data g
    = Ret (({| ID := nextPartKey g id key; Number := number;
               PartSize := Z.of_nat (length data) |}, None),
           record (ReqWrite bucket (nextPartKey g id key) data) None
             (withObjects (<[(bucket, nextPartKey g id key) := data]> (objects g))
                (afterDraw g))).
Proof.
  intros Hf. unfold UploadPart.
  rewrite (bind_Ret _ _ _ _ _ (partKey_run g id key)).
  assert (Hput : PutObject bucket (nextPartKey g id key) data (afterDraw g)
            = Ret (None,
                   record (ReqWrite bucket (nextPartKey g id key) data) None
                     (withObjects (<[(bucket, nextPartKey g id key) := data]> (objects g))
                        (afterDraw g)))).
  { rewrite gcp_PutObject_run. cbn. now rewrite Hf. }
  now rewrite (bind_Ret _ _ _ _ _ Hput).
Qed.

(** X7: [AppendToObject] does not abort the session it opens: when the merge of
    the object and the new part fails, the error is returned with its
    phase, the object is as it was, and the part uploaded for the new data
    stays in the bucket. *)
Theorem gcp_AppendToObject_failed_merge_leaves_part (g : service) (bucket key : string)
    (old data : bytes) (c : cause) :
  objects g !! (bucket, key) = Some old -> old <> [] ->
  faults g (ReqAttrs bucket key) = None ->
  faults g (ReqWrite bucket (generatedKey g key (drawn g)) data) = None ->
  faults g (ReqCompose bucket key [key; generatedKey g key (drawn g)]) = Some c ->
  exists e g',
    AppendToObject bucket key data g
      = Ret (Some (Errorf "failed to complete multipart upload" e), g') /\
    handleError bucket key (Some c) = Some e /\
    logged g' = logged g /\
    objects g' = <[(bucket, generatedKey g key (drawn g)) := data]> (objects g) /\
    objects g' !! (bucket, key) = Some old.
Proof.
  intros Hold Hne Hfa Hfw Hfc.
  set (I := generatedKey g key (drawn g)) in *.
  assert (HI : I <> key) by apply partPrefix_longer.
  unfold AppendToObject.
  rewrite (bind_Ret _ _ _ _ _ (gcp_GetObjectAttrs_found g bucket key old Hold Hfa)).
  set (g1 := record (ReqAttrs bucket key) None g).
  assert (Hsize : (Z.of_nat (length old) =? 0)%Z = false).
  { destruct old; [congruence|]. cbn [length]. apply Z.eqb_neq. lia. }
  cbn [IsNotFoundError deref]. unfold bind at 1. unfold bind at 1. cbn [ret Size].
  rewrite Hsize.
  assert (Hcreate : CreateMultipartUpload bucket key g1
            = Ret ((entropy g (drawn g), None), afterDraw g1)) by reflexivity.
  rewrite (bind_Ret _ _ _ _ _ Hcreate).
  assert (Hfw2 : faults (afterDraw g1)
                   (ReqWrite bucket (nextPartKey (afterDraw g1) (entropy g (drawn g)) key) data)
                 = None) by exact Hfw.
  rewrite (bind_Ret _ _ _ _ _
             (UploadPart_written bucket (entropy g (drawn g)) key 2 data (afterDraw g1) Hfw2)).
  change (nextPartKey (afterDraw g1) (entropy g (drawn g)) key) with I.
  set (g3 := record (ReqWrite bucket I data) None
               (withObjects (<[(bucket, I) := data]> (objects g)) (afterDraw (afterDraw g1)))).
  cbn [deref]. unfold bind at 1. cbn [ret].
  unfold CompleteMultipartUpload. cbn [map ID].
  destruct (handleError bucket key (Some c)) as [e|] eqn:He;
    [|apply handleError_None in He; discriminate].
  assert (Hmerge : complete (length [key; I]) bucket key [key; I] g3
            = Ret (Some e, record (ReqCompose bucket key [key; I]) (Some c) g3)).
  { rewrite complete_small by (cbn [length]; rewrite MaxComposable_eq; lia).
    unfold compose, svcCompose, perform, bind.
    change (faults g3) with (faults g). now rewrite Hfc, He. }
  match goal with
  | |- exists e' g', bind _ _ ?s = _ /\ _ => change s with g3
  end.
  unfold bind at 1.
  rewrite (bind_Ret _ _ _ _ _ Hmerge).
  exists e. eexists. split; [reflexivity|]. split; [reflexivity|].
  split; [reflexivity|]. split; [reflexivity|].
  cbn. rewrite lookup_insert_ne by congruence. exact Hold.
Qed.

End GcpAppendFailure.

(** ** What a failed append leaves behind, on S3 *)

Section AwsAppendAtomic.

Import objval objerr objaws.

(** What a call keeps of the service whatever the requests answer. *)
Definition settled (a a' : service) : Prop :=
  faults a' = faults a /\ entropy a' = entropy a /\ drawn a <= drawn a'.

Ltac settle :=
  repeat match goal with H : settled _ _ |- _ => destruct H as (? & ? & ?) end;
  repeat split; try discriminate; try assumption; try congruence; try (cbn; lia).

Lemma settled_refl (a : service) : settled a a.
Proof. now repeat split. Qed.

Lemma settled_trans (a b c : service) : settled a b -> settled b c -> settled a c.
Proof. intros (? & ? & ?) (? & ? & ?). repeat split; try congruence. lia. Qed.

(** A request either fails and changes nothing, or is answered. *)
Lemma aws_perform_cases {A : Type} (r : request)
    (sem : service -> cause + (A * gmap (string * string) bytes * gmap string (list uploaded)))
    (a : service) :
  (exists c, perform r sem a = Ret ((None, Some c), record r (Some c) a)) \/
  (exists x m u, faults a r = None /\ sem a = inr (x, m, u) /\
     perform r sem a = Ret ((Some x, None), record r None (update m u a))).
Proof.
  unfold perform. destruct (faults a r) as [c|]; [left; now exists c|].
  destruct (sem a) as [c|[[x m] u]]; [left; now exists c|].
  right. now exists x, m, u.
Qed.

Lemma aws_handleError_Some (bucket : string) (key : option string) (c : cause) :
  exists e, handleError bucket key (Some c) = Some e.
Proof.
  destruct (handleError bucket key (Some c)) as [e|] eqn:He; [now exists e|].
  unfold handleError in He. repeat case_match; congruence.
Qed.

Lemma aws_GetObjectAttrs_cases (bucket key : string) (a : service) :
  exists attrs err a',
    GetObjectAttrs bucket key a = Ret ((attrs, err), a') /\
    objects a' = objects a /\ uploads a' = uploads a /\ logged a' = logged a /\
    settled a a' /\ drawn a' = drawn a /\
    (err = None -> exists size, attrs = Some {| Key := key; Size := size |}).
Proof.
  unfold GetObjectAttrs, svcHeadObject.
  match goal with |- context [perform ?r ?sem] =>
    destruct (aws_perform_cases r sem a) as [(c & H)|(x & m & u & _ & Hs & H)] end;
    rewrite (bind_Ret _ _ _ _ _ H).
  - destruct (aws_handleError_Some bucket (Some key) c) as (e & He).
    eexists _, _, _. split; [reflexivity|]. rewrite He.
    settle.
  - destruct (objects a !! (bucket, key)); [|discriminate]. injection Hs as <- <- <-.
    eexists _, _, _. split; [reflexivity|].
    settle. intros _. now eexists.
Qed.

Lemma aws_GetObject_cases (bucket key : string) (a : service) :
  exists object err a',
    GetObject bucket key None a = Ret ((object, err), a') /\
    objects a' = objects a /\ uploads a' = uploads a /\ logged a' = logged a /\
    settled a a' /\ drawn a' = drawn a /\
    (err = None -> exists o, object = Some o).
Proof.
  unfold GetObject, svcGetObject. cbn [Valid].
  match goal with |- context [perform ?r ?sem] =>
    destruct (aws_perform_cases r sem a) as [(c & H)|(x & m & u & _ & Hs & H)] end;
    rewrite (bind_Ret _ _ _ _ _ H).
  - destruct (aws_handleError_Some bucket (Some key) c) as (e & He).
    eexists _, _, _. split; [reflexivity|]. rewrite He.
    settle.
  - destruct (objects a !! (bucket, key)); [|discriminate]. injection Hs as <- <- <-.
    eexists _, _, _. split; [reflexivity|].
    settle. intros _. now eexists.
Qed.

Lemma aws_PutObject_cases (bucket key : string) (d : bytes) (a : service) :
  exists err a',
    PutObject bucket key d a = Ret (err, a') /\
    uploads a' = uploads a /\ logged a' = logged a /\ settled a a' /\ drawn a' = drawn a /\
    (err <> None -> objects a' = objects a) /\
    (err = None -> objects a' = <[(bucket, key) := d]> (objects a)).
Proof.
  rewrite aws_PutObject_run. destruct (faults a _) as [c|].
  - destruct (aws_handleError_Some bucket (Some key) c) as (e & He). rewrite He.
    eexists _, _. split; [reflexivity|]. settle.
  - eexists _, _. split; [reflexivity|]. settle.
Qed.

(** The session a call of [CreateMultipartUpload] opens. *)
Lemma aws_CreateMultipartUpload_cases (bucket key : string) (a : service) :
  exists id err a',
    CreateMultipartUpload bucket key a = Ret ((id, err), a') /\
    objects a' = objects a /\ logged a' = logged a /\ settled a a' /\
    (err <> None -> uploads a' = uploads a) /\
    (err = None ->
       id = entropy a (drawn a) /\ uploads a' = <[id := []]> (uploads a)) /\
    (faults a (ReqCreateMultipartUpload bucket key) = None -> err = None).
Proof.
  unfold CreateMultipartUpload, svcCreateMultipartUpload, NewString, bind. cbv beta.
  match goal with |- context [perform ?r ?sem ?s] =>
    destruct (aws_perform_cases r sem s) as [(c & H)|(x & m & u & Hf & Hs & H)];
    [assert (Hfc : faults a r = None -> False)|] end.
  { unfold perform in H. cbn [faults] in H. intros Hf. rewrite Hf in H. cbn in H.
    discriminate. }
  all: rewrite H; cbv beta iota.
  - destruct (aws_handleError_Some bucket (Some key) c) as (e & He). rewrite He.
    eexists _, _, _. split; [reflexivity|].
    settle.
  - injection Hs as <- <- <-.
    eexists _, _, _. split; [reflexivity|]. settle.
Qed.

(** The upload requests keep the objects, and change only their own
    session. *)
Definition sessionOnly (id : string) (a a' : service) : Prop :=
  objects a' = objects a /\ logged a' = logged a /\ settled a a' /\
  forall (U : gmap string (list uploaded)) (ps : list uploaded),
    uploads a = <[id := ps]> U -> exists ps', uploads a' = <[id := ps']> U.

Lemma sessionOnly_trans (id : string) (a b c : service) :
  sessionOnly id a b -> sessionOnly id b c -> sessionOnly id a c.
Proof.
  intros (Ho & Hl & Hs & Hu) (Ho' & Hl' & Hs' & Hu').
  split; [congruence|]. split; [congruence|]. split; [eapply settled_trans; eassumption|].
  intros U ps HU. destruct (Hu U ps HU) as (ps' & HU'). now apply (Hu' U ps').
Qed.

Lemma aws_UploadPartCopy_cases (bucket id dst src : string) (number : Z)
    (br : option ByteRange) (a : service) :
  exists part err a',
    UploadPartCopy bucket id dst src number br a = Ret ((part, err), a') /\
    sessionOnly id a a'.
Proof.
  unfold UploadPartCopy. destruct (Valid br true) as [e|] eqn:Hv.
  - eexists _, _, _. split; [reflexivity|].
    split; [reflexivity|]. split; [reflexivity|]. split; [apply settled_refl|].
    intros U ps HU. now exists ps.
  - destruct br as [range|]; [|discriminate]. cbn [deref]. unfold bind at 1. cbn [ret].
    unfold svcUploadPartCopy, NewString, bind. cbv beta.
    match goal with |- context [perform ?r ?sem ?s] =>
      destruct (aws_perform_cases r sem s) as [(c & H)|(x & m & u & Hf & Hs & H)] end;
      rewrite H; cbv beta iota.
    + destruct (aws_handleError_Some bucket (Some dst) c) as (e & He). rewrite He.
      eexists _, _, _. split; [reflexivity|].
      split; [reflexivity|]. split; [reflexivity|].
      split; [repeat split; cbn; lia|].
      intros U ps HU. now exists ps.
    + cbn [uploads objects] in Hs.
      destruct (uploads a !! id) as [ps0|] eqn:Hid; [|discriminate].
      destruct (objects a !! (bucket, src)) as [d|]; [|discriminate].
      injection Hs as <- <- <-.
      eexists _, _, _. split; [reflexivity|].
      split; [reflexivity|]. split; [reflexivity|].
      split; [repeat split; cbn; lia|].
      intros U ps HU. cbn. rewrite HU. eexists. apply insert_insert_eq.
Qed.

Lemma aws_UploadPart_cases (bucket id key : string) (number : Z) (body : bytes)
    (a : service) :
  exists part err a',
    UploadPart bucket id key number body a = Ret ((part, err), a') /\
    sessionOnly id a a'.
Proof.
  unfold UploadPart, svcUploadPart, NewString, bind. cbv beta.
  match goal with |- context [perform ?r ?sem ?s] =>
    destruct (aws_perform_cases r sem s) as [(c & H)|(x & m & u & Hf & Hs & H)] end;
    rewrite H; cbv beta iota.
  - destruct (aws_handleError_Some bucket (Some key) c) as (e & He). rewrite He.
    eexists _, _, _. split; [reflexivity|].
    split; [reflexivity|]. split; [reflexivity|].
    split; [repeat split; cbn; lia|].
    intros U ps HU. now exists ps.
  - cbn [uploads objects] in Hs.
    destruct (uploads a !! id) as [ps0|] eqn:Hid; [|discriminate].
    injection Hs as <- <- <-.
    eexists _, _, _. split; [reflexivity|].
    split; [reflexivity|]. split; [reflexivity|].
    split; [repeat split; cbn; lia|].
    intros U ps HU. cbn. rewrite HU. eexists. apply insert_insert_eq.
Qed.

Lemma aws_CompleteMultipartUpload_cases (bucket id key : string) (parts : list Part)
    (a : service) :
  exists err a',
    CompleteMultipartUpload bucket id key parts a = Ret (err, a') /\
    logged a' = logged a /\ settled a a' /\
    (err <> None -> objects a' = objects a /\ uploads a' = uploads a) /\
    (err = None ->
       (exists d, objects a' = <[(bucket, key) := d]> (objects a)) /\
       uploads a' = delete id (uploads a)).
Proof.
  unfold CompleteMultipartUpload, svcCompleteMultipartUpload.
  match goal with |- context [perform ?r ?sem] =>
    destruct (aws_perform_cases r sem a) as [(c & H)|(x & m & u & Hf & Hs & H)] end;
    rewrite (bind_Ret _ _ _ _ _ H).
  - eexists _, _. split; [reflexivity|]. split; [reflexivity|].
    split; [settle|]. cbn. split; [now split | discriminate].
  - destruct (uploads a !! id) as [ps0|]; [|discriminate].
    match type of Hs with context [assemble ?ps ?l] => destruct (assemble ps l) as [d|] end;
      [|discriminate].
    injection Hs as <- <- <-.
    eexists _, _. split; [reflexivity|]. split; [reflexivity|].
    split; [settle|]. cbn. split; [congruence|].
    intros _. split; [now exists d | reflexivity].
Qed.

Lemma aws_AbortMultipartUpload_cases (bucket id key : string) (a : service) :
  exists err a',
    AbortMultipartUpload bucket id key a = Ret (err, a') /\
    objects a' = objects a /\ logged a' = logged a /\ settled a a' /\
    (err <> None -> uploads a' = uploads a) /\
    (err = None -> uploads a' = delete id (uploads a)) /\
    (faults a (ReqAbortMultipartUpload bucket key id) = None ->
     uploads a !! id <> None -> err = None).
Proof.
  unfold AbortMultipartUpload, svcAbortMultipartUpload, perform, bind.
  destruct (faults a _) as [c|].
  - eexists _, _. split; [reflexivity|]. cbn.
    settle.
  - destruct (uploads a !! id) as [ps|] eqn:Hid.
    + eexists _, _. split; [reflexivity|]. cbn.
      settle.
    + eexists _, _. split; [reflexivity|]. cbn.
      settle.
Qed.


Lemma aws_downloadAndAppend_cases (bucket : string) (attrs : ObjectAttrs) (data : bytes)
    (a : service) :
  exists err a',
    downloadAndAppend bucket attrs data a = Ret (err, a') /\
    uploads a' = uploads a /\ logged a' = logged a /\
    (err <> None -> objects a' = objects a) /\
    (err = None -> exists d, objects a' = <[(bucket, Key attrs) := d]> (objects a)).
Proof.
  unfold downloadAndAppend.
  destruct (aws_GetObject_cases bucket (Key attrs) a)
    as (object & err & a1 & H & Ho & Hu & Hl & _ & _ & Hobj).
  rewrite (bind_Ret _ _ _ _ _ H). destruct err as [e|].
  - eexists _, _. split; [reflexivity|]. settle.
  - destruct (Hobj eq_refl) as (o & ->). cbn [deref]. unfold bind at 1. cbn [ret].
    destruct (aws_PutObject_cases bucket (Key attrs) (Body o ++ data) a1)
      as (err & a2 & H2 & Hu2 & Hl2 & _ & _ & Hfail & Hok).
    rewrite (bind_Ret _ _ _ _ _ H2). destruct err as [e|].
    + eexists _, _. split; [reflexivity|]. settle. intros _. rewrite Hfail; congruence.
    + eexists _, _. split; [reflexivity|]. settle. intros _. eexists.
      rewrite (Hok eq_refl). now rewrite Ho.
Qed.

Lemma aws_copyAndAppend_cases (bucket id : string) (attrs : ObjectAttrs) (data : bytes)
    (a : service) :
  exists err a',
    copyAndAppend bucket id attrs data a = Ret (err, a') /\
    logged a' = logged a /\ settled a a' /\
    (err <> None -> sessionOnly id a a') /\
    (err = None ->
       (exists d, objects a' = <[(bucket, Key attrs) := d]> (objects a)) /\
       forall (U : gmap string (list uploaded)) (ps : list uploaded),
         uploads a = <[id := ps]> U -> uploads a' = delete id U).
Proof.
  unfold copyAndAppend.
  destruct (aws_UploadPartCopy_cases bucket id (Key attrs) (Key attrs) 1
              (Some {| Start := 0; End_ := Size attrs - 1 |}) a)
    as (copied & err & a1 & H & Hs1).
  rewrite (bind_Ret _ _ _ _ _ H). destruct err as [e|].
  { eexists _, _. split; [reflexivity|].
    destruct Hs1 as (? & ? & ? & ?). settle. }
  destruct (aws_UploadPart_cases bucket id (Key attrs) 2 data a1)
    as (appended & err & a2 & H2 & Hs2).
  rewrite (bind_Ret _ _ _ _ _ H2).
  pose proof (sessionOnly_trans id a a1 a2 Hs1 Hs2) as Hs12.
  destruct err as [e|].
  { eexists _, _. split; [reflexivity|].
    destruct Hs12 as (? & ? & ? & ?). settle. }
  destruct (aws_CompleteMultipartUpload_cases bucket id (Key attrs) [copied; appended] a2)
    as (err & a3 & H3 & Hl3 & Hst3 & Hfail & Hok).
  rewrite (bind_Ret _ _ _ _ _ H3).
  destruct Hs12 as (Ho & Hl & Hst & Hu).
  destruct err as [e|].
  - destruct Hfail as [Ho3 Hu3]; [discriminate|].
    eexists _, _. split; [reflexivity|].
    split; [congruence|]. split; [eapply settled_trans; eassumption|].
    split; [|discriminate]. intros _.
    split; [congruence|]. split; [congruence|].
    split; [eapply settled_trans; eassumption|].
    intros U ps HU. rewrite Hu3. now apply (Hu U ps).
  - destruct (Hok eq_refl) as [(d & Hd) Hu3].
    eexists _, _. split; [reflexivity|].
    split; [congruence|]. split; [eapply settled_trans; eassumption|].
    split; [congruence|]. intros _. split.
    + exists d. now rewrite Hd, Ho.
    + intros U ps HU. destruct (Hu U ps HU) as (ps' & HU').
      rewrite Hu3, HU'. apply delete_insert_eq.
Qed.

(** The session [createMPUThenCopyAndAppend] opens is gone when it
    returns, unless the abort request itself fails. *)
Lemma aws_createMPUThenCopyAndAppend_cases (bucket : string) (attrs : ObjectAttrs)
    (data : bytes) (a : service) :
  exists err a',
    createMPUThenCopyAndAppend bucket attrs data a = Ret (err, a') /\
    (err <> None -> objects a' = objects a) /\
    (err = None -> exists d, objects a' = <[(bucket, Key attrs) := d]> (objects a)) /\
    (faults a (ReqCreateMultipartUpload bucket (Key attrs)) = None ->
     faults a (ReqAbortMultipartUpload bucket (Key attrs) (entropy a (drawn a))) = None ->
     uploads a' = delete (entropy a (drawn a)) (uploads a) /\ logged a' = logged a).
Proof.
  unfold createMPUThenCopyAndAppend.
  destruct (aws_CreateMultipartUpload_cases bucket (Key attrs) a)
    as (id & err & a1 & H & Ho & Hl & Hst & Hfail & Hok & Hnf).
  rewrite (bind_Ret _ _ _ _ _ H). destruct err as [e|].
  { eexists _, _. split; [reflexivity|]. split; [intros _; exact Ho|]. split; [discriminate|].
    intros Hf. specialize (Hnf Hf). discriminate. }
  destruct (Hok eq_refl) as [-> Hu]. clear Hok Hfail Hnf.
  set (id := entropy a (drawn a)) in *.
  destruct (aws_copyAndAppend_cases bucket id attrs data a1)
    as (err & a2 & H2 & Hl2 & Hst2 & Hfail2 & Hok2).
  rewrite (bind_Ret _ _ _ _ _ H2). destruct err as [e|].
  - destruct Hfail2 as (Ho2 & _ & _ & Hu2); [discriminate|].
    destruct (Hu2 (uploads a) [] Hu) as (ps' & Hu2').
    destruct (aws_AbortMultipartUpload_cases bucket id (Key attrs) a2)
      as (abortErr & a3 & H3 & Ho3 & Hl3 & Hst3 & Hfail3 & Hok3 & Hnf3).
    rewrite (bind_Ret _ _ _ _ _ H3).
    assert (Hfa : faults a2 = faults a)
      by (destruct Hst as (Hx & _), Hst2 as (Hy & _); congruence).
    destruct abortErr as [ae|].
    + eexists _, _. split; [reflexivity|]. cbn.
      split; [intros _; congruence|]. split; [discriminate|].
      intros _ Hf. exfalso. rewrite <- Hfa in Hf.
      specialize (Hnf3 Hf). rewrite Hu2', lookup_insert_eq in Hnf3.
      now specialize (Hnf3 ltac:(discriminate)).
    + eexists _, _. split; [reflexivity|]. cbn.
      split; [intros _; congruence|]. split; [discriminate|].
      intros _ _. rewrite (Hok3 eq_refl), Hu2', delete_insert_eq.
      split; [reflexivity | congruence].
  - destruct (Hok2 eq_refl) as [(d & Hd) Hu2].
    eexists _, _. split; [reflexivity|].
    split; [congruence|]. split; [intros _; exists d; congruence|].
    intros _ _. rewrite (Hu2 (uploads a) [] Hu). split; [reflexivity | congruence].
Qed.

(** X8: [AppendToObject] is all or nothing for the objects: on every service,
    whatever requests fail, the call returns; when it returns an error no
    object has changed, and when it returns nil the only object written
    is the one at the key. *)
Theorem aws_AppendToObject_all_or_nothing (MinUploadSize : Z) (a : service)
    (bucket key : string) (data : bytes) :
  exists res a',
    AppendToObject MinUploadSize bucket key data a = Ret (res, a') /\
    (res <> None -> objects a' = objects a) /\
    (res = None -> exists d, objects a' = <[(bucket, key) := d]> (objects a)).
Proof.
  unfold AppendToObject.
  destruct (aws_GetObjectAttrs_cases bucket key a)
    as (attrs & err & a1 & H & Ho & _ & _ & _ & _ & Hattrs).
  rewrite (bind_Ret _ _ _ _ _ H).
  destruct (IsNotFoundError err).
  { destruct (aws_PutObject_cases bucket key data a1)
      as (res & a2 & H2 & _ & _ & _ & _ & Hfail & Hok).
    exists res, a2. split; [exact H2|]. split.
    - intros Hr. rewrite (Hfail Hr). exact Ho.
    - intros Hr. exists data. rewrite (Hok Hr). now rewrite Ho. }
  destruct err as [e|].
  { eexists _, _. split; [reflexivity|]. split; [now intros _ | discriminate]. }
  destruct (Hattrs eq_refl) as (size & ->). cbn [deref]. unfold bind at 1. cbn [ret Size].
  destruct (size <? MinUploadSize)%Z.
  - destruct (aws_downloadAndAppend_cases bucket {| Key := key; Size := size |} data a1)
      as (res & a2 & H2 & _ & _ & Hfail & Hok).
    exists res, a2. split; [exact H2|]. split.
    + intros Hr. rewrite (Hfail Hr). exact Ho.
    + intros Hr. destruct (Hok Hr) as (d & Hd). exists d. now rewrite Hd, Ho.
  - destruct (aws_createMPUThenCopyAndAppend_cases bucket {| Key := key; Size := size |} data a1)
      as (res & a2 & H2 & Hfail & Hok & _).
    exists res, a2. split; [exact H2|]. split.
    + intros Hr. rewrite (Hfail Hr). exact Ho.
    + intros Hr. destruct (Hok Hr) as (d & Hd). exists d. now rewrite Hd, Ho.
Qed.

(** X9: At or above the threshold [AppendToObject] opens a session; whether
    the copy, the upload and the completion succeed or not, the session is
    gone when the call returns and nothing is logged, as long as the
    requests that open and abort the session are answered. *)
Theorem aws_AppendToObject_closes_session (MinUploadSize : Z) (a : service)
    (bucket key : string) (old data : bytes) :
  objects a !! (bucket, key) = Some old ->
  (MinUploadSize <= Z.of_nat (length old))%Z ->
  faults a (ReqHeadObject bucket key) = None ->
  faults a (ReqCreateMultipartUpload bucket key) = None ->
  faults a (ReqAbortMultipartUpload bucket key (entropy a (drawn a))) = None ->
  exists res a',
    AppendToObject MinUploadSize bucket key data a = Ret (res, a') /\
    uploads a' = delete (entropy a (drawn a)) (uploads a) /\
    logged a' = logged a /\
    (uploads a !! entropy a (drawn a) = None -> uploads a' = uploads a).
Proof.
  intros Hold Hsize Hfh Hfc Hfa. unfold AppendToObject.
  assert (Hattrs : GetObjectAttrs bucket key a
            = Ret ((Some {| Key := key; Size := Z.of_nat (length old) |}, None),
                   record (ReqHeadObject bucket key) None a)).
  { unfold GetObjectAttrs, svcHeadObject, perform, bind. rewrite Hfh, Hold.
    cbn. now destruct a. }
  rewrite (bind_Ret _ _ _ _ _ Hattrs). cbn [IsNotFoundError deref].
  unfold bind at 1. cbn [ret Size].
  destruct (Z.ltb_spec (Z.of_nat (length old)) MinUploadSize) as [Hlt|_]; [lia|].
  set (a1 := record (ReqHeadObject bucket key) None a).
  destruct (aws_createMPUThenCopyAndAppend_cases bucket
              {| Key := key; Size := Z.of_nat (length old) |} data a1)
    as (res & a2 & H2 & _ & _ & Hsession).
  destruct (Hsession Hfc Hfa) as [Hu Hl].
  exists res, a2. split; [exact H2|]. split; [exact Hu|]. split; [exact Hl|].
  intros Hfresh. rewrite Hu. now apply delete_id.
Qed.

End AwsAppendAtomic.

(** ** DeleteDirectory on S3 *)

Section AwsDeleteDirectory.

Import objval objerr objaws.

Variable PageSize : nat.

Lemma concat_chunksFuel {A : Type} (n fuel : nat) :
  forall l : list A, concat (chunksFuel fuel n l) = l.
Proof.
  induction fuel as [|fuel IH]; intros [|x l]; try reflexivity.
  - cbn. now rewrite app_nil_r.
  - cbn [chunksFuel concat]. rewrite IH. apply take_drop.
Qed.

(** The pages of a listing together hold its entries. *)
Lemma concat_pages {A : Type} (entries : list A) :
  concat (match chunks PageSize entries with [] => [[]] | ps => ps end) = entries.
Proof.
  pose proof (concat_chunksFuel PageSize (length entries) entries) as H.
  fold (chunks PageSize entries) in H.
  destruct (chunks PageSize entries); [exact H | exact H].
Qed.

(** The listing has the objects of the bucket below the prefix. *)
Lemma listed_keys (a : service) (bucket prefix k : string) :
  In k (map ObjKey (omap (listed bucket prefix) (map_to_list (objects a)))) <->
  exists d, objects a !! (bucket, k) = Some d /\ String.prefix prefix k = true.
Proof.
  rewrite in_map_iff. split.
  - intros (o & <- & Ho). apply list_elem_of_In, list_elem_of_omap in Ho.
    destruct Ho as ([[b k'] d] & Hin & Hl). apply elem_of_map_to_list in Hin.
    unfold listed in Hl.
    destruct (bool_decide_reflect (b = bucket)) as [->|]; [|discriminate]. cbn in Hl.
    destruct (String.prefix prefix k') eqn:Hp; [|discriminate].
    injection Hl as <-. now exists d.
  - intros (d & Hd & Hp). exists {| ObjKey := k; ObjSize := Z.of_nat (length d) |}.
    split; [reflexivity|]. apply list_elem_of_In, list_elem_of_omap.
    exists (bucket, k, d). split; [now apply elem_of_map_to_list|].
    unfold listed. rewrite bool_decide_eq_true_2 by reflexivity. cbn. now rewrite Hp.
Qed.

(** A batch delete touches no key outside the batch. *)
Lemma deleteEach_frame (a : service) (bucket : string) (keys : list string) :
  forall (m : gmap (string * string) bytes) (b k : string),
    ~ (b = bucket /\ In k keys) ->
    (deleteEach a bucket keys m).2 !! (b, k) = m !! (b, k).
Proof.
  induction keys as [|key keys IH]; intros m b k Hn; [reflexivity|].
  assert (Hn' : ~ (b = bucket /\ In k keys))
    by (intros [? ?]; apply Hn; split; [|right]; assumption).
  cbn [deleteEach]. destruct (keyFaults a bucket key) as [[code message]|].
  - specialize (IH m b k Hn'). now destruct (deleteEach a bucket keys m).
  - destruct (reportMissing a && bool_decide (m !! (bucket, key) = None)).
    + specialize (IH m b k Hn'). now destruct (deleteEach a bucket keys m).
    + rewrite IH by exact Hn'. apply lookup_delete_ne.
      intros [= <- <-]. apply Hn. split; [|left]; reflexivity.
Qed.

Lemma deleteObjects_removes (bucket : string) (batch : list string) (a : service) :
  awsHealthy a bucket ->
  exists a',
    deleteObjects bucket batch a = Ret (None, a') /\
    awsHealthy a' bucket /\ logged a' = logged a /\
    (forall k, In k batch -> objects a' !! (bucket, k) = None) /\
    (forall x, objects a !! x = None -> objects a' !! x = None) /\
    (forall b k, ~ (b = bucket /\ In k batch) -> objects a' !! (b, k) = objects a !! (b, k)).
Proof.
  intros Ha.
  destruct (deleteObjects_healthy bucket batch a Ha) as (a' & Hrun & Ha' & Hin & Hmono).
  exists a'. split; [exact Hrun|]. split; [exact Ha'|].
  revert Hrun. unfold deleteObjects, svcDeleteObjects, perform, bind.
  destruct Ha as [Hnf Hnk]. rewrite Hnf.
  pose proof (deleteEach_frame a bucket batch (objects a)) as Hframe.
  destruct (deleteEach a bucket batch (objects a)) as [errs m]. cbn [fst snd] in *.
  cbn. intros [= _ <-]. cbn. repeat split; auto.
Qed.

(** The pages of [DeleteDirectory], on a service that fails nothing. *)
Lemma pagesLoop_removes (bucket prefix : string) (pages : list (list s3Object)) :
  forall (n : nat) (a : service),
    awsHealthy a bucket ->
    exists a',
      pagesLoop bucket prefix (fun page => deleteObjects bucket (map ObjKey page)) pages n a
        = Ret ((None, None), a') /\
      logged a' = logged a /\
      (forall k, In k (map ObjKey (concat pages)) -> objects a' !! (bucket, k) = None) /\
      (forall x, objects a !! x = None -> objects a' !! x = None) /\
      (forall b k, ~ (b = bucket /\ In k (map ObjKey (concat pages))) ->
         objects a' !! (b, k) = objects a !! (b, k)).
Proof.
  induction pages as [|page pages IH]; intros n a Ha.
  - exists a. cbn. repeat split; [now intros ? [] | auto].
  - cbn [pagesLoop]. unfold perform, bind at 1. rewrite (proj1 Ha). cbv beta iota.
    set (a0 := record (ReqListObjectsV2 bucket prefix n) None
                 (update (objects a) (uploads a) a)).
    assert (Ha0 : awsHealthy a0 bucket) by exact Ha.
    destruct (deleteObjects_removes bucket (map ObjKey page) a0 Ha0)
      as (a1 & Hdel & Ha1 & Hl1 & Hin1 & Hmono1 & Hframe1).
    rewrite (bind_Ret _ _ _ _ _ Hdel).
    destruct (IH (S n) a1 Ha1) as (a2 & Hrun & Hl2 & Hin2 & Hmono2 & Hframe2).
    exists a2. split; [exact Hrun|]. split; [now rewrite Hl2, Hl1|].
    cbn [concat]. rewrite map_app. split; [|split].
    + intros k [Hk|Hk]%in_app_or; [apply Hmono2, Hin1, Hk | now apply Hin2].
    + intros x Hx. apply Hmono2, Hmono1. exact Hx.
    + intros b k Hn.
      rewrite Hframe2 by (intros [? ?]; apply Hn; split; [|apply in_or_app; right]; assumption).
      rewrite Hframe1 by (intros [? ?]; apply Hn; split; [|apply in_or_app; left]; assumption).
      reflexivity.
Qed.

(** X10: [DeleteDirectory] on a service that fails nothing returns nil, leaves
    no object of the bucket whose key starts with the prefix, and touches
    no other object. *)
Theorem aws_DeleteDirectory_removes_prefix (a : service) (bucket prefix : string) :
  awsHealthy a bucket ->
  exists a',
    DeleteDirectory PageSize bucket prefix a = Ret (None, a') /\
    logged a' = logged a /\
    forall b k,
      objects a' !! (b, k)
        = if bool_decide (b = bucket) && String.prefix prefix k
          then None else objects a !! (b, k).
Proof.
  intros Ha. unfold DeleteDirectory, svcListObjectsV2Pages, bind. cbv beta zeta.
  set (entries := omap (listed bucket prefix) (map_to_list (objects a))).
  destruct (pagesLoop_removes bucket prefix
              (match chunks PageSize entries with [] => [[]] | ps => ps end) 0 a Ha)
    as (a' & Hrun & Hl & Hin & Hmono & Hframe).
  rewrite concat_pages in Hin, Hframe.
  rewrite Hrun. cbv beta iota.
  exists a'. split; [reflexivity|]. split; [exact Hl|].
  intros b k. destruct (bool_decide_reflect (b = bucket)) as [->|Hb]; cbn [andb].
  - destruct (String.prefix prefix k) eqn:Hp.
    + destruct (objects a !! (bucket, k)) as [d|] eqn:Hd; [|now apply Hmono].
      apply Hin, listed_keys. now exists d.
    + apply Hframe. intros [_ Hk]. apply listed_keys in Hk as (d & _ & Hp'). congruence.
  - apply Hframe. now intros [? _].
Qed.

(** The pages of [DeleteDirectory] when the listing requests are answered:
    the loop returns, with whatever error the callback assigned. *)
Lemma pagesLoop_delete_run (bucket prefix : string) (pages : list (list s3Object)) :
  forall (n : nat) (a : service),
    (forall i, faults a (ReqListObjectsV2 bucket prefix i) = None) ->
    exists cbErr a',
      pagesLoop bucket prefix (fun page => deleteObjects bucket (map ObjKey page)) pages n a
        = Ret ((None, cbErr), a') /\
      ((forall keys, faults a (ReqDeleteObjects bucket keys true) <> None) ->
       objects a' = objects a /\ (pages <> [] -> cbErr <> None)).
Proof.
  induction pages as [|page pages IH]; intros n a Hlist.
  - exists None, a. cbn. split; [reflexivity|]. intros _. split; [reflexivity | congruence].
  - cbn [pagesLoop]. unfold perform, bind at 1. rewrite Hlist. cbv beta iota.
    set (a0 := record (ReqListObjectsV2 bucket prefix n) None
                 (update (objects a) (uploads a) a)).
    destruct (deleteObjects_run bucket (map ObjKey page) a0)
      as (err & a1 & res & Hdel & _ & Hfa & _ & Herr).
    rewrite (bind_Ret _ _ _ _ _ Hdel). destruct err as [e|].
    + exists (Some e), a1. split; [reflexivity|]. intros Hall.
      split; [|discriminate].
      revert Hdel. unfold deleteObjects, svcDeleteObjects, perform, bind.
      change (faults a0) with (faults a).
      destruct (faults a (ReqDeleteObjects bucket (map ObjKey page) true)) as [c|] eqn:Hf;
        [|now destruct (Hall _ Hf)].
      intros [= _ <-]. reflexivity.
    + destruct (IH (S n) a1) as (cbErr & a2 & Hrun & Hdrop).
      { intros i. rewrite Hfa. apply Hlist. }
      exists cbErr, a2. split; [exact Hrun|]. intros Hall. exfalso.
      assert (Hb : batchFails a0 bucket (map ObjKey page)) by (left; apply Hall).
      apply Herr in Hb. congruence.
Qed.

(** X11: [DeleteDirectory] returns only the error of the listing. When the
    listing requests are answered it returns nil whatever became of the
    batch deletes: also when each of them is failed by the provider and no
    object has been deleted. *)
Theorem aws_DeleteDirectory_drops_delete_errors (a : service) (bucket prefix : string) :
  (forall i, faults a (ReqListObjectsV2 bucket prefix i) = None) ->
  exists a',
    DeleteDirectory PageSize bucket prefix a = Ret (None, a') /\
    ((forall keys, faults a (ReqDeleteObjects bucket keys true) <> None) ->
     objects a' = objects a).
Proof.
  intros Hlist. unfold DeleteDirectory, svcListObjectsV2Pages, bind. cbv beta zeta.
  set (entries := omap (listed bucket prefix) (map_to_list (objects a))).
  destruct (pagesLoop_delete_run bucket prefix
              (match chunks PageSize entries with [] => [[]] | ps => ps end) 0 a Hlist)
    as (cbErr & a' & Hrun & Hdrop).
  rewrite Hrun. cbv beta iota.
  exists a'. split; [reflexivity|]. intros Hall. now apply Hdrop.
Qed.

End AwsDeleteDirectory.

(** ** IterateObjects and the reads, on S3 *)

Section AwsIterate.

Import objval objerr objaws.

Variable PageSize : nat.

(** A visitor that writes the key of each object it is given to the log. *)
Definition logKey (attrs : ObjectAttrs) : M service (option error) :=
  logErrorf (Key attrs) ;; ret None.

Definition kept (include exclude : option (list objcli.Regexp)) (k : string) : bool :=
  negb (objcli.ShouldIgnore k include exclude).

Lemma iterateObjects_logKey (include exclude : option (list objcli.Regexp))
    (objs : list s3Object) :
  forall a : service,
    exists a',
      iterateObjects objs include exclude logKey a = Ret (None, a') /\
      logged a' = logged a ++ List.filter (kept include exclude) (map ObjKey objs) /\
      objects a' = objects a /\ faults a' = faults a.
Proof.
  induction objs as [|o objs IH]; intros a.
  - exists a. cbn. now rewrite app_nil_r.
  - cbn [iterateObjects map List.filter]. unfold kept at 1.
    destruct (objcli.ShouldIgnore (ObjKey o) include exclude); cbn [negb].
    + apply IH.
    + unfold logKey at 1, logErrorf, bind, ret. cbn [Key].
      match goal with |- context [iterateObjects _ _ _ _ ?s] =>
        destruct (IH s) as (a' & Hrun & Hl & Ho & Hf) end.
      exists a'. split; [exact Hrun|]. rewrite Hl. cbn [logged].
      rewrite <- app_assoc. now repeat split.
Qed.

Lemma pagesLoop_logKey (bucket prefix : string)
    (include exclude : option (list objcli.Regexp)) (pages : list (list s3Object)) :
  forall (n : nat) (a : service),
    (forall i, faults a (ReqListObjectsV2 bucket prefix i) = None) ->
    exists a',
      pagesLoop bucket prefix (fun page => iterateObjects page include exclude logKey)
        pages n a = Ret ((None, None), a') /\
      logged a' = logged a ++ List.filter (kept include exclude) (map ObjKey (concat pages)) /\
      objects a' = objects a.
Proof.
  induction pages as [|page pages IH]; intros n a Hlist.
  - exists a. cbn. now rewrite app_nil_r.
  - cbn [pagesLoop]. unfold perform, bind at 1. rewrite Hlist. cbv beta iota.
    set (a0 := record (ReqListObjectsV2 bucket prefix n) None
                 (update (objects a) (uploads a) a)).
    destruct (iterateObjects_logKey include exclude page a0) as (a1 & Hit & Hl1 & Ho1 & Hf1).
    rewrite (bind_Ret _ _ _ _ _ Hit).
    destruct (IH (S n) a1) as (a2 & Hrun & Hl2 & Ho2).
    { intros i. rewrite Hf1. apply Hlist. }
    exists a2. split; [exact Hrun|]. split; [|now rewrite Ho2, Ho1].
    rewrite Hl2, Hl1. cbn [concat logged]. rewrite map_app, List.filter_app, <- app_assoc.
    reflexivity.
Qed.

Lemma listed_NoDup (a : service) (bucket prefix : string) :
  NoDup (map ObjKey (omap (listed bucket prefix) (map_to_list (objects a)))).
Proof.
  pose proof (NoDup_fst_map_to_list (objects a)) as Hnd.
  induction (map_to_list (objects a)) as [|[[b k] d] l IH]; [constructor|].
  cbn in Hnd. apply NoDup_cons in Hnd as [Hnotin Hnd]. specialize (IH Hnd).
  cbn [omap list_omap]. unfold listed at 1.
  destruct (bool_decide_reflect (b = bucket)) as [->|]; [|exact IH]. cbn [andb].
  destruct (String.prefix prefix k); [|exact IH].
  cbn [map ObjKey]. apply NoDup_cons. split; [|exact IH].
  intros Hin. apply Hnotin.
  apply list_elem_of_In, in_map_iff in Hin as (o & Hk & Ho).
  apply list_elem_of_In, list_elem_of_omap in Ho as ([[b' k'] d'] & Hin' & Hl).
  unfold listed in Hl.
  destruct (bool_decide_reflect (b' = bucket)) as [->|]; [|discriminate]. cbn in Hl.
  destruct (String.prefix prefix k'); [|discriminate]. injection Hl as <-.
  cbn in Hk. subst k'. apply list_elem_of_fmap. now exists (bucket, k, d').
Qed.

(** X12: [IterateObjects] gives the visitor each object of the bucket whose key
    starts with the prefix and is kept by the patterns, once, and no other
    key; the objects are not touched. *)
Theorem aws_IterateObjects_visits_once (a : service) (bucket prefix : string)
    (include exclude : option (list objcli.Regexp)) :
  include = None \/ exclude = None ->
  (forall i, faults a (ReqListObjectsV2 bucket prefix i) = None) ->
  exists a' visited,
    IterateObjects PageSize bucket prefix include exclude logKey a = Ret (None, a') /\
    logged a' = logged a ++ visited /\
    objects a' = objects a /\
    NoDup visited /\
    forall k, In k visited <->
      (exists d, objects a !! (bucket, k) = Some d /\ String.prefix prefix k = true) /\
      objcli.ShouldIgnore k include exclude = false.
Proof.
  intros Hone Hlist.
  set (entries := omap (listed bucket prefix) (map_to_list (objects a))).
  assert (Hrun : exists a',
            IterateObjects PageSize bucket prefix include exclude logKey a = Ret (None, a') /\
            logged a' = logged a ++ List.filter (kept include exclude) (map ObjKey entries) /\
            objects a' = objects a).
  { destruct (pagesLoop_logKey bucket prefix include exclude
                (match chunks PageSize entries with [] => [[]] | ps => ps end) 0 a Hlist)
      as (a' & Hrun & Hl & Ho).
    rewrite (concat_pages PageSize) in Hl.
    exists a'. split; [|now split].
    unfold IterateObjects.
    assert (Hgo : bind (svcListObjectsV2Pages PageSize bucket prefix
                          (fun page => iterateObjects page include exclude logKey))
                    (fun pat => match pat with
                                | (Some c, _) => ret (handleError bucket None (Some c))
                                | (None, err) => ret err
                                end) a = Ret (None, a')).
    { unfold svcListObjectsV2Pages, bind. cbv beta zeta. fold entries. now rewrite Hrun. }
    destruct Hone as [-> | ->]; [exact Hgo|]. destruct include; exact Hgo. }
  destruct Hrun as (a' & Hrun & Hl & Ho).
  exists a', (List.filter (kept include exclude) (map ObjKey entries)).
  split; [exact Hrun|]. split; [exact Hl|]. split; [exact Ho|]. split.
  - apply NoDup_ListNoDup, List.NoDup_filter, NoDup_ListNoDup, listed_NoDup.
  - intros k. rewrite List.filter_In. unfold entries. rewrite listed_keys.
    unfold kept. now rewrite negb_true_iff.
Qed.

(** X13: What [PutObject] has written is what [GetObject] and [GetObjectAttrs]
    return: the body, and its length as the size. *)
Theorem aws_PutObject_then_read (a : service) (bucket key : string) (data : bytes) :
  faults a (ReqPutObject bucket key data) = None ->
  faults a (ReqGetObject bucket key None) = None ->
  faults a (ReqHeadObject bucket key) = None ->
  exists a1 a2 a3,
    PutObject bucket key data a = Ret (None, a1) /\
    GetObject bucket key None a1
      = Ret ((Some {| Attrs := {| Key := key; Size := Z.of_nat (length data) |};
                      Body := data |}, None), a2) /\
    GetObjectAttrs bucket key a2
      = Ret ((Some {| Key := key; Size := Z.of_nat (length data) |}, None), a3) /\
    objects a3 = <[(bucket, key) := data]> (objects a).
Proof.
  intros Hp Hg Hh. rewrite aws_PutObject_run, Hp.
  eexists _, _, _. split; [reflexivity|]. split.
  { unfold GetObject, svcGetObject, perform, bind.
    cbn [Valid faults record update objects]. rewrite Hg, lookup_insert_eq. reflexivity. }
  split.
  { unfold GetObjectAttrs, svcHeadObject, perform, bind.
    cbn [faults record update objects]. rewrite Hh, lookup_insert_eq. reflexivity. }
  reflexivity.
Qed.

End AwsIterate.

(** ** The patterns and the errors of the visitor, on Google Storage *)

Section GcpIterate.

Import objval objerr objgcp.

(** The visitor of [DeleteDirectory]. *)
Definition deleteVisited (bucket : string) (attrs : ObjectAttrs) : M service (option error) :=
  DeleteObjects bucket [Key attrs].

Lemma iterate_delete_kept (bucket : string) (include exclude : option (list objcli.Regexp))
    (entries : list remoteAttrs) :
  forall g : service,
    gcpHealthy g ->
    (forall r, In r entries -> Prefix r = "") ->
    exists g',
      iterate include exclude (deleteVisited bucket) entries None g = Ret (None, g') /\
      sameSettings g g' /\
      (forall k, In k (map Name entries) -> objcli.ShouldIgnore k include exclude = false ->
         objects g' !! (bucket, k) = None) /\
      (forall x, objects g !! x = None -> objects g' !! x = None) /\
      (forall b k,
         ~ (b = bucket /\ In k (map Name entries) /\
            objcli.ShouldIgnore k include exclude = false) ->
         objects g' !! (b, k) = objects g !! (b, k)).
Proof.
  induction entries as [|r entries IH]; intros g Hh Hobj.
  - exists g. cbn. repeat split; [now intros ? [] | auto].
  - cbn [iterate].
    assert (Hrest : forall r', In r' entries -> Prefix r' = "")
      by (intros r' Hr'; apply Hobj; now right).
    destruct (objcli.ShouldIgnore (Name r) include exclude) eqn:Hig.
    + destruct (IH g Hh Hrest) as (g' & Hrun & Hset & Hin & Hmono & Hframe).
      exists g'. split; [exact Hrun|]. split; [exact Hset|]. split; [|split].
      * intros k [<-|Hk] Hkeep; [congruence | now apply Hin].
      * exact Hmono.
      * intros b k Hn. apply Hframe. intros (? & ? & ?). apply Hn.
        split; [assumption|]. split; [now right | assumption].
    + rewrite (Hobj r) by now left. rewrite bool_decide_eq_true_2 by reflexivity.
      unfold deleteVisited at 1. cbn [Key].
      destruct (DeleteObjects_healthy bucket [Name r] g Hh)
        as (g1 & Hdel & (Hfa & Hen & Hlog) & Hdr & Hin1 & Hmono1 & Hframe1).
      rewrite (bind_Ret _ _ _ _ _ Hdel).
      assert (Hh1 : gcpHealthy g1) by (intros q; now rewrite Hfa).
      destruct (IH g1 Hh1 Hrest) as (g2 & Hrun & (Hfa2 & Hen2 & Hlog2) & Hin2 & Hmono2 & Hframe2).
      exists g2. split; [exact Hrun|].
      split; [repeat split; congruence|]. split; [|split].
      * intros k [<-|Hk] Hkeep; [|now apply Hin2].
        apply Hmono2, Hin1. now left.
      * intros x Hx. now apply Hmono2, Hmono1.
      * intros b k Hn.
        rewrite Hframe2
          by (intros (? & ? & ?); apply Hn; split; [|split; [right|]]; assumption).
        apply Hframe1. intros [-> [<-|[]]]. apply Hn.
        split; [reflexivity|]. split; [now left | exact Hig].
Qed.

(** X23: [IterateObjects] without a delimiter, with at most one set of
    patterns, and the visitor that deletes what it is given: on a service
    that fails no request exactly the objects below the prefix that the
    patterns keep are deleted; the ignored ones do not reach the
    visitor. *)
Theorem gcp_IterateObjects_deletes_kept (g : service) (bucket prefix : string)
    (include exclude : option (list objcli.Regexp)) :
  gcpHealthy g ->
  include = None \/ exclude = None ->
  exists g',
    IterateObjects bucket prefix "" include exclude (deleteVisited bucket) g = Ret (None, g') /\
    logged g' = logged g /\
    forall b k,
      objects g' !! (b, k)
        = if bool_decide (b = bucket) && String.prefix prefix k
             && negb (objcli.ShouldIgnore k include exclude)
          then None else objects g !! (b, k).
Proof.
  intros Hh Hone.
  set (entries := remove_dups (omap (listEntry bucket prefix "") (map_to_list (objects g)))).
  set (g0 := record (ReqObjects bucket prefix "") None g).
  assert (Hlist : svcObjects bucket prefix "" g = Ret ((entries, None), g0)).
  { unfold svcObjects. now rewrite Hh. }
  assert (Hh0 : gcpHealthy g0) by exact Hh.
  destruct (iterate_delete_kept bucket include exclude entries g0 Hh0)
    as (g' & Hrun & (_ & _ & Hlog) & Hin & Hmono & Hframe).
  { intros r Hr. apply list_elem_of_In, listing_flat in Hr.
    destruct Hr as (k & d & _ & _ & ->). reflexivity. }
  assert (Hgo : bind (svcObjects bucket prefix "")
                  (fun pat => match pat with
                              | (entries, last) =>
                                  iterate include exclude (deleteVisited bucket) entries last
                              end) g = Ret (None, g'))
    by (now rewrite (bind_Ret _ _ _ _ _ Hlist)).
  exists g'. split.
  { unfold IterateObjects. destruct Hone as [-> | ->]; [exact Hgo|].
    destruct include; exact Hgo. }
  split; [exact Hlog|].
  intros b k. destruct (bool_decide_reflect (b = bucket)) as [->|Hb]; cbn [andb].
  - destruct (String.prefix prefix k) eqn:Hp; cbn [andb].
    + destruct (objcli.ShouldIgnore k include exclude) eqn:Hig; cbn [negb].
      * apply Hframe. intros (_ & _ & ?). congruence.
      * destruct (objects g !! (bucket, k)) as [d|] eqn:Hd; [|now apply Hmono].
        apply Hin; [|exact Hig]. apply in_map_iff.
        exists {| Name := k; Prefix := ""; RemoteSize := Z.of_nat (length d) |}.
        split; [reflexivity|]. apply list_elem_of_In, listing_flat. now exists k, d.
    + apply Hframe. intros (_ & Hk & _).
      apply in_map_iff in Hk as (r & <- & Hr).
      apply list_elem_of_In, listing_flat in Hr. destruct Hr as (k' & d & _ & Hp' & ->).
      cbn in Hp. congruence.
  - apply Hframe. now intros [? _].
Qed.

(** The entries of the listing [DeleteDirectory] asks for: the objects of
    the bucket below the prefix, as [svcObjects] returns them without a
    delimiter. *)
Definition listing (g : service) (bucket prefix : string) : list remoteAttrs :=
  remove_dups (omap (listEntry bucket prefix "") (map_to_list (objects g))).

(** The loop over the entries when every delete request is refused: it
    stops at the first entry, with the error of its visitor. *)
Lemma iterate_delete_refused (bucket : string) (c : cause) (entries : list remoteAttrs)
    (g : service) :
  (forall k, faults g (ReqDelete bucket k) = Some c) ->
  c <> ErrObjectNotExist ->
  (forall r, In r entries -> Prefix r = "") ->
  exists res g',
    iterate None None (deleteVisited bucket) entries None g = Ret (res, g') /\
    objects g' = objects g /\ logged g' = logged g /\
    match entries with
    | [] => res = None /\ events g' = events g
    | r :: _ =>
        res = handleError bucket (Name r) (Some c) /\
        events g' = events g ++ [(ReqDelete bucket (Name r), Some c)]
    end.
Proof.
  intros Hf Hc Hobj. destruct entries as [|r entries].
  - exists None, g. now cbn.
  - cbn [iterate]. change (objcli.ShouldIgnore (Name r) None None) with false. cbn iota.
    rewrite (Hobj r) by now left. rewrite bool_decide_eq_true_2 by reflexivity.
    unfold deleteVisited. cbn [Key]. unfold bind at 1. rewrite DeleteObjects_one.
    unfold del, svcDelete, perform, bind. rewrite Hf.
    rewrite bool_decide_eq_false_2 by exact Hc. cbn [ret].
    destruct (handleError bucket (Name r) (Some c)) as [e|] eqn:He;
      [|apply handleError_None in He; discriminate].
    eexists _, _. split; [reflexivity|]. now repeat split.
Qed.

(** X24: The iteration stops at the first error of the visitor, and the
    error of the visitor is the error of the call: when every delete
    request is refused, [DeleteDirectory] deletes nothing and returns an
    error exactly when the bucket has an object below the prefix. With no
    object there it makes the listing request only and returns nil;
    otherwise it makes the listing request and one delete request, that of
    the first object listed, and returns the normalized error of that
    request, not wrapped. *)
Theorem gcp_DeleteDirectory_returns_delete_error (g : service) (bucket prefix : string)
    (c : cause) :
  faults g (ReqObjects bucket prefix "") = None ->
  (forall k, faults g (ReqDelete bucket k) = Some c) ->
  c <> ErrObjectNotExist ->
  exists res g',
    DeleteDirectory bucket prefix g = Ret (res, g') /\
    objects g' = objects g /\
    (res <> None <->
     exists k d, objects g !! (bucket, k) = Some d /\ String.prefix prefix k = true) /\
    (forall e, res = Some e -> exists k, handleError bucket k (Some c) = Some e) /\
    match listing g bucket prefix with
    | [] =>
        res = None /\
        events g' = events g ++ [(ReqObjects bucket prefix "", None)]
    | r :: _ =>
        res = handleError bucket (Name r) (Some c) /\
        events g' = events g ++ [(ReqObjects bucket prefix "", None);
                                 (ReqDelete bucket (Name r), Some c)]
    end.
Proof.
  intros Hl Hf Hc. unfold DeleteDirectory, IterateObjects.
  pose (entries := listing g bucket prefix).
  set (g0 := record (ReqObjects bucket prefix "") None g).
  assert (Hlist : svcObjects bucket prefix "" g = Ret ((entries, None), g0)).
  { unfold svcObjects. now rewrite Hl. }
  rewrite (bind_Ret _ _ _ _ _ Hlist).
  assert (Hflat : forall r, In r entries -> Prefix r = "").
  { intros r Hr. apply list_elem_of_In, listing_flat in Hr.
    destruct Hr as (k & d & _ & _ & ->). reflexivity. }
  destruct (iterate_delete_refused bucket c entries g0 Hf Hc Hflat)
    as (res & g' & Hrun & Ho & _ & Hres).
  exists res, g'. split; [exact Hrun|]. split; [exact Ho|].
  fold entries.
  split; [|split].
  - split.
    + intros Hne. destruct entries as [|r rest] eqn:He; [now destruct Hres|].
      assert (Hr : In r entries) by (rewrite He; now left).
      apply list_elem_of_In, listing_flat in Hr.
      destruct Hr as (k & d & Hd & Hp & _). now exists k, d.
    + intros (k & d & Hd & Hp).
      assert (Hr : In {| Name := k; Prefix := ""; RemoteSize := Z.of_nat (length d) |} entries)
        by (apply list_elem_of_In, listing_flat; now exists k, d).
      destruct entries as [|r rest]; [destruct Hr|].
      destruct Hres as [-> _]. intros He. apply handleError_None in He. discriminate.
  - intros e He. destruct entries as [|r rest]; [destruct Hres; congruence|].
    exists (Name r). destruct Hres. congruence.
  - destruct entries as [|r rest]; destruct Hres as [Hres Hev];
      (split; [exact Hres|]); rewrite Hev; [reflexivity|].
    subst g0. cbn. now rewrite <- app_assoc.
Qed.

End GcpIterate.

(** ** The retryer *)

Section RetryerRuns.

Import retry Retryer.

Local Open Scope Z_scope.

Variable round_pow_phi : Z -> Z.

(** [duration] is defined and within the bounds for delays with
    0 < MinDelay <= MaxDelay. *)
Lemma duration_bounded (r : Retryer) (attempt : Z) :
  0 <= attempt ->
  0 < MinDelay (options r) <= MaxDelay (options r) ->
  MaxDelay (options r) <= MaxInt64 ->
  exists d,
    duration round_pow_phi r attempt = Some d /\
    MinDelay (options r) <= d <= MaxDelay (options r).
Proof.
  intros Ha Hd Hmax.
  destruct (steps_defined round_pow_phi r attempt Ha) as (n & Hn & Hrange).
  unfold duration. rewrite Hn. unfold div64.
  destruct (Z.eqb_spec (MinDelay (options r)) 0) as [|_]; [lia|].
  destruct (negb _).
  - eexists. split; [reflexivity|]. lia.
  - eexists. split; [reflexivity|]. unfold maths.Min, maths.Max.
    repeat match goal with |- context [?a <? ?b] => destruct (Z.ltb_spec a b) end; lia.
Qed.

Variables P E : Type.

(** What happens during a call, in order. *)
Inductive event : Type :=
| Called (attempt : Z)
| Cleaned (payload : option P)
| Slept (d : Z)
| Logged (attempt : Z) (payload : option P) (err : option (error E)).

(** A function whose result at each attempt is given, hooks that are all
    set, and the passing of time: each of them leaves its mark. *)
Definition traced (script : Z -> option P * option (error E))
    : RetryableFunc (list event) P E :=
  fun attempt w => Ret (script attempt, w ++ [Called attempt]).

Definition tracing (shouldRetry : option (Z -> option P -> option (error E) -> bool))
    : Hooks (list event) P E :=
  {| ShouldRetry := (fun f attempt payload err => ret (f attempt payload err)) <$> shouldRetry;
     Log := Some (fun attempt payload err w => Ret (tt, w ++ [Logged attempt payload err]));
     Cleanup := Some (fun payload w => Ret (tt, w ++ [Cleaned payload])) |}.

Definition elapse (d : Z) (w : list event) : list event := w ++ [Slept d].

(** Whether the function is to be executed again after an attempt. *)
Definition retries (shouldRetry : option (Z -> option P -> option (error E) -> bool))
    (script : Z -> option P * option (error E)) (attempt : Z) : bool :=
  match shouldRetry with
  | Some f => f attempt (script attempt).1 (script attempt).2
  | None => match (script attempt).2 with Some _ => true | None => false end
  end.

Definition delay (r : Retryer) (attempt : Z) : Z :=
  default 0 (duration round_pow_phi r attempt).

(** An attempt after which the function is to be executed again. *)
Definition failedAttempt (r : Retryer) (script : Z -> option P * option (error E))
    (attempt : Z) : list event :=
  [Called attempt]
  ++ (if attempt <? MaxRetries (options r) then [Cleaned (script attempt).1] else [])
  ++ [Slept (delay r attempt)]
  ++ (if attempt =? MaxRetries (options r) then []
      else [Logged attempt (script attempt).1 (script attempt).2]).

Section Runs.

Variable r : Retryer.
Variable shouldRetry : option (Z -> option P -> option (error E) -> bool).
Variable script : Z -> option P * option (error E).

Hypothesis delays : 0 < MinDelay (options r) <= MaxDelay (options r).
Hypothesis maxDelay : MaxDelay (options r) <= MaxInt64.
Hypothesis maxRetries : MaxRetries (options r) < MaxInt64.

Lemma retry_traced (attempt : Z) (w : list event) :
  Retryer.retry (list event) P E (tracing shouldRetry) attempt
    (script attempt).1 (script attempt).2 w
  = Ret (retries shouldRetry script attempt, w).
Proof. unfold Retryer.retry, retries. now destruct shouldRetry. Qed.

Lemma do_failed (attempt : Z) (w : list event) :
  1 <= attempt ->
  retries shouldRetry script attempt = true ->
  do round_pow_phi (list event) P E r (tracing shouldRetry)
     (Background (list event) E elapse) attempt (traced script) w
  = Ret (((script attempt).1, false, (script attempt).2),
         w ++ [Called attempt]
           ++ (if attempt <? MaxRetries (options r) then [Cleaned (script attempt).1] else [])
           ++ [Slept (delay r attempt)]).
Proof.
  intros Ha Hre.
  destruct (duration_bounded r attempt ltac:(lia) delays maxDelay) as (d & Hd & _).
  unfold do, delay. cbn [Err Background]. unfold traced at 1, bind at 1.
  destruct (script attempt) as [payload err] eqn:Hs. cbv beta iota.
  pose proof (retry_traced attempt (w ++ [Called attempt])) as Hr.
  rewrite Hs in Hr. cbn [fst snd] in Hr |- *.
  rewrite (bind_Ret _ _ _ _ _ Hr), Hre. cbn [negb Cleanup tracing].
  unfold sleep. rewrite Hd. cbn [default wait Background elapse].
  destruct (attempt <? MaxRetries (options r)); unfold bind, ret, elapse; cbn;
    now rewrite <- ?app_assoc.
Qed.

Lemma do_done (attempt : Z) (w : list event) :
  retries shouldRetry script attempt = false ->
  do round_pow_phi (list event) P E r (tracing shouldRetry)
     (Background (list event) E elapse) attempt (traced script) w
  = Ret (((script attempt).1, true, (script attempt).2), w ++ [Called attempt]).
Proof.
  intros Hre. unfold do. cbn [Err Background]. unfold traced at 1, bind at 1.
  destruct (script attempt) as [payload err] eqn:Hs. cbv beta iota.
  pose proof (retry_traced attempt (w ++ [Called attempt])) as Hr.
  rewrite Hs in Hr. cbn [fst snd] in Hr |- *.
  now rewrite (bind_Ret _ _ _ _ _ Hr), Hre.
Qed.

(** [k] attempts in a row after which the function is to be executed
    again. *)
Lemma attempts_failed (k : nat) :
  forall (fuel : nat) (attempt : Z) (payload : option P) (err : option (error E))
         (w : list event),
    1 <= attempt -> attempt + Z.of_nat k - 1 <= MaxRetries (options r) ->
    (forall a, attempt <= a < attempt + Z.of_nat k -> retries shouldRetry script a = true) ->
    (0 < k)%nat ->
    attempts round_pow_phi (list event) P E r (tracing shouldRetry) (k + fuel)
      (Background (list event) E elapse) (traced script) attempt payload err w
    = attempts round_pow_phi (list event) P E r (tracing shouldRetry) fuel
        (Background (list event) E elapse) (traced script) (attempt + Z.of_nat k)
        (script (attempt + Z.of_nat k - 1)).1 (script (attempt + Z.of_nat k - 1)).2
        (w ++ flat_map (failedAttempt r script) (seqZ attempt (Z.of_nat k))).
Proof.
  induction k as [|k IH]; intros fuel attempt payload err w Ha Hmax Hre Hk; [lia|].
  cbn [Nat.add attempts].
  destruct (Z.leb_spec attempt (MaxRetries (options r))) as [_|Hgt]; [|lia].
  rewrite (bind_Ret _ _ _ _ _ (do_failed attempt w Ha (Hre attempt ltac:(lia)))).
  cbv beta iota. cbn [Log tracing].
  assert (Hnext : wrap64 (attempt + 1) = attempt + 1).
  { apply wrap64_id. unfold in_int64, MinInt64, MaxInt64 in *. lia. }
  rewrite Hnext.
  assert (Hseq : seqZ attempt (Z.of_nat (S k)) = attempt :: seqZ (attempt + 1) (Z.of_nat k)).
  { rewrite seqZ_cons by lia. f_equal. f_equal; lia. }
  rewrite Hseq. cbn [flat_map]. unfold failedAttempt at 1.
  set (trace := w ++ [Called attempt]
                  ++ (if attempt <? MaxRetries (options r)
                      then [Cleaned (script attempt).1] else [])
                  ++ [Slept (delay r attempt)]).
  set (logs := if attempt =? MaxRetries (options r) then []
               else [Logged attempt (script attempt).1 (script attempt).2]).
  assert (Hlog : forall (K : M (list event) (option P * option (error E))),
            bind (if negb (attempt =? MaxRetries (options r))
                  then (fun w0 => Ret (tt, w0 ++ [Logged attempt (script attempt).1
                                                    (script attempt).2]))
                  else ret tt) (fun _ => K) trace
            = K (trace ++ logs)).
  { intros K. subst logs. unfold bind, ret.
    destruct (attempt =? MaxRetries (options r)); cbn; now rewrite ?app_nil_r. }
  rewrite Hlog.
  assert (Htrace : trace ++ logs
            = w ++ ([Called attempt]
                    ++ (if attempt <? MaxRetries (options r)
                        then [Cleaned (script attempt).1] else [])
                    ++ [Slept (delay r attempt)] ++ logs)).
  { subst trace. now rewrite <- !app_assoc. }
  rewrite Htrace.
  destruct k as [|k].
  - cbn [Nat.add]. change (Z.of_nat 1) with 1. change (Z.of_nat 0) with 0.
    replace (attempt + 1 - 1) with attempt by lia.
    rewrite seqZ_nil by lia. cbn [flat_map]. now rewrite app_nil_r.
  - rewrite IH; [| lia | lia | intros a Hin; apply Hre; lia | lia].
    replace (attempt + 1 + Z.of_nat (S k)) with (attempt + Z.of_nat (S (S k))) by lia.
    replace (attempt + 1 + Z.of_nat (S k) - 1) with (attempt + Z.of_nat (S (S k)) - 1) by lia.
    now rewrite <- !app_assoc.
Qed.

(** X14: When every attempt asks for another one, [Do] calls the function
    [MaxRetries] times, attempts 1 to [MaxRetries], and sleeps after each
    of them, the last one included, for a delay within the bounds; the
    cleanup and the log hooks run after all attempts but the last. It
    returns the payload of the last attempt and its error wrapped in
    [RetriesExhaustedError]; with [MaxRetries = 0] the function is not
    called and the wrapped error is nil. *)
Theorem Do_exhausted (w : list event) :
  0 <= MaxRetries (options r) ->
  (forall a, 1 <= a <= MaxRetries (options r) -> retries shouldRetry script a = true) ->
  Do round_pow_phi (list event) P E r (tracing shouldRetry) elapse (traced script) w
  = Ret ((if MaxRetries (options r) =? 0 then None
          else (script (MaxRetries (options r))).1,
          Some (RetriesExhaustedError (MaxRetries (options r))
                  (if MaxRetries (options r) =? 0 then None
                   else (script (MaxRetries (options r))).2))),
         w ++ flat_map (failedAttempt r script) (seqZ 1 (MaxRetries (options r))))
  /\ Forall (fun a => MinDelay (options r) <= delay r a <= MaxDelay (options r))
       (seqZ 1 (MaxRetries (options r))).
Proof.
  intros Hn Hre. split.
  - unfold Do, DoWithContext.
    destruct (Z.eqb_spec (MaxRetries (options r)) 0) as [H0|H0].
    + rewrite H0. change (Z.to_nat 0) with 0%nat. cbn [attempts]. rewrite H0.
      cbn. now rewrite app_nil_r.
    + replace (Z.to_nat (MaxRetries (options r)))
        with (Z.to_nat (MaxRetries (options r)) + 0)%nat by lia.
      rewrite attempts_failed; [| lia | lia | intros a Ha; apply Hre; lia | lia].
      rewrite Z2Nat.id by lia.
      replace (1 + MaxRetries (options r) - 1) with (MaxRetries (options r)) by lia.
      cbn [attempts].
      destruct (Z.leb_spec (1 + MaxRetries (options r)) (MaxRetries (options r))); [lia|].
      reflexivity.
  - apply Forall_forall. intros a Ha. apply elem_of_seqZ in Ha.
    destruct (duration_bounded r a ltac:(lia) delays maxDelay) as (d & Hd & Hb).
    unfold delay. now rewrite Hd.
Qed.

(** X15: [Do] stops at the first attempt after which the function is not to be
    executed again: it returns the payload and the error of that attempt
    as they are, having called the function once per attempt and, after
    each attempt before that one, run the cleanup, slept and logged. *)
Theorem Do_stops_at_first_success (k : Z) (w : list event) :
  1 <= k <= MaxRetries (options r) ->
  (forall a, 1 <= a < k -> retries shouldRetry script a = true) ->
  retries shouldRetry script k = false ->
  Do round_pow_phi (list event) P E r (tracing shouldRetry) elapse (traced script) w
  = Ret (script k, w ++ flat_map (failedAttempt r script) (seqZ 1 (k - 1)) ++ [Called k]).
Proof.
  intros Hk Hre Hstop. unfold Do, DoWithContext.
  assert (Hlast : forall (fuel : nat) (payload : option P) (err : option (error E))
                         (w' : list event),
            attempts round_pow_phi (list event) P E r (tracing shouldRetry) (S fuel)
              (Background (list event) E elapse) (traced script) k payload err w'
            = Ret (script k, w' ++ [Called k])).
  { intros fuel payload err w'. cbn [attempts].
    destruct (Z.leb_spec k (MaxRetries (options r))); [|lia].
    rewrite (bind_Ret _ _ _ _ _ (do_done k w' Hstop)). cbv beta iota.
    now destruct (script k). }
  destruct (Z.eq_dec k 1) as [->|Hk1].
  - replace (Z.to_nat (MaxRetries (options r)))
      with (S (Z.to_nat (MaxRetries (options r)) - 1)) by lia.
    rewrite Hlast. reflexivity.
  - replace (Z.to_nat (MaxRetries (options r)))
      with (Z.to_nat (k - 1) + S (Z.to_nat (MaxRetries (options r)) - Z.to_nat k))%nat by lia.
    rewrite attempts_failed; [| lia | lia | intros a Ha; apply Hre; lia | lia].
    rewrite Z2Nat.id by lia.
    replace (1 + (k - 1)) with k by lia.
    rewrite Hlast. now rewrite <- app_assoc.
Qed.

End Runs.

End RetryerRuns.

(** X16: A context that is cancelled when the call starts: the function is not
    called, whatever it and the hooks are, and the error of the context is
    returned in [RetriesAbortedError], with no attempt counted. *)
Theorem DoWithContext_cancelled_before_start (round_pow_phi : Z -> Z) (W P E : Type)
    (r : retry.Retryer) (h : Retryer.Hooks W P E) (ctx : Retryer.Context W E)
    (fn : Retryer.RetryableFunc W P E) (w : W) (e : Retryer.error E) :
  Retryer.Err W E ctx w = Some e ->
  (1 <= retry.MaxRetries (retry.options r))%Z ->
  Retryer.DoWithContext round_pow_phi W P E r h ctx fn w
  = Ret ((None, Some (Retryer.RetriesAbortedError 0 (Some e))), w).
Proof.
  intros He Hn. unfold Retryer.DoWithContext.
  destruct (Z.to_nat (retry.MaxRetries (retry.options r))) as [|fuel] eqn:Hf; [lia|].
  cbn [Retryer.attempts].
  destruct (Z.leb_spec 1 (retry.MaxRetries (retry.options r))); [|lia].
  unfold bind, Retryer.do. now rewrite He.
Qed.

(** ** The shape of the back-off *)

Section DurationShape.

Import retry.

Local Open Scope Z_scope.

Variable round_pow_phi : Z -> Z.

(** For a positive delay the overflow test of [duration] fails exactly
    when the product fits in 64 bits. *)
Lemma overflow_test (n m : Z) :
  0 < m <= MaxInt64 ->
  (n =? wrap64 (Z.quot (wrap64 (n * m)) m)) = true <-> in_int64 (n * m).
Proof.
  intros Hm.
  assert (Hq : wrap64 (Z.quot (wrap64 (n * m)) m) = Z.quot (wrap64 (n * m)) m).
  { apply wrap64_id. pose proof (quot_between (wrap64 (n * m)) m ltac:(lia)).
    pose proof (wrap64_range (n * m)).
    unfold in_int64, MinInt64, MaxInt64 in *. lia. }
  rewrite Hq, Z.eqb_eq. split.
  - intros Heq. apply overflow_detected; [exact Hm | now symmetry].
  - intros Hin. rewrite (wrap64_id _ Hin). symmetry. apply Z.quot_mul. lia.
Qed.

(** [duration] from the number of steps. *)
Lemma duration_of_steps (r : Retryer) (attempt n : Z) :
  steps round_pow_phi r attempt = Some n ->
  0 < MinDelay (options r) <= MaxInt64 ->
  (in_int64 (n * MinDelay (options r)) ->
   duration round_pow_phi r attempt
   = Some (maths.Min (MaxDelay (options r))
             (maths.Max (MinDelay (options r)) (n * MinDelay (options r))))) /\
  (~ in_int64 (n * MinDelay (options r)) ->
   duration round_pow_phi r attempt = Some (MaxDelay (options r))).
Proof.
  intros Hn Hm. unfold duration. rewrite Hn. unfold div64.
  destruct (Z.eqb_spec (MinDelay (options r)) 0) as [|_]; [lia|].
  pose proof (overflow_test n (MinDelay (options r)) Hm) as Htest.
  destruct (n =? wrap64 (Z.quot (wrap64 (n * MinDelay (options r))) (MinDelay (options r))));
    cbn [negb]; split; intros Hin.
  - now rewrite (wrap64_id _ Hin).
  - destruct Hin. now apply Htest.
  - apply Htest in Hin. discriminate.
  - reflexivity.
Qed.

Lemma duration_steps_monotone (r : Retryer) (a b na nb : Z) :
  steps round_pow_phi r a = Some na -> steps round_pow_phi r b = Some nb ->
  0 <= na <= nb ->
  0 < MinDelay (options r) <= MaxDelay (options r) ->
  MaxDelay (options r) <= MaxInt64 ->
  exists da db,
    duration round_pow_phi r a = Some da /\ duration round_pow_phi r b = Some db /\
    da <= db.
Proof.
  intros Ha Hb Hn Hd Hmax.
  destruct (duration_of_steps r a na Ha ltac:(lia)) as [Hina Houta].
  destruct (duration_of_steps r b nb Hb ltac:(lia)) as [Hinb Houtb].
  assert (Hdec : forall x, in_int64 x \/ ~ in_int64 x)
    by (intros x; unfold in_int64; lia).
  assert (Hclamp : forall x, MinDelay (options r)
            <= maths.Min (MaxDelay (options r)) (maths.Max (MinDelay (options r)) x)
            <= MaxDelay (options r)).
  { intros x. unfold maths.Min, maths.Max.
    destruct (Z.ltb_spec (MinDelay (options r)) x);
      repeat match goal with |- context [?u <? ?v] => destruct (Z.ltb_spec u v) end; lia. }
  destruct (Hdec (nb * MinDelay (options r))) as [Hb'|Hb'].
  - assert (Ha' : in_int64 (na * MinDelay (options r)))
      by (unfold in_int64, MinInt64, MaxInt64 in *; nia).
    eexists _, _. split; [apply Hina, Ha'|]. split; [apply Hinb, Hb'|].
    assert (Hle : na * MinDelay (options r) <= nb * MinDelay (options r)) by nia.
    revert Hle. generalize (na * MinDelay (options r)) (nb * MinDelay (options r)).
    intros x y Hle. unfold maths.Min, maths.Max.
    destruct (Z.ltb_spec (MinDelay (options r)) x), (Z.ltb_spec (MinDelay (options r)) y);
      repeat match goal with |- context [?u <? ?v] => destruct (Z.ltb_spec u v) end; lia.
  - destruct (Hdec (na * MinDelay (options r))) as [Ha'|Ha'].
    + eexists _, _. split; [apply Hina, Ha'|]. split; [apply Houtb, Hb'|].
      apply Hclamp.
    + eexists _, _. split; [apply Houta, Ha'|]. split; [apply Houtb, Hb'|]. lia.
Qed.

(** X17: The back-off does not decrease from one attempt to a later one, for
    the linear algorithm, and for the exponential one up to attempt 62. *)
Theorem duration_monotone (r : Retryer) (a b : Z) :
  Algorithm (options r) = AlgorithmLinear \/
  (Algorithm (options r) = AlgorithmExponential /\ b <= 62) ->
  0 <= a <= b -> b <= MaxInt64 ->
  0 < MinDelay (options r) <= MaxDelay (options r) ->
  MaxDelay (options r) <= MaxInt64 ->
  exists da db,
    duration round_pow_phi r a = Some da /\ duration round_pow_phi r b = Some db /\
    da <= db.
Proof.
  intros Halg Hab Hb Hd Hmax.
  destruct Halg as [Hlin|[Hexp Hb62]].
  - apply (duration_steps_monotone r a b a b); try assumption.
    + unfold steps. rewrite Hlin. f_equal. apply wrap64_id.
      unfold in_int64, MinInt64, MaxInt64 in *. lia.
    + unfold steps. rewrite Hlin. f_equal. apply wrap64_id.
      unfold in_int64, MinInt64, MaxInt64 in *. lia.
  - assert (Hpow : forall x, 0 <= x <= 62 ->
              steps round_pow_phi r x = Some (2 ^ x)).
    { intros x Hx. unfold steps. rewrite Hexp.
      destruct (Z.ltb_spec x 0); [lia|]. f_equal.
      rewrite Z.shiftl_1_l. apply wrap64_id.
      pose proof (Z.pow_le_mono_r 2 x 62 ltac:(lia) ltac:(lia)).
      pose proof (Z.pow_pos_nonneg 2 x ltac:(lia) ltac:(lia)).
      unfold in_int64, MinInt64, MaxInt64. lia. }
    apply (duration_steps_monotone r a b (2 ^ a) (2 ^ b)); try assumption.
    + apply Hpow. lia.
    + apply Hpow. lia.
    + split; [apply Z.pow_nonneg; lia | apply Z.pow_le_mono_r; lia].
Qed.

(** X18: From attempt 64 on, the shift of the exponential algorithm leaves
    nothing of the 1: the number of steps is 0 and the back-off is the
    minimum delay again. *)
Theorem duration_exponential_from_64 (r : Retryer) (attempt : Z) :
  Algorithm (options r) = AlgorithmExponential ->
  64 <= attempt ->
  0 < MinDelay (options r) <= MaxDelay (options r) ->
  steps round_pow_phi r attempt = Some 0 /\
  duration round_pow_phi r attempt = Some (MinDelay (options r)).
Proof.
  intros Hexp Ha Hd.
  assert (Hsteps : steps round_pow_phi r attempt = Some 0).
  { unfold steps. rewrite Hexp. destruct (Z.ltb_spec attempt 0); [lia|]. f_equal.
    rewrite Z.shiftl_1_l. unfold wrap64.
    replace attempt with (64 + (attempt - 64)) by lia.
    rewrite Z.pow_add_r by lia.
    replace (2 ^ 64 * 2 ^ (attempt - 64) + 2 ^ 63)
      with (2 ^ 63 + 2 ^ (attempt - 64) * 2 ^ 64) by lia.
    rewrite Z.mod_add by lia. rewrite Z.mod_small by lia. lia. }
  split; [exact Hsteps|].
  unfold duration. rewrite Hsteps. unfold div64.
  destruct (Z.eqb_spec (MinDelay (options r)) 0) as [|_]; [lia|].
  rewrite Z.mul_0_l. change (wrap64 0) with 0. rewrite Z.quot_0_l by lia.
  change (wrap64 0) with 0. cbn [Z.eqb negb].
  unfold maths.Min, maths.Max.
  destruct (Z.ltb_spec (MinDelay (options r)) 0); [lia|].
  destruct (Z.ltb_spec (MaxDelay (options r)) (MinDelay (options r))); [lia|].
  reflexivity.
Qed.

End DurationShape.

(** ** Masking and tagging of arguments *)

Section LogArguments.

Import log.

(** The arguments with the values to mask replaced, read off the list
    from its head. *)
Fixpoint masked (flags : list string) (args : list string) : list string :=
  match args with
  | [] => []
  | arg :: rest =>
      match rest with
      | [] => [arg]
      | value :: rest' =>
          if flagMatches arg flags && negb (String.prefix "-" value)
          then arg :: "*****" :: masked flags rest'
          else arg :: masked flags rest
      end
  end.

(** The arguments with the values to tag between the tags; [None] when a
    flag to tag is reached as the last argument. *)
Fixpoint tagged (flags : list string) (args : list string) : option (list string) :=
  match args with
  | [] => Some []
  | arg :: rest =>
      if flagMatches arg flags then
        match rest with
        | [] => None
        | value :: rest' =>
            (fun out => arg :: ("<ud>" +:+ value +:+ "</ud>") :: out) <$> tagged flags rest'
        end
      else (fun out => arg :: out) <$> tagged flags rest
  end.

Lemma lookup_middle (pre : list string) (x : string) (rest : list string) :
  (pre ++ x :: rest) !! length pre = Some x.
Proof. now rewrite lookup_app_r, Nat.sub_diag by lia. Qed.

Lemma insert_middle (pre : list string) (x y : string) (rest : list string) :
  <[length pre := y]> (pre ++ x :: rest) = pre ++ y :: rest.
Proof. now rewrite insert_app_r_alt, Nat.sub_diag by lia. Qed.

Lemma maskLoop_masked (flags : list string) (fuel : nat) :
  forall (pre args : list string),
    length args <= fuel ->
    maskLoop fuel flags (pre ++ args) (length pre) = Ret (pre ++ masked flags args).
Proof.
  induction fuel as [fuel IH] using lt_wf_ind. intros pre args Hfuel.
  destruct args as [|arg rest].
  - cbn [masked]. rewrite !app_nil_r.
    destruct fuel; cbn [maskLoop];
      destruct (Nat.ltb_spec (length pre) (length pre)); try lia; reflexivity.
  - destruct fuel as [|fuel]; [cbn in Hfuel; lia|]. cbn [maskLoop].
    destruct (Nat.ltb_spec (length pre) (length (pre ++ arg :: rest))) as [_|Hge];
      [|rewrite length_app in Hge; cbn in Hge; lia].
    rewrite lookup_middle.
    assert (Hnext : forall l, pre ++ arg :: l = (pre ++ [arg]) ++ l)
      by (intros l; now rewrite <- app_assoc).
    assert (Hlen1 : S (length pre) = length (pre ++ [arg]))
      by (rewrite length_app; cbn; lia).
    destruct rest as [|value rest'].
    + assert (Hlast : (length pre + 1 <? length (pre ++ [arg])) = false)
        by (apply Nat.ltb_ge; rewrite length_app; cbn; lia).
      rewrite Hlast, andb_false_r. rewrite Hlen1.
      rewrite <- (app_nil_r (pre ++ [arg])) at 1.
      rewrite (IH fuel) by (cbn; lia). cbn [masked]. now rewrite app_nil_r.
    + assert (Hmore : (length pre + 1 <? length (pre ++ arg :: value :: rest')) = true)
        by (apply Nat.ltb_lt; rewrite length_app; cbn; lia).
      rewrite Hmore, andb_true_r. cbn [masked].
      destruct (flagMatches arg flags); cbn [andb].
      * replace (length pre + 1) with (length (pre ++ [arg])) by (rewrite length_app; cbn; lia).
        rewrite (Hnext (value :: rest')), lookup_middle.
        destruct (String.prefix "-" value); cbn [negb].
        -- rewrite <- Hnext, Hlen1, (Hnext (value :: rest')).
           rewrite (IH fuel) by (cbn in *; lia). now rewrite <- app_assoc.
        -- rewrite <- Hnext, Hlen1, (Hnext (value :: rest')), insert_middle.
           assert (Hnext2 : (pre ++ [arg]) ++ "*****" :: rest'
                            = (pre ++ [arg; "*****"]) ++ rest')
             by (now rewrite <- !app_assoc).
           assert (Hlen2 : S (length (pre ++ [arg])) = length (pre ++ [arg; "*****"]))
             by (rewrite !length_app; cbn; lia).
           rewrite Hnext2, Hlen2.
           rewrite (IH fuel) by (cbn in *; lia). now rewrite <- !app_assoc.
      * rewrite Hlen1, (Hnext (value :: rest')).
        rewrite (IH fuel) by (cbn in *; lia). now rewrite <- app_assoc.
Qed.

Lemma tagLoop_tagged (flags : list string) (fuel : nat) :
  forall (pre args : list string),
    length args <= fuel ->
    tagLoop fuel flags (pre ++ args) (length pre)
    = match tagged flags args with
      | Some out => Ret (pre ++ out)
      | None => Panic
      end.
Proof.
  induction fuel as [fuel IH] using lt_wf_ind. intros pre args Hfuel.
  destruct args as [|arg rest].
  - cbn [tagged]. rewrite !app_nil_r.
    destruct fuel; cbn [tagLoop];
      destruct (Nat.ltb_spec (length pre) (length pre)); try lia; reflexivity.
  - destruct fuel as [|fuel]; [cbn in Hfuel; lia|]. cbn [tagLoop tagged].
    destruct (Nat.ltb_spec (length pre) (length (pre ++ arg :: rest))) as [_|Hge];
      [|rewrite length_app in Hge; cbn in Hge; lia].
    rewrite lookup_middle.
    assert (Hnext : forall l, pre ++ arg :: l = (pre ++ [arg]) ++ l)
      by (intros l; now rewrite <- app_assoc).
    assert (Hlen1 : S (length pre) = length (pre ++ [arg]))
      by (rewrite length_app; cbn; lia).
    destruct (flagMatches arg flags).
    + destruct rest as [|value rest'].
      * rewrite Hlen1. rewrite lookup_ge_None_2 by lia. reflexivity.
      * rewrite Hlen1, (Hnext (value :: rest')), lookup_middle, insert_middle.
        set (v := "<ud>" +:+ value +:+ "</ud>").
        assert (Hnext2 : (pre ++ [arg]) ++ v :: rest' = (pre ++ [arg; v]) ++ rest')
          by (now rewrite <- !app_assoc).
        assert (Hlen2 : S (length (pre ++ [arg])) = length (pre ++ [arg; v]))
          by (rewrite !length_app; cbn; lia).
        rewrite Hnext2, Hlen2, (IH fuel) by (cbn in *; lia).
        destruct (tagged flags rest'); cbn [fmap option_fmap option_map];
          [now rewrite <- !app_assoc | reflexivity].
    + rewrite Hlen1, (Hnext rest), (IH fuel) by (cbn in *; lia).
      destruct (tagged flags rest); cbn [fmap option_fmap option_map];
        [now rewrite <- !app_assoc | reflexivity].
Qed.

(** Whether the argument before index [i] is a flag of the list. *)
Definition followsFlag (flags args : list string) (i : nat) : bool :=
  match i with
  | O => false
  | S j => match args !! j with Some f => flagMatches f flags | None => false end
  end.

Lemma masked_cons (flags : list string) (arg value : string) (rest : list string) :
  masked flags (arg :: value :: rest)
  = if flagMatches arg flags && negb (String.prefix "-" value)
    then arg :: "*****" :: masked flags rest
    else arg :: masked flags (value :: rest).
Proof. reflexivity. Qed.

Lemma masked_shape (flags : list string) (n : nat) :
  forall args : list string,
    length args <= n ->
    length (masked flags args) = length args /\
    forall (i : nat) (a : string),
      args !! i = Some a ->
      masked flags args !! i = Some a \/
      (masked flags args !! i = Some "*****" /\ followsFlag flags args i = true /\
       String.prefix "-" a = false).
Proof.
  induction n as [n IH] using lt_wf_ind. intros args Hn.
  destruct args as [|arg [|value rest]]; [split; [reflexivity | now intros [] ?] | |].
  - split; [reflexivity|]. intros i a Hi. now left.
  - destruct n as [|[|n]]; [cbn in Hn; lia | cbn in Hn; lia|]. rewrite masked_cons.
    destruct (flagMatches arg flags) eqn:Hm; cbn [andb].
    + destruct (String.prefix "-" value) eqn:Hp; cbn [negb].
      * destruct (IH (S n) ltac:(lia) (value :: rest) ltac:(cbn in *; lia)) as [Hlen Hsh].
        split; [cbn [length]; now rewrite Hlen|].
        intros [|i] a Hi; [now left|]. cbn in Hi. destruct (Hsh i a Hi) as [H|(H & Hf & Hd)].
        -- now left.
        -- right. split; [exact H|]. split; [|exact Hd].
           destruct i as [|i]; [discriminate | exact Hf].
      * destruct (IH n ltac:(lia) rest ltac:(cbn in *; lia)) as [Hlen Hsh].
        split; [cbn [length]; now rewrite Hlen|].
        intros [|[|i]] a Hi; [now left | |].
        -- injection Hi as <-. right. cbn. now rewrite Hm.
        -- cbn in Hi. destruct (Hsh i a Hi) as [H|(H & Hf & Hd)]; [now left|].
           right. split; [exact H|]. split; [|exact Hd].
           destruct i as [|i]; [discriminate | exact Hf].
    + destruct (IH (S n) ltac:(lia) (value :: rest) ltac:(cbn in *; lia)) as [Hlen Hsh].
      split; [cbn [length]; now rewrite Hlen|].
      intros [|i] a Hi; [now left|]. cbn in Hi. destruct (Hsh i a Hi) as [H|(H & Hf & Hd)].
      * now left.
      * right. split; [exact H|]. split; [|exact Hd].
        destruct i as [|i]; [discriminate | exact Hf].
Qed.

(** X19: [MaskArguments] returns on every list of arguments, with as many
    arguments as it was given. Each of them is the argument given or the
    mask; an argument is masked only if it does not start with "-" and
    follows a flag to mask. *)
Theorem MaskArguments_shape (args flagsToMask : list string) :
  exists out,
    MaskArguments args flagsToMask = Ret out /\
    length out = length args /\
    forall (i : nat) (a : string),
      args !! i = Some a ->
      out !! i = Some a \/
      (out !! i = Some "*****" /\ followsFlag flagsToMask args i = true /\
       String.prefix "-" a = false).
Proof.
  exists (masked flagsToMask args). split.
  - unfold MaskArguments.
    apply (maskLoop_masked flagsToMask (length args) [] args). lia.
  - apply (masked_shape flagsToMask (length args)). lia.
Qed.

Lemma masked_value (flags : list string) (n : nat) :
  forall (args : list string) (i : nat) (flag value : string),
    length args <= n ->
    args !! i = Some flag -> String.prefix "-" flag = true ->
    flagMatches flag flags = true ->
    args !! S i = Some value -> String.prefix "-" value = false ->
    masked flags args !! S i = Some "*****".
Proof.
  induction n as [n IH] using lt_wf_ind. intros args i flag value Hn Hf Hdash Hm Hv Hnd.
  destruct args as [|arg [|v rest]]; [discriminate | destruct i; discriminate|].
  destruct n as [|[|n]]; [cbn in Hn; lia | cbn in Hn; lia|]. rewrite masked_cons.
  destruct i as [|i].
  - injection Hf as ->. injection Hv as ->. now rewrite Hm, Hnd.
  - cbn in Hf, Hv.
    destruct (flagMatches arg flags && negb (String.prefix "-" v)) eqn:Hc.
    + destruct i as [|i].
      * injection Hf as ->. apply andb_true_iff in Hc as [_ Hc].
        rewrite Hdash in Hc. discriminate.
      * cbn in Hf. cbn [lookup list_lookup].
        apply (IH n ltac:(lia) rest i flag value); try assumption. cbn in *; lia.
    + cbn [lookup list_lookup].
      apply (IH (S n) ltac:(lia) (v :: rest) i flag value); try assumption. cbn in *; lia.
Qed.

(** X20: The value of a flag to mask does not reach the output: an argument
    that does not start with "-" and follows a flag to mask that does is
    replaced by the mask. *)
Theorem MaskArguments_masks_values (args flagsToMask : list string) (i : nat)
    (flag value : string) :
  args !! i = Some flag -> String.prefix "-" flag = true ->
  flagMatches flag flagsToMask = true ->
  args !! S i = Some value -> String.prefix "-" value = false ->
  exists out,
    MaskArguments args flagsToMask = Ret out /\
    out !! i = Some flag /\ out !! S i = Some "*****".
Proof.
  intros Hf Hdash Hm Hv Hnd. exists (masked flagsToMask args). split.
  - unfold MaskArguments.
    apply (maskLoop_masked flagsToMask (length args) [] args). lia.
  - split.
    + destruct (masked_shape flagsToMask (length args) args ltac:(lia)) as [_ Hsh].
      destruct (Hsh i flag Hf) as [H|(_ & _ & H)]; [exact H | congruence].
    + now apply (masked_value flagsToMask (length args) args i flag value).
Qed.

Lemma tagged_cons (flags : list string) (arg : string) (rest : list string) :
  tagged flags (arg :: rest)
  = if flagMatches arg flags then
      match rest with
      | [] => None
      | value :: rest' =>
          (fun out => arg :: ("<ud>" +:+ value +:+ "</ud>") :: out) <$> tagged flags rest'
      end
    else (fun out => arg :: out) <$> tagged flags rest.
Proof. reflexivity. Qed.

Lemma tagged_trailing (flags : list string) (n : nat) :
  forall (pre : list string) (flag : string),
    length pre <= n ->
    flagMatches flag flags = true ->
    (forall x, last pre = Some x -> flagMatches x flags = false) ->
    tagged flags (pre ++ [flag]) = None.
Proof.
  induction n as [n IH] using lt_wf_ind. intros pre flag Hn Hm Hlast.
  destruct pre as [|a [|b rest]].
  - cbn. now rewrite Hm.
  - cbn [app]. rewrite tagged_cons, (Hlast a eq_refl), tagged_cons, Hm. reflexivity.
  - destruct n as [|[|n]]; [cbn in Hn; lia | cbn in Hn; lia|].
    change ((a :: b :: rest) ++ [flag]) with (a :: b :: (rest ++ [flag])).
    rewrite tagged_cons. destruct (flagMatches a flags).
    + rewrite (IH n ltac:(lia) rest flag); [reflexivity | cbn in *; lia | exact Hm|].
      intros x Hx. apply Hlast. destruct rest; [discriminate | exact Hx].
    + change (b :: (rest ++ [flag])) with ((b :: rest) ++ [flag]).
      rewrite (IH (S n) ltac:(lia) (b :: rest) flag); [reflexivity | cbn in *; lia | exact Hm|].
      intros x Hx. apply Hlast. exact Hx.
Qed.

(** X21: [UserTagArguments] does not check that a flag to tag has a value: when
    the last argument is such a flag, and the argument before it is not,
    the index runs out of range and the call panics. *)
Theorem UserTagArguments_trailing_flag_panics (pre flagsToTag : list string) (flag : string) :
  flagMatches flag flagsToTag = true ->
  (forall x, last pre = Some x -> flagMatches x flagsToTag = false) ->
  UserTagArguments (pre ++ [flag]) flagsToTag = Panic.
Proof.
  intros Hm Hlast. unfold UserTagArguments.
  pose proof (tagLoop_tagged flagsToTag (length (pre ++ [flag])) [] (pre ++ [flag])
                ltac:(lia)) as Hrun.
  rewrite (tagged_trailing flagsToTag (length pre) pre flag) in Hrun by (lia || assumption).
  exact Hrun.
Qed.

Lemma tagged_values (flags : list string) (n : nat) :
  forall args : list string,
    length args <= n ->
    (forall i flag, args !! i = Some flag -> flagMatches flag flags = true ->
       exists value, args !! S i = Some value /\ flagMatches value flags = false) ->
    exists out,
      tagged flags args = Some out /\ length out = length args /\
      forall (i : nat) (a : string),
        args !! i = Some a ->
        out !! i = Some (if followsFlag flags args i then "<ud>" +:+ a +:+ "</ud>" else a).
Proof.
  induction n as [n IH] using lt_wf_ind. intros args Hn Hflags.
  destruct args as [|arg rest]; [exists []; repeat split; now intros [] ?|].
  destruct n as [|n]; [cbn in Hn; lia|]. rewrite tagged_cons.
  destruct (flagMatches arg flags) eqn:Hm.
  - destruct (Hflags 0 arg eq_refl Hm) as (value & Hv & Hvm).
    destruct rest as [|v rest']; [discriminate|]. injection Hv as ->.
    destruct n as [|n]; [cbn in Hn; lia|].
    destruct (IH n ltac:(lia) rest') as (out & Hout & Hlen & Hsh).
    { cbn in *; lia. }
    { intros i flag Hi Hfm. apply (Hflags (S (S i)) flag Hi Hfm). }
    rewrite Hout. eexists. split; [reflexivity|].
    split; [cbn [length]; now rewrite Hlen|].
    intros [|[|i]] a Hi.
    + injection Hi as <-. reflexivity.
    + injection Hi as <-. cbn. now rewrite Hm.
    + cbn in Hi. transitivity (out !! i); [reflexivity|]. rewrite (Hsh i a Hi).
      destruct i as [|i]; [cbn; now rewrite Hvm | reflexivity].
  - destruct (IH n ltac:(lia) rest) as (out & Hout & Hlen & Hsh).
    { cbn in *; lia. }
    { intros i flag Hi Hfm. apply (Hflags (S i) flag Hi Hfm). }
    rewrite Hout. eexists. split; [reflexivity|].
    split; [cbn [length]; now rewrite Hlen|].
    intros [|i] a Hi.
    + injection Hi as <-. reflexivity.
    + cbn in Hi. transitivity (out !! i); [reflexivity|]. rewrite (Hsh i a Hi).
      destruct i as [|i]; [cbn; now rewrite Hm | reflexivity].
Qed.

(** X22: When every flag to tag is followed by an argument that is not itself a
    flag to tag, [UserTagArguments] returns the arguments with exactly the
    arguments that follow such a flag put between the tags. *)
Theorem UserTagArguments_tags_values (args flagsToTag : list string) :
  (forall i flag, args !! i = Some flag -> flagMatches flag flagsToTag = true ->
     exists value, args !! S i = Some value /\ flagMatches value flagsToTag = false) ->
  exists out,
    UserTagArguments args flagsToTag = Ret out /\
    length out = length args /\
    forall (i : nat) (a : string),
      args !! i = Some a ->
      out !! i = Some (if followsFlag flagsToTag args i then "<ud>" +:+ a +:+ "</ud>" else a).
Proof.
  intros Hflags.
  destruct (tagged_values flagsToTag (length args) args ltac:(lia) Hflags)
    as (out & Hout & Hlen & Hsh).
  exists out. split; [|now split].
  unfold UserTagArguments.
  pose proof (tagLoop_tagged flagsToTag (length args) [] args ltac:(lia)) as Hrun.
  rewrite Hout in Hrun. exact Hrun.
Qed.

End LogArguments.

(** * Concrete runs *)

Section Samples.

Import objval objerr.

Definition body (s : string) : bytes := String.list_byte_of_string s.

(** The identifiers [uuid.NewString] returns: u0, u1, ... *)
Definition uuids (n : nat) : string := "u" +:+ pretty n.

(** The part keys p0, p1, ..., each holding its own name. *)
Definition partNames (n : nat) : list string :=
  map (fun i => "p" +:+ pretty i) (seq 0 n).

Definition uploadedParts (n : nat) : gmap (string * string) bytes :=
  list_to_map (map (fun k => (("bkt", k), body k)) (partNames n)).

Definition asParts (keys : list string) : list Part :=
  map (fun k => {| ID := k; Number := 0; PartSize := Z.of_nat (String.length k) |}) keys.

Definition gcpService (m : gmap (string * string) bytes)
    (f : objgcp.request -> option cause) : objgcp.service :=
  {| objgcp.objects := m; objgcp.faults := f; objgcp.entropy := uuids;
     objgcp.drawn := 0; objgcp.events := []; objgcp.logged := [];
     objgcp.schedule := fun _ => (0, 0) |}.

Definition noFault (r : objgcp.request) : option cause := None.

Definition awsService (m : gmap (string * string) bytes) (report : bool) : objaws.service :=
  {| objaws.objects := m; objaws.uploads := ∅; objaws.faults := fun _ => None;
     objaws.keyFaults := fun _ _ => None; objaws.reportMissing := report;
     objaws.entropy := uuids; objaws.drawn := 0; objaws.events := [];
     objaws.logged := [] |}.

(** The attributes request is refused. *)
Definition attrsForbidden (r : objgcp.request) : option cause :=
  match r with
  | objgcp.ReqAttrs _ _ => Some (GoogleAPIError 403)
  | _ => None
  end.

Definition visitNothingGCP (attrs : ObjectAttrs) : M objgcp.service (option error) := ret None.
Definition visitNothingAWS (attrs : ObjectAttrs) : M objaws.service (option error) := ret None.

Definition anyPattern : objcli.Regexp := {| objcli.MatchString := fun _ => true |}.

End Samples.

(** C1 fails on the code at a destination key that is listed twice among
    the parts: the merge writes the destination, only the first occurrence
    is taken out of the keys to clean up, and the cleanup deletes the object
    just written; the call returns nil and no object is left at the key. *)
Theorem CompleteMultipartUpload_destination_listed_twice :
  objgcp.gather {[("bkt", "final") := body "ab"]} "bkt" ["final"; "final"] = Some (body "abab")
  /\ exists g',
       objgcp.CompleteMultipartUpload "bkt" "id" "final" (asParts ["final"; "final"])
         (gcpService {[("bkt", "final") := body "ab"]} noFault) = Ret (None, g')
       /\ objgcp.events g'
          = [(objgcp.ReqCompose "bkt" "final" ["final"; "final"], None);
             (objgcp.ReqDelete "bkt" "final", None)]
       /\ objgcp.objects g' !! ("bkt", "final") = None.
Proof.
  split; [vm_compute; reflexivity|].
  eexists. split; [vm_compute; reflexivity|].
  split; vm_compute; reflexivity.
Qed.

(** C3 as stated: after each successful merge step its sources, other than
    the destination key, are deleted. *)
Definition deletesConsumedSources (bucket key : string)
    (evs : list (objgcp.request * option objerr.cause)) : Prop :=
  forall dst srcs p,
    In (objgcp.ReqCompose bucket dst srcs, None) evs -> In p srcs -> p <> key ->
    exists res, In (objgcp.ReqDelete bucket p, res) evs.

(** C3 fails as stated: of 33 parts the last one, p32, is not in the bucket.
    The first merge, of p0 ... p31 into an intermediate key, succeeds; the
    merge into the destination fails as p32 is missing; the error is
    returned and the sources of the first merge are not deleted. *)
Lemma CompleteMultipartUpload_failed_merge_keeps_sources :
  exists err g',
    objgcp.CompleteMultipartUpload "bkt" "id" "final" (asParts (partNames 33))
      (gcpService (uploadedParts 32) noFault) = Ret (Some err, g')
    /\ In (objgcp.ReqCompose "bkt" "final-mpu-u0/u1" (partNames 32), None) (objgcp.events g')
    /\ objgcp.objects g' !! ("bkt", "p0") = Some (body "p0")
    /\ ~ deletesConsumedSources "bkt" "final" (objgcp.events g').
Proof.
  eexists _, _. split; [vm_compute; reflexivity|].
  split; [vm_compute; now left|].
  split; [vm_compute; reflexivity|].
  intros H.
  destruct (H "final-mpu-u0/u1" (partNames 32) "p0") as [res Hin].
  - vm_compute. now left.
  - vm_compute. now left.
  - discriminate.
  - vm_compute in Hin. destruct Hin as [Hin|[Hin|[Hin|[]]]]; discriminate.
Qed.

(** C4 fails as stated: a range that ends before it starts is not nil and
    does not cover the 10-byte source, and the call returns the validation
    error, not the unsupported-operation error. *)
Lemma UploadPartCopy_invalid_range :
  objgcp.objects (gcpService {[("bkt", "src") := body "0123456789"]} noFault) !! ("bkt", "src")
    = Some (body "0123456789")
  /\ ~ coversObject (Some {| objval.Start := 5; objval.End_ := 2 |})
         (Z.of_nat (length (body "0123456789")))
  /\ objgcp.UploadPartCopy "bkt" "id" "dst" "src" 1
       (Some {| objval.Start := 5; objval.End_ := 2 |})
       (gcpService {[("bkt", "src") := body "0123456789"]} noFault)
     = Ret ((objval.zeroPart,
             Some (objerr.InvalidByteRangeError {| objval.Start := 5; objval.End_ := 2 |})),
            gcpService {[("bkt", "src") := body "0123456789"]} noFault)
  /\ objerr.InvalidByteRangeError {| objval.Start := 5; objval.End_ := 2 |}
     <> objerr.ErrUnsupportedOperation.
Proof.
  split; [vm_compute; reflexivity|].
  split; [intros [H _]; discriminate|].
  split; [reflexivity | discriminate].
Qed.

(** The theorems with hypotheses, at concrete inputs. *)

Lemma IterateObjects_include_and_exclude_witness :
  objgcp.IterateObjects "bkt" "backup/" "/" (Some [anyPattern]) (Some [anyPattern])
    visitNothingGCP (gcpService (uploadedParts 3) noFault)
    = Ret (Some objerr.ErrIncludeAndExcludeAreMutuallyExclusive,
           gcpService (uploadedParts 3) noFault)
  /\ objaws.IterateObjects 1000 "bkt" "backup/" (Some [anyPattern]) (Some [anyPattern])
       visitNothingAWS (awsService (uploadedParts 3) true)
    = Ret (Some objerr.ErrIncludeAndExcludeAreMutuallyExclusive,
           awsService (uploadedParts 3) true).
Proof.
  apply (IterateObjects_include_and_exclude 1000 "bkt" "backup/" "/"
           (Some [anyPattern]) (Some [anyPattern]) visitNothingGCP visitNothingAWS
           (gcpService (uploadedParts 3) noFault) (awsService (uploadedParts 3) true));
    simpl; lia.
Defined.

Lemma AppendToObject_panics_on_other_error_witness :
  objgcp.GetObjectAttrs "bkt" "k" (gcpService ∅ attrsForbidden)
    = Ret ((None, objgcp.handleError "bkt" "k" (Some (objerr.GoogleAPIError 403))),
           objgcp.record (objgcp.ReqAttrs "bkt" "k") (Some (objerr.GoogleAPIError 403))
             (gcpService ∅ attrsForbidden))
  /\ objgcp.handleError "bkt" "k" (Some (objerr.GoogleAPIError 403)) <> None
  /\ objgcp.AppendToObject "bkt" "k" (body "xyz") (gcpService ∅ attrsForbidden) = Panic.
Proof.
  apply (AppendToObject_panics_on_other_error (gcpService ∅ attrsForbidden) "bkt" "k"
           (body "xyz") (objerr.GoogleAPIError 403)); reflexivity.
Defined.


(** The whole of a 10-byte object, as the range 0-9. *)
Lemma UploadPartCopy_whole_object_only_witness :
  String.prefix (objgcp.partPrefix "id" "dst") "dst-mpu-id/u0" = true
  /\ exists g',
       objgcp.UploadPartCopy "bkt" "id" "dst" "src" 1
         (Some {| objval.Start := 0; objval.End_ := 9 |})
         (gcpService {[("bkt", "src") := body "0123456789"]} noFault)
       = Ret (({| objval.ID := "dst-mpu-id/u0"; objval.Number := 0; objval.PartSize := 10 |},
               None), g')
       /\ objgcp.objects g' !! ("bkt", "dst-mpu-id/u0") = Some (body "0123456789").
Proof.
  destruct (UploadPartCopy_whole_object_only
              (gcpService {[("bkt", "src") := body "0123456789"]} noFault)
              "bkt" "id" "dst" "src" 1 (Some {| objval.Start := 0; objval.End_ := 9 |})
              (body "0123456789")) as (_ & _ & Hcopy);
    [vm_compute; reflexivity | reflexivity |].
  destruct Hcopy as [Hprefix Hrun];
    [reflexivity | split; vm_compute; reflexivity | reflexivity |].
  split; [exact Hprefix|].
  eexists. split; [exact Hrun|]. vm_compute. reflexivity.
Defined.

(** Five keys, three of which exist, in batches of two. *)
Lemma DeleteObjects_batches_witness :
  concat (chunks 2 (partNames 5)) = partNames 5
  /\ Forall (fun b => 0 < length b <= 2) (chunks 2 (partNames 5))
  /\ exists err a' evs n,
       objaws.DeleteObjects 2 "bkt" (partNames 5) (awsService (uploadedParts 3) true)
         = Ret (err, a') /\
       objaws.events a' = objaws.events (awsService (uploadedParts 3) true) ++ evs /\
       map fst evs = map (batchRequest "bkt") (take n (chunks 2 (partNames 5))) /\
       (err = None -> n = length (chunks 2 (partNames 5))) /\
       (err <> None <->
        Exists (batchFails (awsService (uploadedParts 3) true) "bkt") (chunks 2 (partNames 5))) /\
       ((forall r, objaws.faults (awsService (uploadedParts 3) true) r = None) ->
        (forall k, objaws.keyFaults (awsService (uploadedParts 3) true) "bkt" k = None) ->
        err = None /\ forall k, In k (partNames 5) -> objaws.objects a' !! ("bkt", k) = None).
Proof.
  apply (DeleteObjects_batches 2 ltac:(lia) "bkt" (partNames 5)
           (awsService (uploadedParts 3) true)).
Defined.

(** 34 parts: one merge into an intermediate key, then the final merge. *)
Lemma complete_terminates_witness :
  (exists err g',
     objgcp.complete 34 "bkt" "final" (partNames 34) (gcpService (uploadedParts 34) noFault)
       = Ret (err, g')
     /\ objgcp.complete (length (partNames 34)) "bkt" "final" (partNames 34)
          (gcpService (uploadedParts 34) noFault) = Ret (err, g'))
  /\ (objgcp.MaxComposable < length (partNames 34) ->
      forall intermediate : string,
        length (intermediate :: drop objgcp.MaxComposable (partNames 34))
          < length (partNames 34)).
Proof.
  apply (complete_terminates 34 "bkt" "final" (partNames 34)
           (gcpService (uploadedParts 34) noFault)).
  vm_compute. lia.
Defined.

Definition concatenated34 : bytes :=
  Eval vm_compute in
    default [] (objgcp.gather (uploadedParts 34) "bkt" (partNames 34)).

Lemma partNames_start_with_p (n : nat) (k : string) :
  In k (partNames n) -> String.get 0 k = String.get 0 "p".
Proof.
  unfold partNames. rewrite in_map_iff. now intros (i & <- & _).
Qed.

Lemma CompleteMultipartUpload_concatenates_witness :
  exists g' gen,
    objgcp.CompleteMultipartUpload "bkt" "id" "final" (asParts (partNames 34))
      (gcpService (uploadedParts 34) noFault) = Ret (None, g') /\
    objgcp.logged g' = [] /\
    objgcp.objects g' !! ("bkt", "final") = Some concatenated34 /\
    (forall k, In k gen ->
       exists i, 0 <= i /\ k = generatedKey (gcpService (uploadedParts 34) noFault) "final" i) /\
    (forall k, k <> "final" -> In k (map objval.ID (asParts (partNames 34))) \/ In k gen ->
       objgcp.objects g' !! ("bkt", k) = None) /\
    (forall b k,
       ~ (b = "bkt" /\ (k = "final" \/ In k (map objval.ID (asParts (partNames 34))) \/ In k gen)) ->
       objgcp.objects g' !! (b, k) = uploadedParts 34 !! (b, k)) /\
    (length (asParts (partNames 34)) <= objgcp.MaxComposable -> gen = []).
Proof.
  apply (CompleteMultipartUpload_concatenates (gcpService (uploadedParts 34) noFault)
           "bkt" "id" "final" (asParts (partNames 34)) concatenated34).
  - intros r. reflexivity.
  - discriminate.
  - vm_compute. reflexivity.
  - vm_compute. lia.
  - intros _ i _ Hin.
    assert (Hids : map objval.ID (asParts (partNames 34)) = partNames 34)
      by (vm_compute; reflexivity).
    rewrite Hids in Hin. apply partNames_start_with_p in Hin.
    vm_compute in Hin. discriminate.
Defined.

(** A bucket that holds the object "k" = "ab", on either provider. *)
Definition gcpWithAb : objgcp.service :=
  gcpService {[("bkt", "k") := body "ab"]} noFault.

Definition awsWithAb : objaws.service :=
  awsService {[("bkt", "k") := body "ab"]} true.

(** "ab", then "cd": one merge of the object itself and the new part. *)
Lemma gcp_AppendToObject_appends_witness :
  exists g',
    objgcp.AppendToObject "bkt" "k" (body "cd") gcpWithAb = Ret (None, g') /\
    objgcp.logged g' = objgcp.logged gcpWithAb /\
    objgcp.objects g' !! ("bkt", "k") = Some (body "ab" ++ body "cd") /\
    objgcp.objects g' !! ("bkt", generatedKey gcpWithAb "k" (objgcp.drawn gcpWithAb)) = None /\
    (forall b k, (b, k) <> ("bkt", "k") ->
       (b, k) <> ("bkt", generatedKey gcpWithAb "k" (objgcp.drawn gcpWithAb)) ->
       objgcp.objects g' !! (b, k) = objgcp.objects gcpWithAb !! (b, k)).
Proof.
  apply (gcp_AppendToObject_appends gcpWithAb "bkt" "k" (body "ab") (body "cd")).
  - intros r. reflexivity.
  - vm_compute. reflexivity.
  - discriminate.
Defined.

(** A threshold of two bytes: "ab" is appended to by copy and upload. *)
Lemma aws_AppendToObject_appends_witness :
  exists a',
    objaws.AppendToObject 2 "bkt" "k" (body "cd") awsWithAb
      = Ret (None, a') /\
    objaws.objects a'
      = <[("bkt", "k") := body "ab" ++ body "cd"]>
          (objaws.objects awsWithAb).
Proof.
  apply (aws_AppendToObject_appends 2 awsWithAb
           "bkt" "k" (body "ab") (body "cd")).
  - lia.
  - intros r. reflexivity.
  - vm_compute. reflexivity.
Defined.

(** * More concrete runs *)

Section MoreSamples.

Import objval objerr.

(** Two parts p0 and p1 in the bucket. *)
Definition gcpWithParts : objgcp.service := gcpService (uploadedParts 2) noFault.

Definition awsWithParts : objaws.service := awsService (uploadedParts 2) true.

(** The merge requests are refused. *)
Definition composeUnavailable (r : objgcp.request) : option cause :=
  match r with
  | objgcp.ReqCompose _ _ _ => Some (GoogleAPIError 503)
  | _ => None
  end.

(** The batch deletes are refused. *)
Definition awsDeletesRefused : objaws.service :=
  {| objaws.objects := uploadedParts 2; objaws.uploads := ∅;
     objaws.faults := fun r => match r with
                               | objaws.ReqDeleteObjects _ _ _ =>
                                   Some (AWSError "InternalError" "We encountered an internal error.")
                               | _ => None
                               end;
     objaws.keyFaults := fun _ _ => None; objaws.reportMissing := true;
     objaws.entropy := uuids; objaws.drawn := 0; objaws.events := [];
     objaws.logged := [] |}.

(** A function that fails at every attempt, and one that succeeds at the
    third. *)
Definition alwaysFails (attempt : Z) : option unit * option (Retryer.error unit) :=
  (None, Some (Retryer.Inner tt)).

Definition thirdTimeLucky (attempt : Z) : option unit * option (Retryer.error unit) :=
  if (attempt <? 3)%Z then (None, Some (Retryer.Inner tt)) else (Some tt, None).

Definition cancelled : Retryer.Context unit unit :=
  {| Retryer.Err := fun _ => Some (Retryer.Inner tt);
     Retryer.wait := fun _ w => (false, w) |}.

Definition noHooks : Retryer.Hooks unit unit unit :=
  {| Retryer.ShouldRetry := None; Retryer.Log := None; Retryer.Cleanup := None |}.

End MoreSamples.

Lemma gcp_DeleteObjects_removes_keys_witness :
  exists g',
    objgcp.DeleteObjects "bkt" ["p0"; "absent"] gcpWithParts = Ret (None, g') /\
    objgcp.objects g' !! ("bkt", "p0") = None /\
    objgcp.objects g' !! ("bkt", "p1") = objgcp.objects gcpWithParts !! ("bkt", "p1").
Proof.
  destruct (gcp_DeleteObjects_removes_keys gcpWithParts "bkt" ["p0"; "absent"])
    as (g' & Hrun & _ & _ & Hin & Hframe).
  - intros r. reflexivity.
  - exists g'. split; [exact Hrun|]. split.
    + apply Hin. now left.
    + apply Hframe. intros [_ [H|[H|[]]]]; discriminate.
Defined.

Lemma gcp_DeleteDirectory_removes_prefix_witness :
  exists g',
    objgcp.DeleteDirectory "bkt" "p" gcpWithParts = Ret (None, g') /\
    objgcp.logged g' = objgcp.logged gcpWithParts /\
    forall b k,
      objgcp.objects g' !! (b, k)
        = if bool_decide (b = "bkt") && String.prefix "p" k
          then None else objgcp.objects gcpWithParts !! (b, k).
Proof.
  apply (gcp_DeleteDirectory_removes_prefix gcpWithParts "bkt" "p").
  intros r. reflexivity.
Defined.

Lemma gcp_AbortMultipartUpload_removes_parts_witness :
  exists part g1 g2,
    objgcp.UploadPart "bkt" "id" "k" 1 (body "ab") gcpWithParts = Ret ((part, None), g1) /\
    objgcp.AbortMultipartUpload "bkt" "id" "k" g1 = Ret (None, g2) /\
    objgcp.objects g2 = objgcp.objects gcpWithParts.
Proof.
  destruct (gcp_AbortMultipartUpload_removes_parts gcpWithParts "bkt" "id" "k" 1 (body "ab"))
    as (part & g1 & g2 & Hup & _ & Habort & _ & _ & _ & Hsame).
  - intros r. reflexivity.
  - exists part, g1, g2. split; [exact Hup|]. split; [exact Habort|].
    apply Hsame. intros k Hk.
    destruct (objgcp.objects gcpWithParts !! ("bkt", k)) as [d|] eqn:Hd; [|reflexivity].
    exfalso. apply elem_of_list_to_map_2 in Hd. vm_compute in Hd.
    apply list_elem_of_In in Hd. destruct Hd as [Hd|[Hd|[]]];
      injection Hd as <- _; discriminate.
Defined.

Lemma gcp_AppendToObject_failed_merge_leaves_part_witness :
  exists e g',
    objgcp.AppendToObject "bkt" "k" (body "cd")
      (gcpService {[("bkt", "k") := body "ab"]} composeUnavailable)
      = Ret (Some (objerr.Errorf "failed to complete multipart upload" e), g') /\
    objgcp.objects g' !! ("bkt", "k") = Some (body "ab") /\
    objgcp.objects g' !! ("bkt", "k-mpu-u0/u1") = Some (body "cd").
Proof.
  destruct (gcp_AppendToObject_failed_merge_leaves_part
              (gcpService {[("bkt", "k") := body "ab"]} composeUnavailable)
              "bkt" "k" (body "ab") (body "cd") (objerr.GoogleAPIError 503))
    as (e & g' & Hrun & _ & _ & Hobj & Hkey);
    [vm_compute; reflexivity | discriminate | reflexivity | reflexivity | reflexivity |].
  exists e, g'. split; [exact Hrun|]. split; [exact Hkey|].
  rewrite Hobj. vm_compute. reflexivity.
Defined.

Lemma aws_AppendToObject_closes_session_witness :
  exists res a',
    objaws.AppendToObject 2 "bkt" "k" (body "cd") awsWithAb = Ret (res, a') /\
    objaws.uploads a' = objaws.uploads awsWithAb /\
    objaws.logged a' = objaws.logged awsWithAb.
Proof.
  destruct (aws_AppendToObject_closes_session 2 awsWithAb "bkt" "k" (body "ab") (body "cd"))
    as (res & a' & Hrun & _ & Hlog & Hsame);
    [vm_compute; reflexivity | vm_compute; discriminate | reflexivity | reflexivity
     | reflexivity |].
  exists res, a'. split; [exact Hrun|]. split; [apply Hsame; reflexivity | exact Hlog].
Defined.

Lemma aws_DeleteDirectory_removes_prefix_witness :
  exists a',
    objaws.DeleteDirectory 1 "bkt" "p" awsWithParts = Ret (None, a') /\
    objaws.logged a' = objaws.logged awsWithParts /\
    forall b k,
      objaws.objects a' !! (b, k)
        = if bool_decide (b = "bkt") && String.prefix "p" k
          then None else objaws.objects awsWithParts !! (b, k).
Proof.
  apply (aws_DeleteDirectory_removes_prefix 1 awsWithParts "bkt" "p").
  split; intros; reflexivity.
Defined.

(** Every batch delete is refused: nil all the same, and both parts are in
    the bucket still. *)
Lemma aws_DeleteDirectory_drops_delete_errors_witness :
  exists a',
    objaws.DeleteDirectory 1 "bkt" "p" awsDeletesRefused = Ret (None, a') /\
    objaws.objects a' = objaws.objects awsDeletesRefused.
Proof.
  destruct (aws_DeleteDirectory_drops_delete_errors 1 awsDeletesRefused "bkt" "p")
    as (a' & Hrun & Hsame).
  - intros i. reflexivity.
  - exists a'. split; [exact Hrun|]. apply Hsame. intros keys. discriminate.
Defined.

Lemma aws_IterateObjects_visits_once_witness :
  exists a' visited,
    objaws.IterateObjects 1 "bkt" "p" None None logKey awsWithParts = Ret (None, a') /\
    objaws.logged a' = objaws.logged awsWithParts ++ visited /\
    NoDup visited.
Proof.
  destruct (aws_IterateObjects_visits_once 1 awsWithParts "bkt" "p" None None)
    as (a' & visited & Hrun & Hlog & _ & Hnd & _).
  - now left.
  - intros i. reflexivity.
  - exists a', visited. split; [exact Hrun|]. split; [exact Hlog | exact Hnd].
Defined.

Lemma aws_PutObject_then_read_witness :
  exists a1 a2 a3,
    objaws.PutObject "bkt" "k" (body "ab") (awsService ∅ true) = Ret (None, a1) /\
    objaws.GetObject "bkt" "k" None a1
      = Ret ((Some {| objval.Attrs := {| objval.Key := "k"; objval.Size := Z.of_nat (length (body "ab")) |};
                      objval.Body := body "ab" |}, None), a2) /\
    objaws.GetObjectAttrs "bkt" "k" a2
      = Ret ((Some {| objval.Key := "k"; objval.Size := Z.of_nat (length (body "ab")) |}, None), a3) /\
    objaws.objects a3 = <[("bkt", "k") := body "ab"]> (objaws.objects (awsService ∅ true)).
Proof.
  apply (aws_PutObject_then_read (awsService ∅ true) "bkt" "k" (body "ab")); reflexivity.
Defined.

Section RetrySamples.

(** Three attempts, a linear back-off from one second. *)
Definition threeAttempts : retry.Retryer :=
  {| retry.options :=
       {| retry.Algorithm := retry.AlgorithmLinear;
          retry.MaxRetries := 3;
          retry.MinDelay := second;
          retry.MaxDelay := 60 * second |} |}.

End RetrySamples.

(** Three failed attempts: three calls and three sleeps, two cleanups and
    two log lines. *)
Lemma Do_exhausted_witness :
  Retryer.Do fibN (list (event unit unit)) unit unit threeAttempts (tracing unit unit None)
    (elapse unit unit) (traced unit unit alwaysFails) []
  = Ret ((None, Some (Retryer.RetriesExhaustedError 3 (Some (Retryer.Inner tt)))),
         [Called unit unit 1; Cleaned unit unit None; Slept unit unit second;
          Logged unit unit 1 None (Some (Retryer.Inner tt));
          Called unit unit 2; Cleaned unit unit None; Slept unit unit (2 * second);
          Logged unit unit 2 None (Some (Retryer.Inner tt));
          Called unit unit 3; Slept unit unit (3 * second)]).
Proof.
  etransitivity.
  - apply (Do_exhausted fibN unit unit threeAttempts None alwaysFails);
      try (intros a _; reflexivity); cbn; unfold second, MaxInt64; lia.
  - vm_compute. reflexivity.
Defined.

Lemma Do_stops_at_first_success_witness :
  Retryer.Do fibN (list (event unit unit)) unit unit threeAttempts (tracing unit unit None)
    (elapse unit unit) (traced unit unit thirdTimeLucky) []
  = Ret ((Some tt, None),
         [Called unit unit 1; Cleaned unit unit None; Slept unit unit second;
          Logged unit unit 1 None (Some (Retryer.Inner tt));
          Called unit unit 2; Cleaned unit unit None; Slept unit unit (2 * second);
          Logged unit unit 2 None (Some (Retryer.Inner tt));
          Called unit unit 3]).
Proof.
  etransitivity.
  - apply (Do_stops_at_first_success fibN unit unit threeAttempts None thirdTimeLucky
             ltac:(cbn; unfold second; lia) ltac:(cbn; unfold second, MaxInt64; lia)
             ltac:(cbn; unfold MaxInt64; lia) 3 []).
    + cbn. lia.
    + intros a Ha. unfold retries, thirdTimeLucky.
      destruct (Z.ltb_spec a 3); [reflexivity | lia].
    + reflexivity.
  - vm_compute. reflexivity.
Defined.

Lemma DoWithContext_cancelled_before_start_witness :
  Retryer.DoWithContext fibN unit unit unit threeAttempts noHooks cancelled
    (fun _ => ret (Some tt, None)) tt
  = Ret ((None, Some (Retryer.RetriesAbortedError 0 (Some (Retryer.Inner tt)))), tt).
Proof.
  apply (DoWithContext_cancelled_before_start fibN unit unit unit threeAttempts noHooks
           cancelled (fun _ => ret (Some tt, None)) tt (Retryer.Inner tt)).
  - reflexivity.
  - cbn. lia.
Defined.

Lemma duration_monotone_witness :
  exists da db,
    retry.duration fibN sample_retryer 3 = Some da /\
    retry.duration fibN sample_retryer 10 = Some db /\
    (da <= db)%Z.
Proof.
  apply (duration_monotone fibN sample_retryer 3 10); cbn; unfold second, MaxInt64; try lia.
  right. split; [reflexivity | lia].
Defined.

Lemma duration_exponential_from_64_witness :
  retry.steps fibN sample_retryer 64 = Some 0%Z /\
  retry.duration fibN sample_retryer 64 = Some (retry.MinDelay (retry.options sample_retryer)).
Proof.
  apply (duration_exponential_from_64 fibN sample_retryer 64); cbn; unfold second; try lia.
  reflexivity.
Defined.

Lemma MaskArguments_masks_values_witness :
  exists out,
    log.MaskArguments ["cbbackup"; "-p"; "secret"; "-v"] ["-p"; "--password"] = Ret out /\
    out !! 1 = Some "-p" /\ out !! 2 = Some "*****".
Proof.
  apply (MaskArguments_masks_values ["cbbackup"; "-p"; "secret"; "-v"] ["-p"; "--password"]
           1 "-p" "secret"); reflexivity.
Defined.

Lemma UserTagArguments_trailing_flag_panics_witness :
  log.UserTagArguments (["cbbackup"] ++ ["-u"]) ["-u"] = Panic.
Proof.
  apply (UserTagArguments_trailing_flag_panics ["cbbackup"] ["-u"] "-u").
  - reflexivity.
  - intros x [= <-]. reflexivity.
Defined.

Lemma UserTagArguments_tags_values_witness :
  exists out,
    log.UserTagArguments ["-u"; "admin"; "-v"] ["-u"] = Ret out /\
    length out = 3.
Proof.
  destruct (UserTagArguments_tags_values ["-u"; "admin"; "-v"] ["-u"]) as (out & Hrun & Hlen & _).
  - intros [|[|[|i]]] flag Hi Hm; try discriminate.
    + injection Hi as <-. exists "admin". split; reflexivity.
    + injection Hi as <-. vm_compute in Hm. discriminate.
    + injection Hi as <-. vm_compute in Hm. discriminate.
  - exists out. split; [exact Hrun | exact Hlen].
Defined.

Section GcpIterateSamples.

(** The delete requests are refused. *)
Definition deletesForbidden (r : objgcp.request) : option objerr.cause :=
  match r with
  | objgcp.ReqDelete _ _ => Some (objerr.GoogleAPIError 403)
  | _ => None
  end.

(** A pattern for the one key p1. *)
Definition onlyP1 : objcli.Regexp :=
  {| objcli.MatchString := fun s => bool_decide (s = "p1") |}.

End GcpIterateSamples.

Lemma gcp_IterateObjects_deletes_kept_witness :
  exists g',
    objgcp.IterateObjects "bkt" "p" "" (Some [onlyP1]) None (deleteVisited "bkt") gcpWithParts
      = Ret (None, g') /\
    objgcp.objects g' !! ("bkt", "p1") = None /\
    objgcp.objects g' !! ("bkt", "p0") = objgcp.objects gcpWithParts !! ("bkt", "p0").
Proof.
  destruct (gcp_IterateObjects_deletes_kept gcpWithParts "bkt" "p" (Some [onlyP1]) None)
    as (g' & Hrun & _ & Hobj).
  - intros r. reflexivity.
  - now right.
  - exists g'. split; [exact Hrun|]. split; rewrite Hobj; reflexivity.
Defined.

Lemma gcp_DeleteDirectory_returns_delete_error_witness :
  exists res g',
    objgcp.DeleteDirectory "bkt" "p" (gcpService (uploadedParts 2) deletesForbidden)
      = Ret (res, g') /\
    objgcp.objects g' = objgcp.objects (gcpService (uploadedParts 2) deletesForbidden) /\
    length (objgcp.events g') = 2.
Proof.
  destruct (gcp_DeleteDirectory_returns_delete_error
              (gcpService (uploadedParts 2) deletesForbidden) "bkt" "p"
              (objerr.GoogleAPIError 403))
    as (res & g' & Hrun & Ho & _ & _ & Hev).
  - reflexivity.
  - intros k. reflexivity.
  - discriminate.
  - exists res, g'. split; [exact Hrun|]. split; [exact Ho|].
    destruct (listing _ _ _) as [|r rest] eqn:E; [vm_compute in E; discriminate|].
    destruct Hev as [_ ->]. reflexivity.
Defined.

(** * The worker pool at work *)

Section PoolSamples.

Import objval objerr.

(** Three parts, every delete request refused, and a scheduler that lets
    the loop of [DeleteObjects] queue every key before a job runs, and
    runs the second of the queued jobs first. *)
Definition queuedAhead : objgcp.service :=
  {| objgcp.objects := uploadedParts 3; objgcp.faults := deletesForbidden;
     objgcp.entropy := uuids; objgcp.drawn := 0; objgcp.events := [];
     objgcp.logged := []; objgcp.schedule := fun _ => (2, 1) |}.

End PoolSamples.

(** The jobs that were queued when the first deletion failed still run:
    the three parts are requested for deletion, and the one cleanup logs
    one line, with the first error. *)
Example CompleteMultipartUpload_queued_deletes_drain :
  exists g',
    objgcp.CompleteMultipartUpload "bkt" "id" "final" (asParts (partNames 3)) queuedAhead
      = Ret (None, g') /\
    objgcp.events g'
      = [(objgcp.ReqCompose "bkt" "final" ["p0"; "p1"; "p2"], None);
         (objgcp.ReqDelete "bkt" "p1", Some (objerr.GoogleAPIError 403));
         (objgcp.ReqDelete "bkt" "p2", Some (objerr.GoogleAPIError 403));
         (objgcp.ReqDelete "bkt" "p0", Some (objerr.GoogleAPIError 403))] /\
    objgcp.logged g' = [(["p0"; "p1"; "p2"], objerr.ErrUnauthorized)].
Proof. eexists. split; [vm_compute; reflexivity|]. split; reflexivity. Qed.

(** With a scheduler that lets the loop queue one key at a time, the first
    failed deletion ends the loop: the other keys are not requested. *)
Example DeleteObjects_stops_queueing :
  exists g',
    objgcp.DeleteObjects "bkt" ["p0"; "p1"; "p2"] (gcpService (uploadedParts 3) deletesForbidden)
      = Ret (Some objerr.ErrUnauthorized, g') /\
    objgcp.events g' = [(objgcp.ReqDelete "bkt" "p0", Some (objerr.GoogleAPIError 403))].
Proof. eexists. split; [vm_compute; reflexivity|]. reflexivity. Qed.
